(** * The investment problem solved by dynamic programming

    A shallow embedding of [investment_jax.py]: the Bellman backup [B], the
    Bellman operator [T], the greedy extractor [get_greedy], the two policy
    operators [T_σ] and [T_σ_2], the policy evaluators [get_value] and
    [get_value_2], and the three solvers built from them.

    The program is written against an n-dimensional array library (reshape,
    broadcasting, reductions along an axis, integer-array indexing).  The
    first part of this file is a model of exactly that fragment: an array is
    a shape together with its row-major buffer, as the library stores it.
    64-bit floats are idealised as exact rationals ([Qc], canonical
    fractions, so that equality is Leibniz equality); integer arrays hold
    [Z].  Theorems over these definitions say what the program computes
    when every arithmetic operation is carried out exactly.

    Where rounding decides the outcome the same operations are run on
    binary64 numbers: the entry test of the loop of the optimistic
    routine, and the module [F64], which repeats the operators on the
    primitive floats to evaluate the program at concrete inputs. *)

From Stdlib Require Import QArith Qcanon Lqa ZArith List Lia Bool PeanoNat.
From Stdlib Require Import Uint63 PrimFloat FloatOps SpecFloat.
Import ListNotations.

#[local] Open Scope nat_scope.

(** ** Exceptions and results *)

(** The exceptions the array library raises on ill-shaped operands. *)
Inductive exn : Type :=
| TypeError      (* reshape to a shape of another size *)
| ValueError.    (* operands that do not broadcast, reduction of an empty axis *)

Inductive result (X : Type) : Type :=
| Ok (x : X)
| Raise (e : exn).

Arguments Ok {X} x.
Arguments Raise {X} e.

Definition bind {X Y} (r : result X) (k : X -> result Y) : result Y :=
  match r with
  | Ok x => k x
  | Raise e => Raise e
  end.

Notation "x <- r ;; k" := (bind r (fun x => k))
  (at level 61, r at next level, right associativity).

(** ** Arrays: a shape and a row-major buffer *)

Class Default (X : Type) := dflt : X.
#[global] Instance Default_Qc : Default Qc := 0%Qc.
#[global] Instance Default_Z : Default Z := 0%Z.
#[global] Instance Default_bool : Default bool := false.

Record ndarray (X : Type) : Type := mkarray {
  shape : list nat;
  data : list X
}.

Arguments mkarray {X} shape data.
Arguments shape {X} a : rename.
Arguments data {X} a : rename.

(** Number of elements of an array of shape [s]. *)
Definition size (s : list nat) : nat := fold_right Nat.mul 1 s.

(** An index is in bounds when it has one coordinate per axis, each below
    the extent of its axis. *)
Definition in_bounds (s idx : list nat) : Prop := Forall2 lt idx s.

(** Row-major offset of a multi-index. *)
Fixpoint ravel (s idx : list nat) : nat :=
  match s, idx with
  | _ :: s', i :: idx' => i * size s' + ravel s' idx'
  | _, _ => 0
  end.

(** The multi-index of an offset. *)
Fixpoint unravel (s : list nat) (n : nat) : list nat :=
  match s with
  | [] => []
  | _ :: s' => n / size s' :: unravel s' (n mod size s')
  end.

Definition get {X} `{Default X} (a : ndarray X) (idx : list nat) : X :=
  nth (ravel (shape a) idx) (data a) dflt.

(** All indices of a shape, in row-major order. *)
Fixpoint indices (s : list nat) : list (list nat) :=
  match s with
  | [] => [[]]
  | d :: s' => flat_map (fun i => map (cons i) (indices s')) (seq 0 d)
  end.

(** The array of shape [s] whose element at [idx] is [f idx]. *)
Definition tabulate {X} (s : list nat) (f : list nat -> X) : ndarray X :=
  mkarray s (map f (indices s)).

(** A plain array is a computation that cannot fail; a Python scalar is an
    array of rank 0. *)
Definition ok_array {X} (a : ndarray X) : result (ndarray X) := Ok a.
Coercion ok_array : ndarray >-> result.

Definition scalar (x : Qc) : result (ndarray Qc) := Ok (mkarray [] [x]).
Coercion scalar : Qc >-> result.

(** ** Operations of the array library *)

(** [jnp.reshape]: the buffer is kept, the shape replaced; the sizes must
    agree. *)
Definition reshape {X} (r : result (ndarray X)) (s : list nat)
  : result (ndarray X) :=
  a <- r ;;
  if size (shape a) =? size s then Ok (mkarray s (data a)) else Raise TypeError.

(** Broadcasting of two extents: equal, or one of them 1. *)
Definition bdim (d1 d2 : nat) : option nat :=
  if d1 =? d2 then Some d1
  else if d1 =? 1 then Some d2
  else if d2 =? 1 then Some d1
  else None.

Fixpoint zip_bdim (s1 s2 : list nat) : option (list nat) :=
  match s1, s2 with
  | [], [] => Some []
  | d1 :: s1', d2 :: s2' =>
      match bdim d1 d2, zip_bdim s1' s2' with
      | Some d, Some s => Some (d :: s)
      | _, _ => None
      end
  | _, _ => None
  end.

(** Shapes are aligned on the right: the shorter one is padded with 1s on
    the left. *)
Definition pad (n : nat) (s : list nat) : list nat :=
  repeat 1 (n - length s) ++ s.

Definition broadcast_shapes (s1 s2 : list nat) : option (list nat) :=
  let n := Nat.max (length s1) (length s2) in
  zip_bdim (pad n s1) (pad n s2).

(** Along an axis of extent 1 every index of the result reads element 0. *)
Definition clip1 (d i : nat) : nat := if d =? 1 then 0 else i.

Fixpoint clip (s idx : list nat) : list nat :=
  match s, idx with
  | d :: s', i :: idx' => clip1 d i :: clip s' idx'
  | _, _ => []
  end.

(** The index of an operand of shape [s] read at index [idx] of the
    broadcast result. *)
Definition bidx (s idx : list nat) : list nat :=
  skipn (length idx - length s) (clip (pad (length idx) s) idx).

(** Element-wise binary operation with broadcasting. *)
Definition broadcast2 {X Y W} `{Default X} `{Default Y} (f : X -> Y -> W)
    (ra : result (ndarray X)) (rb : result (ndarray Y)) : result (ndarray W) :=
  a <- ra ;;
  b <- rb ;;
  match broadcast_shapes (shape a) (shape b) with
  | Some s =>
      Ok (tabulate s (fun idx =>
            f (get a (bidx (shape a) idx)) (get b (bidx (shape b) idx))))
  | None => Raise ValueError
  end.

(** Element-wise unary operation. *)
Definition map1 {X Y} (f : X -> Y) (ra : result (ndarray X))
  : result (ndarray Y) :=
  a <- ra ;; Ok (mkarray (shape a) (map f (data a))).

Definition tadd := broadcast2 Qcplus.
Definition tsub := broadcast2 Qcminus.
Definition tmul := broadcast2 Qcmult.
Definition tpow (r : result (ndarray Qc)) (n : nat) := map1 (fun x => Qcpower x n) r.

Declare Scope tensor_scope.
Delimit Scope tensor_scope with tensor.
Bind Scope tensor_scope with result.
Notation "x + y" := (tadd x y) : tensor_scope.
Notation "x - y" := (tsub x y) : tensor_scope.
Notation "x * y" := (tmul x y) : tensor_scope.
Notation "x ^ n" := (tpow x n) : tensor_scope.

(** Reductions along one axis.  The reduced axis disappears from the
    shape; [lane a axis idx] lists the elements that are folded into
    position [idx] of the result. *)
Definition drop_axis (axis : nat) (s : list nat) : list nat :=
  firstn axis s ++ skipn (S axis) s.

Definition insert_at (axis t : nat) (idx : list nat) : list nat :=
  firstn axis idx ++ t :: skipn axis idx.

Definition lane {X} `{Default X} (a : ndarray X) (axis : nat) (idx : list nat)
  : list X :=
  map (fun t => get a (insert_at axis t idx)) (seq 0 (nth axis (shape a) 0)).

Definition total (l : list Qc) : Qc := fold_left Qcplus l 0%Qc.

(** [jnp.sum(a, axis)]. *)
Definition sum_axis (ra : result (ndarray Qc)) (axis : nat)
  : result (ndarray Qc) :=
  a <- ra ;;
  if axis <? length (shape a)
  then Ok (tabulate (drop_axis axis (shape a)) (fun idx => total (lane a axis idx)))
  else Raise ValueError.

Definition Qcltb (x y : Qc) : bool :=
  match (x ?= y)%Qc with Lt => true | _ => false end.

Definition Qcmax (x y : Qc) : Qc := if Qcltb x y then y else x.

Definition Qcabs (x : Qc) : Qc := if Qcltb x 0 then (- x)%Qc else x.

(** Maximum of a non-empty list, scanned from the left. *)
Definition max_list (l : list Qc) : Qc :=
  match l with
  | [] => 0%Qc
  | x :: l' => fold_left Qcmax l' x
  end.

(** Position of the maximum, scanned from the left: the running best is
    replaced only by a strictly larger element, so that of several maximal
    elements the first one is reported. *)
Fixpoint argmax_from (best : Qc) (bi i : nat) (l : list Qc) : nat :=
  match l with
  | [] => bi
  | x :: l' =>
      if Qcltb best x then argmax_from x i (S i) l'
      else argmax_from best bi (S i) l'
  end.

Definition argmax_list (l : list Qc) : nat :=
  match l with
  | [] => 0
  | x :: l' => argmax_from x 0 1 l'
  end.

(** [jnp.max(a, axis)]; an empty axis has no maximum. *)
Definition max_axis (ra : result (ndarray Qc)) (axis : nat)
  : result (ndarray Qc) :=
  a <- ra ;;
  if (axis <? length (shape a)) && (0 <? nth axis (shape a) 0)
  then Ok (tabulate (drop_axis axis (shape a)) (fun idx => max_list (lane a axis idx)))
  else Raise ValueError.

(** [jnp.argmax(a, axis)]. *)
Definition argmax_axis (ra : result (ndarray Qc)) (axis : nat)
  : result (ndarray Z) :=
  a <- ra ;;
  if (axis <? length (shape a)) && (0 <? nth axis (shape a) 0)
  then Ok (tabulate (drop_axis axis (shape a))
             (fun idx => Z.of_nat (argmax_list (lane a axis idx))))
  else Raise ValueError.

(** [jnp.max(a)] over the whole array. *)
Definition amax (ra : result (ndarray Qc)) : result Qc :=
  a <- ra ;;
  match data a with
  | [] => Raise ValueError
  | _ :: _ => Ok (max_list (data a))
  end.

(** [np.abs]. *)
Definition absolute (ra : result (ndarray Qc)) : result (ndarray Qc) :=
  map1 Qcabs ra.

(** [jnp.zeros(s)], [jnp.arange(n)], [np.identity(n)]. *)
Definition zeros {X} `{Default X} (s : list nat) : ndarray X :=
  tabulate s (fun _ => dflt).

Definition arange (n : nat) : ndarray Z :=
  mkarray [n] (map Z.of_nat (seq 0 n)).

Definition identity (n : nat) : ndarray Qc :=
  tabulate [n; n]
    (fun idx => if nth 0 idx 0 =? nth 1 idx 0 then 1%Qc else 0%Qc).

(** [jnp.where(c, x, y)] with scalar branches; [==] on integer arrays. *)
Definition where_ {X} (rc : result (ndarray bool)) (x y : X)
  : result (ndarray X) :=
  map1 (fun b : bool => if b then x else y) rc.

Definition teq := broadcast2 Z.eqb.

(** An integer array used in floating-point arithmetic is promoted. *)
Definition Z2Qc (z : Z) : Qc := Q2Qc (inject_Z z).

Definition to_float (ra : result (ndarray Z)) : result (ndarray Qc) :=
  map1 Z2Qc ra.

(** Integer-array indexing.  A negative index counts from the end; an
    index that is still out of bounds is clamped to the nearest valid
    one (the array library's rule for reads). *)
Definition jnp_index (d : nat) (z : Z) : nat :=
  let z' := if (z <? 0)%Z then (z + Z.of_nat d)%Z else z in
  Z.to_nat (Z.max 0 (Z.min z' (Z.of_nat d - 1))).

(** [a[ix]] for an array [a] of rank 1. *)
Definition take {X} `{Default X} (a : ndarray X) (rix : result (ndarray Z))
  : result (ndarray X) :=
  ix <- rix ;;
  match shape a with
  | [d] => Ok (tabulate (shape ix) (fun idx => get a [jnp_index d (get ix idx)]))
  | _ => Raise TypeError
  end.

(** [a[ix1, ix2]] for an array [a] of rank 2: the two index arrays are
    broadcast against each other. *)
Definition take2 {X} `{Default X} (a : ndarray X)
    (rix1 rix2 : result (ndarray Z)) : result (ndarray X) :=
  ix1 <- rix1 ;;
  ix2 <- rix2 ;;
  match shape a, broadcast_shapes (shape ix1) (shape ix2) with
  | [d1; d2], Some s =>
      Ok (tabulate s (fun idx =>
            get a [jnp_index d1 (get ix1 (bidx (shape ix1) idx));
                   jnp_index d2 (get ix2 (bidx (shape ix2) idx))]))
  | [_; _], None => Raise ValueError
  | _, _ => Raise TypeError
  end.

(** [M @ x] for a matrix and a vector. *)
Definition matmul (rm rx : result (ndarray Qc)) : result (ndarray Qc) :=
  m <- rm ;;
  x <- rx ;;
  match shape m, shape x with
  | [r; c], [c'] =>
      if c =? c'
      then Ok (tabulate [r] (fun idx =>
                 let i := nth 0 idx 0 in
                 total (map (fun t => Qcmult (get m [i; t]) (get x [t]))
                            (seq 0 c))))
      else Raise TypeError
  | _, _ => Raise TypeError
  end.

(** ** The model *)

Definition constants_t : Type := Qc * Qc * Qc * Qc * Qc.
Definition sizes_t : Type := nat * nat.
Definition arrays_t : Type := ndarray Qc * ndarray Qc * ndarray Qc.

(** ** The Bellman backup, the Bellman operator and the greedy policy *)

#[local] Open Scope tensor_scope.

(** B(y, z, y′) = r(y, z, y′) + β Σ_z′ v(y′, z′) Q(z, z′) for all
    (y, z, y′), as a 3D array. *)
Definition B (v : ndarray Qc) (constants : constants_t) (sizes : sizes_t)
    (arrays : arrays_t) : result (ndarray Qc) :=
  let '(β, a_0, a_1, γ, c) := constants in
  let '(y_size, z_size) := sizes in
  let '(y_grid, z_grid, Q) := arrays in
  let y := reshape y_grid [y_size; 1; 1] in
  let z := reshape z_grid [1; z_size; 1] in
  let yp := reshape y_grid [1; 1; y_size] in
  let R := (a_0 - a_1 * y + z - c) * y - γ * (yp - y) ^ 2 in
  let v := reshape v [1; 1; y_size; z_size] in
  let Q := reshape Q [1; z_size; 1; z_size] in
  let C := sum_axis (v * Q) 3 in
  R + β * C.

(** The Bellman operator. *)
Definition T (v : ndarray Qc) (constants : constants_t) (sizes : sizes_t)
    (arrays : arrays_t) : result (ndarray Qc) :=
  max_axis (B v constants sizes arrays) 2.

(** A v-greedy policy, returned as a set of indices. *)
Definition get_greedy (v : ndarray Qc) (constants : constants_t)
    (sizes : sizes_t) (arrays : arrays_t) : result (ndarray Z) :=
  argmax_axis (B v constants sizes arrays) 2.

(** ** The policy operators *)

(** The σ-policy operator, through the dense transition matrix P_σ of the
    flattened state. *)
Definition T_σ (v : ndarray Qc) (σ : ndarray Z) (constants : constants_t)
    (sizes : sizes_t) (arrays : arrays_t) : result (ndarray Qc) :=
  let '(β, a_0, a_1, γ, c) := constants in
  let '(y_size, z_size) := sizes in
  let '(y_grid, z_grid, Q) := arrays in
  (* the matrix r_σ[i, j] *)
  let y := reshape y_grid [y_size; 1] in
  let z := reshape z_grid [1; z_size] in
  let yp := take y_grid σ in
  let r_σ := (a_0 - a_1 * y + z - c) * y - γ * (yp - y) ^ 2 in
  let yp_idx := arange y_size in
  let yp_idx := reshape yp_idx [1; 1; y_size; 1] in
  let σ := reshape σ [y_size; z_size; 1; 1] in
  let A := where_ (teq σ yp_idx) 1%Z 0%Z in
  let Q := reshape Q [1; z_size; 1; z_size] in
  let P_σ := to_float A * Q in
  let n := (y_size * z_size)%nat in
  let P_σ := reshape P_σ [n; n] in
  let r_σ := reshape r_σ [n] in
  let v := reshape v [n] in
  let new_v := r_σ + matmul (β * P_σ) v in
  (* as multi-index array *)
  reshape new_v [y_size; z_size].

(** The σ-policy operator, gathering v[σ[i, j], jp] without forming P_σ. *)
Definition T_σ_2 (v : ndarray Qc) (σ : ndarray Z) (constants : constants_t)
    (sizes : sizes_t) (arrays : arrays_t) : result (ndarray Qc) :=
  let '(β, a_0, a_1, γ, c) := constants in
  let '(y_size, z_size) := sizes in
  let '(y_grid, z_grid, Q) := arrays in
  (* the matrix r_σ[i, j] *)
  let y := reshape y_grid [y_size; 1] in
  let z := reshape z_grid [1; z_size] in
  let yp := take y_grid σ in
  let r_σ := (a_0 - a_1 * y + z - c) * y - γ * (yp - y) ^ 2 in
  (* the array v[σ[i, j], jp] *)
  let zp_idx := arange z_size in
  let zp_idx := reshape zp_idx [1; 1; z_size] in
  let σ := reshape σ [y_size; z_size; 1] in
  let V := take2 v σ zp_idx in
  (* Q[j, jp] as Q[i, j, jp] *)
  let Q := reshape Q [1; z_size; z_size] in
  r_σ + β * sum_axis (V * Q) 2.

(** ** Policy evaluation *)

Section Evaluators.

(** The numeric back end.  [solve] is the dense linear solver
    ([jnp.linalg.solve]); [bicgstab] is the Krylov solver
    ([jax.scipy.sparse.linalg.bicgstab]), which is handed the operator as a
    function and returns a pair of the last iterate and a piece of
    convergence information of type [info]. *)
Variable solve : ndarray Qc -> ndarray Qc -> result (ndarray Qc).
Variable info : Type.
Variable bicgstab :
  (ndarray Qc -> result (ndarray Qc)) -> ndarray Qc -> result (ndarray Qc * info).

(** The value v_σ of policy σ, by a direct solve. *)
Definition get_value (σ : ndarray Z) (constants : constants_t)
    (sizes : sizes_t) (arrays : arrays_t) : result (ndarray Qc) :=
  let '(β, a_0, a_1, γ, c) := constants in
  let '(y_size, z_size) := sizes in
  let '(y_grid, z_grid, Q) := arrays in
  let y := reshape y_grid [y_size; 1] in
  let z := reshape z_grid [1; z_size] in
  let yp := take y_grid σ in
  let r_σ := (a_0 - a_1 * y + z - c) * y - γ * (yp - y) ^ 2 in
  let yp_idx := arange y_size in
  let yp_idx := reshape yp_idx [1; 1; y_size; 1] in
  let σ := reshape σ [y_size; z_size; 1; 1] in
  let A := where_ (teq σ yp_idx) 1%Z 0%Z in
  let Q := reshape Q [1; z_size; 1; z_size] in
  let P_σ := to_float A * Q in
  let n := (y_size * z_size)%nat in
  let P_σ := reshape P_σ [n; n] in
  let r_σ := reshape r_σ [n] in
  let v_σ := (m <- identity n - β * P_σ ;; b <- r_σ ;; solve m b) in
  (* as multi-index array *)
  reshape v_σ [y_size; z_size].

(** The linear operator v ↦ v − β P_σ v, without forming P_σ. *)
Definition A (v : ndarray Qc) (σ : ndarray Z) (constants : constants_t)
    (sizes : sizes_t) (arrays : arrays_t) : result (ndarray Qc) :=
  let '(β, a_0, a_1, γ, c) := constants in
  let '(y_size, z_size) := sizes in
  let '(y_grid, z_grid, Q) := arrays in
  let zp_idx := arange z_size in
  let zp_idx := reshape zp_idx [1; 1; z_size] in
  let σ := reshape σ [y_size; z_size; 1] in
  let V := take2 v σ zp_idx in
  let Q := reshape Q [1; z_size; z_size] in
  v - β * sum_axis (V * Q) 2.

(** The value v_σ of policy σ, by the Krylov solver: the first component
    of what the solver returns. *)
Definition get_value_2 (σ : ndarray Z) (constants : constants_t)
    (sizes : sizes_t) (arrays : arrays_t) : result (ndarray Qc) :=
  let '(β, a_0, a_1, γ, c) := constants in
  let '(y_size, z_size) := sizes in
  let '(y_grid, z_grid, Q) := arrays in
  let y := reshape y_grid [y_size; 1] in
  let z := reshape z_grid [1; z_size] in
  let yp := take y_grid σ in
  let r_σ := (a_0 - a_1 * y + z - c) * y - γ * (yp - y) ^ 2 in
  let A_map := fun v => A v σ constants sizes arrays in
  b <- r_σ ;;
  out <- bicgstab A_map b ;;
  Ok (fst out).

End Evaluators.

Arguments get_value_2 {info} bicgstab σ constants sizes arrays.

#[local] Close Scope tensor_scope.

(** ** Solvers *)

(** Integer counterparts of the array operations, for policies. *)
Definition tsub_int := broadcast2 Z.sub.

Definition absolute_int (ra : result (ndarray Z)) : result (ndarray Z) :=
  map1 Z.abs ra.

Definition max_list_int (l : list Z) : Z :=
  match l with
  | [] => 0%Z
  | x :: l' => fold_left Z.max l' x
  end.

Definition amax_int (ra : result (ndarray Z)) : result Z :=
  a <- ra ;;
  match data a with
  | [] => Raise ValueError
  | _ :: _ => Ok (max_list_int (data a))
  end.

Definition model_t : Type := constants_t * sizes_t * arrays_t.

(** The pair [sizes], as the shape that [jnp.zeros(sizes)] is given. *)
Definition shape_of (sizes : sizes_t) : list nat := [fst sizes; snd sizes].

(** A [while] loop has no bound of its own: it is unrolled [fuel] times,
    and [None] says that the loop was still running when the fuel ran
    out. *)

(** Modelled from the spec: the fixed-point driver [successive_approx] of
    module [solvers], which is imported by the program and not part of it.
    It applies the operator repeatedly until successive outputs differ by
    less than the tolerance in sup norm.  It must terminate and return the
    last iterate on non-convergence: [max_iter] is its iteration cap, whose
    value the spec leaves open. *)
Fixpoint successive_approx (max_iter : nat)
    (op : ndarray Qc -> result (ndarray Qc)) (x : ndarray Qc) (tolerance : Qc)
  : result (ndarray Qc) :=
  match max_iter with
  | 0 => Ok x
  | S k =>
      x_new <- op x ;;
      error <- amax (absolute (tsub x_new x)) ;;
      if Qcltb error tolerance then Ok x_new
      else successive_approx k op x_new tolerance
  end.

(** The exact value of a binary64 number that is finite; a tolerance is
    compared as this value with the distances of the idealised
    arithmetic. *)
Definition float_to_Qc (x : float) : Qc :=
  match Prim2SF x with
  | S754_finite s m e =>
      Q2Qc (inject_Z (if s then Z.neg m else Z.pos m) * Qpower 2 e)
  | _ => 0%Qc
  end.

(** VFI. *)
Definition value_iteration (max_iter : nat) (model : model_t) (tol : float)
  : result (ndarray Z) :=
  let '(constants, sizes, arrays) := model in
  let _T := fun v => T v constants sizes arrays in
  let vz := zeros (shape_of sizes) in
  v_star <- successive_approx max_iter _T vz (float_to_Qc tol) ;;
  get_greedy v_star constants sizes arrays.

Section Howard.

Variable info : Type.
Variable bicgstab :
  (ndarray Qc -> result (ndarray Qc)) -> ndarray Qc -> result (ndarray Qc * info).

(** One round of the Howard policy iteration routine: the new policy and
    the largest change of an entry.  The progress report of each round is
    not modelled. *)
Definition policy_iteration_step (constants : constants_t) (sizes : sizes_t)
    (arrays : arrays_t) (σ : ndarray Z) : result (ndarray Z * Z) :=
  v_σ <- get_value_2 bicgstab σ constants sizes arrays ;;
  σ_new <- get_greedy v_σ constants sizes arrays ;;
  error <- amax_int (absolute_int (tsub_int σ_new σ)) ;;
  Ok (σ_new, error).

(** The loop of the routine, entered with the current policy; it is left
    when the new policy equals the current one. *)
Fixpoint policy_iteration_loop (fuel : nat) (constants : constants_t)
    (sizes : sizes_t) (arrays : arrays_t) (σ : ndarray Z)
  : option (result (ndarray Z)) :=
  match fuel with
  | 0 => None
  | S fuel' =>
      match policy_iteration_step constants sizes arrays σ with
      | Raise e => Some (Raise e)
      | Ok (σ_new, error) =>
          if (0 <? error)%Z
          then policy_iteration_loop fuel' constants sizes arrays σ_new
          else Some (Ok σ_new)
      end
  end.

(** Howard policy iteration routine. *)
Definition policy_iteration (fuel : nat) (model : model_t)
  : option (result (ndarray Z)) :=
  let '(constants, sizes, arrays) := model in
  let σ := zeros (shape_of sizes) in
  policy_iteration_loop fuel constants sizes arrays σ.

End Howard.

Arguments policy_iteration_step {info} bicgstab constants sizes arrays σ.
Arguments policy_iteration_loop {info} bicgstab fuel constants sizes arrays σ.
Arguments policy_iteration {info} bicgstab fuel model.

(** [for _ in range(m): v = T_σ_2(v, σ, ...)]. *)
Fixpoint iterate_T_σ_2 (m : nat) (v : ndarray Qc) (σ : ndarray Z)
    (constants : constants_t) (sizes : sizes_t) (arrays : arrays_t)
  : result (ndarray Qc) :=
  match m with
  | 0 => Ok v
  | S m' =>
      v' <- T_σ_2 v σ constants sizes arrays ;;
      iterate_T_σ_2 m' v' σ constants sizes arrays
  end.

(** The loop of the OPI routine, entered with the current value. *)
Fixpoint optimistic_policy_iteration_loop (fuel : nat)
    (constants : constants_t) (sizes : sizes_t) (arrays : arrays_t)
    (tol : Qc) (m : nat) (v : ndarray Qc) : option (result (ndarray Qc)) :=
  match fuel with
  | 0 => None
  | S fuel' =>
      let last_v := v in
      match (σ <- get_greedy v constants sizes arrays ;;
             v <- iterate_T_σ_2 m v σ constants sizes arrays ;;
             error <- amax (absolute (tsub v last_v)) ;;
             Ok (v, error)) with
      | Raise e => Some (Raise e)
      | Ok (v, error) =>
          if Qcltb tol error
          then optimistic_policy_iteration_loop fuel' constants sizes arrays
                 tol m v
          else Some (Ok v)
      end
  end.

(** The OPI routine.  [error = tol + 1] and the first test [error > tol]
    are evaluated on the binary64 tolerance, where a large tolerance
    absorbs the 1 and the loop is not entered; from then on the distance
    of the idealised arithmetic is compared with the value of the
    tolerance. *)
Definition optimistic_policy_iteration (fuel : nat) (model : model_t)
    (tol : float) (m : nat) : option (result (ndarray Z)) :=
  let '(constants, sizes, arrays) := model in
  let v := zeros (shape_of sizes) in
  let error := PrimFloat.add tol 1 in
  if PrimFloat.ltb tol error
  then match optimistic_policy_iteration_loop fuel constants sizes arrays
               (float_to_Qc tol) m v with
       | None => None
       | Some r => Some (v <- r ;; get_greedy v constants sizes arrays)
       end
  else Some (get_greedy v constants sizes arrays).

(** ** Vocabulary of the statements *)

(** [a] is an array of shape [s]: its buffer has one element per index. *)
Definition has_shape {X} (a : ndarray X) (s : list nat) : Prop :=
  shape a = s /\ length (data a) = size s.

(** The computation [r] returns an array of shape [s] whose element at
    every index [idx] in bounds is [f idx]. *)
Definition denotes {X} `{Default X} (r : result (ndarray X)) (s : list nat)
    (f : list nat -> X) : Prop :=
  exists a, r = Ok a /\ has_shape a s /\
            forall idx, in_bounds s idx -> get a idx = f idx.

(** The reward r(y_i, z_j, y_k) and the expected continuation value
    Σ_jp v[k, jp] Q[j, jp], written with plain indices. *)
Definition reward (constants : constants_t) (arrays : arrays_t) (i j k : nat)
  : Qc :=
  let '(β, a_0, a_1, γ, c) := constants in
  let '(y_grid, z_grid, Q) := arrays in
  let y := get y_grid [i] in
  let z := get z_grid [j] in
  let yp := get y_grid [k] in
  ((a_0 - a_1 * y + z - c) * y - γ * (yp - y) ^ 2)%Qc.

Definition continuation (v Q : ndarray Qc) (z_size k j : nat) : Qc :=
  total (map (fun jp => Qcmult (get v [k; jp]) (get Q [j; jp])) (seq 0 z_size)).

(** The backup of taking action [k] in state [(i, j)]. *)
Definition backup (v : ndarray Qc) (constants : constants_t)
    (sizes : sizes_t) (arrays : arrays_t) (i j k : nat) : Qc :=
  let '(β, _, _, _, _) := constants in
  let '(_, z_size) := sizes in
  let '(_, _, Q) := arrays in
  (reward constants arrays i j k + β * continuation v Q z_size k j)%Qc.

(** A policy for [sizes]: an integer array of shape y_size × z_size whose
    entries are indices of the grid of y. *)
Definition valid_policy (sizes : sizes_t) (σ : ndarray Z) : Prop :=
  has_shape σ (shape_of sizes) /\
  Forall (fun k => (0 <= k < Z.of_nat (fst sizes))%Z) (data σ).

(** The model is well formed: the grids and the kernel have the declared
    shapes. *)
Definition model_shapes (sizes : sizes_t) (arrays : arrays_t) : Prop :=
  let '(y_size, z_size) := sizes in
  let '(y_grid, z_grid, Q) := arrays in
  has_shape y_grid [y_size] /\ has_shape z_grid [z_size] /\
  has_shape Q [z_size; z_size].

(** The action of policy σ in state (i, j). *)
Definition act (σ : ndarray Z) (i j : nat) : nat := Z.to_nat (get σ [i; j]).

(** Whenever the computation [r] returns an array, its shape is [s]. *)
Definition ok_shape {X} (r : result (ndarray X)) (s : list nat) : Prop :=
  forall a, r = Ok a -> shape a = s.

(** The sup-norm distance max |v1 − v2| of two arrays, as the loops of
    the solvers compute it. *)
Definition sup_dist (v1 v2 : ndarray Qc) : result Qc :=
  amax (absolute (tsub v1 v2)).

(** The kernel [Q] is row-stochastic: its entries are non-negative and
    every row sums to 1. *)
Definition row_stochastic (z_size : nat) (Q : ndarray Qc) : Prop :=
  forall j, j < z_size ->
    (forall jp, jp < z_size -> (0 <= get Q [j; jp])%Qc) /\
    total (map (fun jp => get Q [j; jp]) (seq 0 z_size)) = 1%Qc.



(** The matrix r_σ[i, j] of the rewards of policy σ. *)
Definition reward_matrix (σ : ndarray Z) (constants : constants_t)
    (sizes : sizes_t) (arrays : arrays_t) : ndarray Qc :=
  tabulate (shape_of sizes)
    (fun idx =>
       let i := nth 0 idx 0 in let j := nth 1 idx 0 in
       reward constants arrays i j (act σ i j)).

(** The policy with which round [t] of the loop of the Howard routine is
    entered when the loop starts from [σ], as long as the loop is still
    running. *)
Fixpoint policy_at {info}
    (bicgstab : (ndarray Qc -> result (ndarray Qc)) -> ndarray Qc ->
                result (ndarray Qc * info))
    (t : nat) (constants : constants_t) (sizes : sizes_t) (arrays : arrays_t)
    (σ : ndarray Z) : option (ndarray Z) :=
  match t with
  | 0 => Some σ
  | S t' =>
      match policy_iteration_step bicgstab constants sizes arrays σ with
      | Ok (σ_new, error) =>
          if (0 <? error)%Z
          then policy_at bicgstab t' constants sizes arrays σ_new
          else None
      | Raise _ => None
      end
  end.

(** The transition matrix P_σ of the flattened state (i, j) ↦ i z_size + j
    under policy σ: from (i, j) the chain moves to (σ[i, j], jp) with
    probability Q[j, jp].  [system_matrix] is I − β P_σ. *)
Definition policy_matrix (σ : ndarray Z) (sizes : sizes_t) (arrays : arrays_t)
  : ndarray Qc :=
  let '(y_size, z_size) := sizes in
  let '(_, _, Q) := arrays in
  let n := y_size * z_size in
  tabulate [n; n]
    (fun idx =>
       let r := nth 0 idx 0 in let c := nth 1 idx 0 in
       if c / z_size =? act σ (r / z_size) (r mod z_size)
       then get Q [r mod z_size; c mod z_size] else 0%Qc).

Definition system_matrix (σ : ndarray Z) (constants : constants_t)
    (sizes : sizes_t) (arrays : arrays_t) : ndarray Qc :=
  let '(β, _, _, _, _) := constants in
  let n := fst sizes * snd sizes in
  tabulate [n; n]
    (fun idx =>
       let r := nth 0 idx 0 in let c := nth 1 idx 0 in
       ((if r =? c then 1 else 0) - β * get (policy_matrix σ sizes arrays) [r; c])%Qc).

(** The Bellman policy equation v = r_σ + β P_σ v, state by state. *)
Definition policy_equation (v : ndarray Qc) (σ : ndarray Z)
    (constants : constants_t) (sizes : sizes_t) (arrays : arrays_t) : Prop :=
  forall i j, i < fst sizes -> j < snd sizes ->
    get v [i; j] = backup v constants sizes arrays i j (act σ i j).

(** The contract of an exact dense solver on systems of [n] equations: a
    system whose matrix has a trivial kernel gets a solution. *)
Definition nonsingular (n : nat) (M : ndarray Qc) : Prop :=
  forall x, has_shape x [n] -> matmul M x = Ok (zeros [n]) -> x = zeros [n].

Definition exact_solver
    (solve : ndarray Qc -> ndarray Qc -> result (ndarray Qc)) (n : nat) : Prop :=
  forall M b, has_shape M [n; n] -> has_shape b [n] -> nonsingular n M ->
    exists x, solve M b = Ok x /\ has_shape x [n] /\ matmul M x = Ok b.

(** ** Concrete models *)

Definition q (n : Z) (d : positive) : Qc := Q2Qc (n # d).

(** Two states of y, one of z: β = 1/2, a_0 = 3, a_1 = 0, γ = 1, c = 1. *)
Definition small_constants : constants_t := (q 1 2, q 3 1, q 0 1, q 1 1, q 1 1).
Definition small_sizes : sizes_t := (2, 1).
Definition small_y_grid : ndarray Qc := mkarray [2] [q 0 1; q 1 1].
Definition small_z_grid : ndarray Qc := mkarray [1] [q 0 1].
Definition small_Q : ndarray Qc := mkarray [1; 1] [q 1 1].
Definition small_arrays : arrays_t := (small_y_grid, small_z_grid, small_Q).
Definition small_model : model_t := (small_constants, small_sizes, small_arrays).

(** An exact solver for systems of two equations, by Cramer's rule; it
    stands for the dense solver in the examples. *)
Definition solve_2x2 (M b : ndarray Qc) : result (ndarray Qc) :=
  let m00 := get M [0; 0] in let m01 := get M [0; 1] in
  let m10 := get M [1; 0] in let m11 := get M [1; 1] in
  let b0 := get b [0] in let b1 := get b [1] in
  let det := (m00 * m11 - m01 * m10)%Qc in
  Ok (mkarray [2] [((b0 * m11 - m01 * b1) / det)%Qc;
                   ((m00 * b1 - b0 * m10) / det)%Qc]).

(** A value function and a policy of the small model. *)
Definition small_v : ndarray Qc := mkarray [2; 1] [q 0 1; q 2 1].
Definition small_σ : ndarray Z := mkarray [2; 1] [0; 1]%Z.

(** An exact matrix-free solver for two unknowns, for the examples: the
    two columns of the operator are read off the unit vectors, and the
    system is solved by Cramer's rule. *)
Definition exact_krylov_2 (A_map : ndarray Qc -> result (ndarray Qc))
    (b : ndarray Qc) : result (ndarray Qc * bool) :=
  c0 <- A_map (mkarray (shape b) [1%Qc; 0%Qc]) ;;
  c1 <- A_map (mkarray (shape b) [0%Qc; 1%Qc]) ;;
  x <- solve_2x2 (mkarray [2; 2] [nth 0 (data c0) 0%Qc; nth 0 (data c1) 0%Qc;
                                  nth 1 (data c0) 0%Qc; nth 1 (data c1) 0%Qc])
                 (mkarray [2] (data b)) ;;
  Ok (mkarray (shape b) (data x), true).

(** The policies that the Howard routine visits in the small model are
    the zero policy, [small_σ] and [small_σ_opt], which it returns; their
    values are [small_v_0], [small_v_σ] and [small_v_opt]. *)
Definition small_v_0 : ndarray Qc := mkarray [2; 1] [q 0 1; q 1 1].
Definition small_v_σ : ndarray Qc := mkarray [2; 1] [q 0 1; q 4 1].
Definition small_σ_opt : ndarray Z := mkarray [2; 1] [1; 1]%Z.
Definition small_v_opt : ndarray Qc := mkarray [2; 1] [q 1 1; q 4 1].

(** [x] is within [ε] of [v], element by element. *)
Definition within (ε : Qc) (x v : ndarray Qc) : Prop :=
  has_shape x (shape v) /\
  forall idx, in_bounds (shape v) idx -> (Qcabs (get x idx - get v idx) <= ε)%Qc.

(** A Krylov solver that evaluates the three policies visited in the small
    model within 1/8 of their values. *)
Definition accurate_small {info : Type}
    (bicgstab : (ndarray Qc -> result (ndarray Qc)) -> ndarray Qc ->
                result (ndarray Qc * info)) : Prop :=
  forall σ v,
    In (σ, v) [(zeros [2; 1], small_v_0); (small_σ, small_v_σ);
               (small_σ_opt, small_v_opt)] ->
    exists x,
      get_value_2 bicgstab σ small_constants small_sizes small_arrays = Ok x /\
      within (q 1 8) x v.

(** The zero value function of the small model. *)
Definition small_vz : ndarray Qc := zeros [2; 1].

(** A model with an empty grid of y, and its only value function. *)
Definition empty_y_grid : ndarray Qc := mkarray [0] [].
Definition empty_sizes : sizes_t := (0, 1).
Definition empty_arrays : arrays_t := (empty_y_grid, small_z_grid, small_Q).
Definition empty_v : ndarray Qc := mkarray [0; 1] [].

(** The constants of the small model with the discount factor zero. *)
Definition myopic_constants : constants_t := (0%Qc, q 3 1, q 0 1, q 1 1, q 1 1).

(** The small model with the discount factor 3/4. *)
Definition patient_constants : constants_t := (q 3 4, q 3 1, q 0 1, q 1 1, q 1 1).
Definition patient_model : model_t := (patient_constants, small_sizes, small_arrays).

(** * The operators on binary64 numbers

    The same operators once more, with the arithmetic of the program:
    every element is a binary64 number and every operation rounds.  The
    definitions follow the source line by line, as the ones above do; they
    serve to evaluate the program at concrete inputs.  A sum along an axis
    adds from the left, starting at 0; for the axes of at most two
    elements of the examples every order of summation gives the same
    number.  Comparisons are those of finite numbers. *)
Module F64.

#[global] Instance Default_float : Default float := 0%float.

Definition scalar (x : float) : result (ndarray float) := Ok (mkarray [] [x]).
Coercion scalar : float >-> result.

(** [x ** n] for a literal exponent is a product. *)
Fixpoint fpower (x : float) (n : nat) : float :=
  match n with
  | 0 => 1%float
  | 1 => x
  | S k => PrimFloat.mul x (fpower x k)
  end.

Definition tadd := broadcast2 PrimFloat.add.
Definition tsub := broadcast2 PrimFloat.sub.
Definition tmul := broadcast2 PrimFloat.mul.
Definition tpow (r : result (ndarray float)) (n : nat) :=
  map1 (fun x => fpower x n) r.

Declare Scope f64_scope.
Delimit Scope f64_scope with f64.
Arguments tadd (_ _)%_f64.
Arguments tsub (_ _)%_f64.
Arguments tmul (_ _)%_f64.
Arguments tpow _%_f64 _%_nat.
Notation "x + y" := (tadd x y) : f64_scope.
Notation "x - y" := (tsub x y) : f64_scope.
Notation "x * y" := (tmul x y) : f64_scope.
Notation "x ^ n" := (tpow x n) : f64_scope.

Definition total (l : list float) : float := fold_left PrimFloat.add l 0%float.

(** [jnp.sum(a, axis)]. *)
Definition sum_axis (ra : result (ndarray float)) (axis : nat)
  : result (ndarray float) :=
  a <- ra ;;
  if axis <? length (shape a)
  then Ok (tabulate (drop_axis axis (shape a)) (fun idx => total (lane a axis idx)))
  else Raise ValueError.

Arguments sum_axis _%_f64 _%_nat.

Definition fmax (x y : float) : float := if PrimFloat.ltb x y then y else x.

Definition max_list (l : list float) : float :=
  match l with
  | [] => 0%float
  | x :: l' => fold_left fmax l' x
  end.

Fixpoint argmax_from (best : float) (bi i : nat) (l : list float) : nat :=
  match l with
  | [] => bi
  | x :: l' =>
      if PrimFloat.ltb best x then argmax_from x i (S i) l'
      else argmax_from best bi (S i) l'
  end.

Definition argmax_list (l : list float) : nat :=
  match l with
  | [] => 0
  | x :: l' => argmax_from x 0 1 l'
  end.

(** [jnp.max(a, axis)], [jnp.argmax(a, axis)], [jnp.max(a)], [np.abs]. *)
Definition max_axis (ra : result (ndarray float)) (axis : nat)
  : result (ndarray float) :=
  a <- ra ;;
  if (axis <? length (shape a)) && (0 <? nth axis (shape a) 0)
  then Ok (tabulate (drop_axis axis (shape a)) (fun idx => max_list (lane a axis idx)))
  else Raise ValueError.

Definition argmax_axis (ra : result (ndarray float)) (axis : nat)
  : result (ndarray Z) :=
  a <- ra ;;
  if (axis <? length (shape a)) && (0 <? nth axis (shape a) 0)
  then Ok (tabulate (drop_axis axis (shape a))
             (fun idx => Z.of_nat (argmax_list (lane a axis idx))))
  else Raise ValueError.

Definition amax (ra : result (ndarray float)) : result float :=
  a <- ra ;;
  match data a with
  | [] => Raise ValueError
  | _ :: _ => Ok (max_list (data a))
  end.

Definition absolute (ra : result (ndarray float)) : result (ndarray float) :=
  map1 PrimFloat.abs ra.

(** The indicator array of [jnp.where(c, 1, 0)], promoted to binary64. *)
Definition Z2float (z : Z) : float :=
  if (z <? 0)%Z then PrimFloat.opp (PrimFloat.of_uint63 (Uint63.of_Z (- z)))
  else PrimFloat.of_uint63 (Uint63.of_Z z).

Definition to_float (ra : result (ndarray Z)) : result (ndarray float) :=
  map1 Z2float ra.

(** [M @ x] for a matrix and a vector. *)
Definition matmul (rm rx : result (ndarray float)) : result (ndarray float) :=
  m <- rm ;;
  x <- rx ;;
  match shape m, shape x with
  | [r; c], [c'] =>
      if c =? c'
      then Ok (tabulate [r] (fun idx =>
                 let i := nth 0 idx 0 in
                 total (map (fun t => PrimFloat.mul (get m [i; t]) (get x [t]))
                            (seq 0 c))))
      else Raise TypeError
  | _, _ => Raise TypeError
  end.

Arguments matmul (_ _)%_f64.

Definition constants_t : Type := float * float * float * float * float.
Definition arrays_t : Type := ndarray float * ndarray float * ndarray float.

Definition B (v : ndarray float) (constants : constants_t) (sizes : sizes_t)
    (arrays : arrays_t) : result (ndarray float) :=
  let '(β, a_0, a_1, γ, c) := constants in
  let '(y_size, z_size) := sizes in
  let '(y_grid, z_grid, Q) := arrays in
  let y := reshape y_grid [y_size; 1; 1] in
  let z := reshape z_grid [1; z_size; 1] in
  let yp := reshape y_grid [1; 1; y_size] in
  let R := ((a_0 - a_1 * y + z - c) * y - γ * (yp - y) ^ 2)%f64 in
  let v := reshape v [1; 1; y_size; z_size] in
  let Q := reshape Q [1; z_size; 1; z_size] in
  let C := sum_axis (v * Q)%f64 3 in
  (R + β * C)%f64.

Definition T (v : ndarray float) (constants : constants_t) (sizes : sizes_t)
    (arrays : arrays_t) : result (ndarray float) :=
  max_axis (B v constants sizes arrays) 2.

Definition get_greedy (v : ndarray float) (constants : constants_t)
    (sizes : sizes_t) (arrays : arrays_t) : result (ndarray Z) :=
  argmax_axis (B v constants sizes arrays) 2.

Definition T_σ (v : ndarray float) (σ : ndarray Z) (constants : constants_t)
    (sizes : sizes_t) (arrays : arrays_t) : result (ndarray float) :=
  let '(β, a_0, a_1, γ, c) := constants in
  let '(y_size, z_size) := sizes in
  let '(y_grid, z_grid, Q) := arrays in
  (* the matrix r_σ[i, j] *)
  let y := reshape y_grid [y_size; 1] in
  let z := reshape z_grid [1; z_size] in
  let yp := take y_grid σ in
  let r_σ := ((a_0 - a_1 * y + z - c) * y - γ * (yp - y) ^ 2)%f64 in
  let yp_idx := arange y_size in
  let yp_idx := reshape yp_idx [1; 1; y_size; 1] in
  let σ := reshape σ [y_size; z_size; 1; 1] in
  let A := where_ (teq σ yp_idx) 1%Z 0%Z in
  let Q := reshape Q [1; z_size; 1; z_size] in
  let P_σ := (to_float A * Q)%f64 in
  let n := (y_size * z_size)%nat in
  let P_σ := reshape P_σ [n; n] in
  let r_σ := reshape r_σ [n] in
  let v := reshape v [n] in
  let new_v := (r_σ + matmul (β * P_σ) v)%f64 in
  (* as multi-index array *)
  reshape new_v [y_size; z_size].

Definition T_σ_2 (v : ndarray float) (σ : ndarray Z) (constants : constants_t)
    (sizes : sizes_t) (arrays : arrays_t) : result (ndarray float) :=
  let '(β, a_0, a_1, γ, c) := constants in
  let '(y_size, z_size) := sizes in
  let '(y_grid, z_grid, Q) := arrays in
  (* the matrix r_σ[i, j] *)
  let y := reshape y_grid [y_size; 1] in
  let z := reshape z_grid [1; z_size] in
  let yp := take y_grid σ in
  let r_σ := ((a_0 - a_1 * y + z - c) * y - γ * (yp - y) ^ 2)%f64 in
  (* the array v[σ[i, j], jp] *)
  let zp_idx := arange z_size in
  let zp_idx := reshape zp_idx [1; 1; z_size] in
  let σ := reshape σ [y_size; z_size; 1] in
  let V := take2 v σ zp_idx in
  (* Q[j, jp] as Q[i, j, jp] *)
  let Q := reshape Q [1; z_size; z_size] in
  (r_σ + β * sum_axis (V * Q) 2)%f64.

(** The sup-norm distance of two arrays. *)
Definition sup_dist (v1 v2 : ndarray float) : result float :=
  amax (absolute (tsub v1 v2)).

End F64.

(** ** Inputs at which rounding shows *)

(** The binary64 number nearest to 0.95, and the successor of 1. *)
Definition f095 : float := 0x1.e666666666666p-1%float.

(** One state of y (y = 0, so that every reward is 0), two of z, and a
    kernel with the rows (1/4, 3/4); the discount is 0.95. *)
Definition rounding_constants : F64.constants_t :=
  (f095, 0%float, 0%float, 0%float, 0%float).
Definition rounding_sizes : sizes_t := (1, 2).
Definition rounding_arrays : F64.arrays_t :=
  (mkarray [1] [0%float], mkarray [2] [0%float; 0%float],
   mkarray [2; 2] [0.25%float; 0.75%float; 0.25%float; 0.75%float]).
Definition rounding_v : ndarray float := mkarray [1; 2] [0%float; 5%float].
Definition rounding_σ : ndarray Z := mkarray [1; 2] [0; 0]%Z.


(** * Properties of the array model *)

Section Indexing.

Lemma length_flat_map_uniform {X} (g : nat -> list X) (m : nat) (l : list nat) :
  (forall i, length (g i) = m) -> length (flat_map g l) = length l * m.
Proof.
  intros Hg. induction l as [|x l IH]; simpl; [reflexivity|].
  rewrite length_app, Hg, IH. reflexivity.
Qed.

Lemma length_indices (s : list nat) : length (indices s) = size s.
Proof.
  induction s as [|d s IH]; simpl; [reflexivity|].
  rewrite length_flat_map_uniform with (m := size s).
  - now rewrite length_seq.
  - intros i. now rewrite length_map.
Qed.

Lemma nth_flat_map_uniform {X} (g : nat -> list X) (m : nat) (x0 : X) :
  (forall i, length (g i) = m) ->
  forall d a i r, i < d -> r < m ->
  nth (i * m + r) (flat_map g (seq a d)) x0 = nth r (g (a + i)) x0.
Proof.
  intros Hg. induction d as [|d IH]; intros a i r Hi Hr; [lia|].
  simpl. destruct i as [|i].
  - simpl. rewrite app_nth1 by (rewrite Hg; exact Hr).
    now rewrite Nat.add_0_r.
  - rewrite app_nth2 by (rewrite Hg; simpl; lia).
    rewrite Hg. replace (S i * m + r - m) with (i * m + r) by (simpl; lia).
    rewrite IH by lia. f_equal. f_equal. lia.
Qed.

Lemma ravel_lt (s idx : list nat) : in_bounds s idx -> ravel s idx < size s.
Proof.
  unfold in_bounds. intros H. induction H as [|i d idx s Hi _ IH]; simpl; [lia|].
  nia.
Qed.

Lemma nth_indices (s idx : list nat) (d0 : list nat) :
  in_bounds s idx -> nth (ravel s idx) (indices s) d0 = idx.
Proof.
  unfold in_bounds. intros H.
  induction H as [|i d idx s Hi Hb IH]; simpl; [reflexivity|].
  rewrite nth_flat_map_uniform with (m := size s).
  - simpl. rewrite nth_indep with (d' := i :: d0).
    + rewrite map_nth. now rewrite IH.
    + rewrite length_map, length_indices. now apply ravel_lt.
  - intros k. now rewrite length_map, length_indices.
  - exact Hi.
  - now apply ravel_lt.
Qed.

Lemma in_indices (s idx : list nat) : In idx (indices s) -> in_bounds s idx.
Proof.
  unfold in_bounds. revert idx.
  induction s as [|d s IH]; simpl; intros idx H.
  - destruct H as [<-|[]]. constructor.
  - apply in_flat_map in H. destruct H as (i & Hi & H).
    apply in_map_iff in H. destruct H as (idx' & <- & H).
    apply in_seq in Hi. constructor; [lia|]. now apply IH.
Qed.

Lemma get_tabulate {X} `{Default X} (s : list nat) (f : list nat -> X) idx :
  in_bounds s idx -> get (tabulate s f) idx = f idx.
Proof.
  intros Hb. unfold get, tabulate. simpl.
  rewrite nth_indep with (d' := f []).
  - rewrite map_nth. now rewrite nth_indices.
  - rewrite length_map, length_indices. now apply ravel_lt.
Qed.


Lemma unravel_in_bounds (s : list nat) :
  forall n, n < size s -> in_bounds s (unravel s n).
Proof.
  unfold in_bounds. induction s as [|d s IH]; simpl; intros n Hn.
  - constructor.
  - assert (0 < size s) by (destruct (size s); lia).
    constructor.
    + apply Nat.Div0.div_lt_upper_bound. lia.
    + apply IH. now apply Nat.mod_upper_bound; lia.
Qed.

Lemma ravel_unravel (s : list nat) :
  forall n, n < size s -> ravel s (unravel s n) = n.
Proof.
  induction s as [|d s IH]; simpl; intros n Hn.
  - lia.
  - assert (0 < size s) by (destruct (size s); lia).
    rewrite IH by (apply Nat.mod_upper_bound; lia).
    rewrite (Nat.div_mod_eq n (size s)) at 3. lia.
Qed.

Lemma unravel_ravel_eq (s s' idx idx' : list nat) :
  in_bounds s idx -> ravel s idx = ravel s' idx' ->
  unravel s (ravel s' idx') = idx.
Proof. intros Hb <-. revert Hb. revert s idx. 
  unfold in_bounds. intros s idx H.
  induction H as [|i d idx s Hi Hb IH]; simpl; [reflexivity|].
  pose proof (ravel_lt _ _ Hb) as Hlt.
  rewrite Nat.div_add_l by lia. rewrite Nat.div_small by exact Hlt.
  rewrite Nat.add_0_r. f_equal.
  rewrite Nat.add_comm, Nat.Div0.mod_add. rewrite Nat.mod_small by exact Hlt.
  exact IH.
Qed.

Lemma unravel_ravel (s idx : list nat) :
  in_bounds s idx -> unravel s (ravel s idx) = idx.
Proof. intros Hb. now apply unravel_ravel_eq. Qed.

End Indexing.

(** ** What each array operation returns *)

Section Denotations.

Context {X : Type} `{Default X}.

Lemma denotes_ext (r : result (ndarray X)) s f g :
  (forall idx, in_bounds s idx -> f idx = g idx) ->
  denotes r s f -> denotes r s g.
Proof.
  intros Hfg (a & -> & Hs & Hget). exists a. repeat split; try apply Hs.
  intros idx Hb. rewrite Hget by exact Hb. now apply Hfg.
Qed.

Lemma denotes_conv (r : result (ndarray X)) s s' f g :
  denotes r s f -> s = s' ->
  (forall idx, in_bounds s' idx -> f idx = g idx) ->
  denotes r s' g.
Proof. intros Hd <- Hfg. now apply denotes_ext with (f := f). Qed.

Lemma denotes_array (a : ndarray X) s :
  has_shape a s -> denotes (ok_array a) s (get a).
Proof. intros Hs. exists a. repeat split; try apply Hs. Qed.

Lemma has_shape_tabulate s (f : list nat -> X) : has_shape (tabulate s f) s.
Proof. split; [reflexivity|]. simpl. now rewrite length_map, length_indices. Qed.

Lemma denotes_tabulate s (f : list nat -> X) :
  denotes (Ok (tabulate s f)) s f.
Proof.
  exists (tabulate s f). repeat split; try apply has_shape_tabulate.
  intros idx Hb. now apply get_tabulate.
Qed.

(** Two computations that return the same shape and the same elements
    return the same array. *)
Lemma denotes_inj (r r' : result (ndarray X)) s f :
  denotes r s f -> denotes r' s f -> r = r'.
Proof.
  intros (a & -> & (Hs & Hl) & Hget) (a' & -> & (Hs' & Hl') & Hget').
  f_equal. destruct a as [sa da], a' as [sa' da']. simpl in *. subst sa sa'.
  f_equal. apply nth_ext with (d := dflt) (d' := dflt); [congruence|].
  intros n Hn. rewrite Hl in Hn.
  specialize (Hget _ (unravel_in_bounds s _ Hn)).
  specialize (Hget' _ (unravel_in_bounds s _ Hn)).
  unfold get in Hget, Hget'. simpl in Hget, Hget'.
  rewrite ravel_unravel in Hget, Hget' by exact Hn. congruence.
Qed.

(** Reshaping reads the same buffer through another shape: [h] sends an
    index of the new shape to the index of the old one at the same
    offset. *)
Lemma denotes_reshape (r : result (ndarray X)) s f s' (h : list nat -> list nat) :
  denotes r s f ->
  size s = size s' ->
  (forall idx, in_bounds s' idx ->
     in_bounds s (h idx) /\ ravel s (h idx) = ravel s' idx) ->
  denotes (reshape r s') s' (fun idx => f (h idx)).
Proof.
  intros (a & -> & (Hs & Hl) & Hget) Hsz Hh. unfold reshape. simpl.
  rewrite Hs, Hsz, Nat.eqb_refl.
  eexists. split; [reflexivity|]. split; [split; simpl; congruence|].
  intros idx Hb. destruct (Hh idx Hb) as [Hb' Hr].
  rewrite <- (Hget _ Hb'). unfold get. simpl. now rewrite Hs, Hr.
Qed.

Lemma denotes_reshape_unravel (r : result (ndarray X)) s f s' :
  denotes r s f ->
  size s = size s' ->
  denotes (reshape r s') s' (fun idx => f (unravel s (ravel s' idx))).
Proof.
  intros Hr Hsz. apply (denotes_reshape r s f s' (fun idx => unravel s (ravel s' idx)));
    try assumption.
  intros idx Hb. pose proof (ravel_lt _ _ Hb) as Hlt. rewrite <- Hsz in Hlt.
  split; [now apply unravel_in_bounds | now apply ravel_unravel].
Qed.

Lemma denotes_map1 {Y} `{Default Y} (g : X -> Y) (r : result (ndarray X)) s f :
  denotes r s f -> denotes (map1 g r) s (fun idx => g (f idx)).
Proof.
  intros (a & -> & (Hs & Hl) & Hget). unfold map1. simpl.
  eexists. split; [reflexivity|]. split.
  - split; simpl; [exact Hs | now rewrite length_map].
  - intros idx Hb. rewrite <- (Hget _ Hb). unfold get. simpl.
    rewrite nth_indep with (d' := g dflt).
    + now rewrite map_nth.
    + rewrite length_map, Hl, <- Hs. rewrite Hs. now apply ravel_lt.
Qed.

End Denotations.

Section Broadcasting.

Lemma in_bounds_length (s idx : list nat) : in_bounds s idx -> length idx = length s.
Proof. unfold in_bounds. induction 1; simpl; congruence. Qed.

Lemma zip_bdim_length (p1 p2 s : list nat) :
  zip_bdim p1 p2 = Some s -> length p1 = length s /\ length p2 = length s.
Proof.
  revert p2 s. induction p1 as [|d1 p1 IH]; intros [|d2 p2] s; simpl; try discriminate.
  - intros [= <-]. split; reflexivity.
  - destruct (bdim d1 d2); [|discriminate].
    destruct (zip_bdim p1 p2) as [s'|] eqn:E; [|discriminate].
    intros [= <-]. destruct (IH _ _ E). simpl. split; congruence.
Qed.

Lemma bdim_clip1 (d1 d2 d i : nat) :
  bdim d1 d2 = Some d -> i < d -> clip1 d1 i < d1 /\ clip1 d2 i < d2.
Proof.
  unfold bdim, clip1. intros Hd Hi.
  destruct (Nat.eqb_spec d1 d2); [injection Hd as <-|].
  - subst d2. destruct (Nat.eqb_spec d1 1); lia.
  - destruct (Nat.eqb_spec d1 1); [injection Hd as <-|].
    + destruct (Nat.eqb_spec d2 1); lia.
    + destruct (Nat.eqb_spec d2 1); [injection Hd as <-|discriminate]. lia.
Qed.

Lemma zip_bdim_clip (p1 p2 s idx : list nat) :
  zip_bdim p1 p2 = Some s -> in_bounds s idx ->
  in_bounds p1 (clip p1 idx) /\ in_bounds p2 (clip p2 idx).
Proof.
  unfold in_bounds. intros Hz Hb. revert p1 p2 Hz.
  induction Hb as [|i d idx s Hi Hb IH]; intros [|d1 p1] [|d2 p2]; simpl;
    try discriminate.
  - intros _. split; constructor.
  - destruct (bdim d1 d2); [destruct (zip_bdim p1 p2)|]; discriminate.
  - destruct (bdim d1 d2) as [d'|] eqn:Ed; [|discriminate].
    destruct (zip_bdim p1 p2) as [s'|] eqn:E; [|discriminate].
    intros [= -> ->]. destruct (IH _ _ E) as [H1 H2].
    destruct (bdim_clip1 _ _ _ i Ed Hi). split; constructor; assumption.
Qed.

Lemma in_bounds_skipn_pad (k : nat) (s idx : list nat) :
  in_bounds (repeat 1 k ++ s) idx -> in_bounds s (skipn k idx).
Proof.
  unfold in_bounds. revert idx. induction k as [|k IH]; intros idx Hb; simpl in *.
  - exact Hb.
  - inversion Hb; subst. now apply IH.
Qed.

Lemma bidx_in_bounds (s1 s2 s idx : list nat) :
  broadcast_shapes s1 s2 = Some s -> in_bounds s idx ->
  in_bounds s1 (bidx s1 idx) /\ in_bounds s2 (bidx s2 idx).
Proof.
  unfold broadcast_shapes, bidx. intros Hz Hb.
  destruct (zip_bdim_length _ _ _ Hz) as [L1 L2].
  rewrite (in_bounds_length _ _ Hb).
  unfold pad in L1, L2. rewrite length_app, repeat_length in L1, L2.
  destruct (zip_bdim_clip _ _ _ _ Hz Hb) as [H1 H2].
  set (n := Nat.max (length s1) (length s2)) in *.
  assert (length s = n) by lia.
  rewrite H. split; apply in_bounds_skipn_pad; assumption.
Qed.

Lemma denotes_broadcast2 {X Y W} `{Default X} `{Default Y} `{Default W}
    (g : X -> Y -> W) ra rb s1 s2 s f1 f2 :
  denotes ra s1 f1 -> denotes rb s2 f2 ->
  broadcast_shapes s1 s2 = Some s ->
  denotes (broadcast2 g ra rb) s
          (fun idx => g (f1 (bidx s1 idx)) (f2 (bidx s2 idx))).
Proof.
  intros (a & -> & (Hs1 & _) & Hget1) (b & -> & (Hs2 & _) & Hget2) Hbs.
  unfold broadcast2. simpl. rewrite Hs1, Hs2, Hbs.
  eapply denotes_ext; [|apply denotes_tabulate].
  intros idx Hb. simpl. destruct (bidx_in_bounds _ _ _ _ Hbs Hb) as [H1' H2'].
  now rewrite Hget1, Hget2.
Qed.

End Broadcasting.

Section Reductions.

Lemma in_bounds_insert_at (axis t : nat) (s idx : list nat) :
  axis < length s -> in_bounds (drop_axis axis s) idx -> t < nth axis s 0 ->
  in_bounds s (insert_at axis t idx).
Proof.
  unfold in_bounds, drop_axis, insert_at. revert s idx.
  induction axis as [|k IH]; intros [|d s] idx Hlen Hb Ht; simpl in *; try lia.
  - constructor; assumption.
  - inversion Hb; subst. simpl. constructor; [assumption|].
    apply IH; [lia|assumption|assumption].
Qed.

Lemma lane_denotes {X} `{Default X} (a : ndarray X) s f axis idx :
  has_shape a s -> (forall i, in_bounds s i -> get a i = f i) ->
  axis < length s -> in_bounds (drop_axis axis s) idx ->
  lane a axis idx = map (fun t => f (insert_at axis t idx)) (seq 0 (nth axis s 0)).
Proof.
  intros [Hs _] Hget Hax Hb. unfold lane. rewrite Hs.
  apply map_ext_in. intros t Ht. apply in_seq in Ht.
  apply Hget. apply in_bounds_insert_at; [assumption|assumption|lia].
Qed.

Lemma denotes_sum_axis (r : result (ndarray Qc)) s f axis :
  denotes r s f -> axis < length s ->
  denotes (sum_axis r axis) (drop_axis axis s)
    (fun idx => total (map (fun t => f (insert_at axis t idx))
                           (seq 0 (nth axis s 0)))).
Proof.
  intros (a & -> & Hs & Hget) Hax. unfold sum_axis. simpl.
  destruct Hs as [Hs Hl]. rewrite Hs.
  apply Nat.ltb_lt in Hax as Hax'. rewrite Hax'.
  eapply denotes_ext; [|apply denotes_tabulate].
  intros idx Hb. simpl. f_equal.
  apply lane_denotes; try assumption. now split.
Qed.

Lemma denotes_max_axis (r : result (ndarray Qc)) s f axis :
  denotes r s f -> axis < length s -> 0 < nth axis s 0 ->
  denotes (max_axis r axis) (drop_axis axis s)
    (fun idx => max_list (map (fun t => f (insert_at axis t idx))
                              (seq 0 (nth axis s 0)))).
Proof.
  intros (a & -> & Hs & Hget) Hax Hpos. unfold max_axis. simpl.
  destruct Hs as [Hs Hl]. rewrite Hs.
  apply Nat.ltb_lt in Hax as Hax'. apply Nat.ltb_lt in Hpos as Hpos'.
  rewrite Hax', Hpos'. simpl.
  eapply denotes_ext; [|apply denotes_tabulate].
  intros idx Hb. simpl. f_equal.
  apply lane_denotes; try assumption. now split.
Qed.

Lemma denotes_argmax_axis (r : result (ndarray Qc)) s f axis :
  denotes r s f -> axis < length s -> 0 < nth axis s 0 ->
  denotes (argmax_axis r axis) (drop_axis axis s)
    (fun idx => Z.of_nat (argmax_list (map (fun t => f (insert_at axis t idx))
                                           (seq 0 (nth axis s 0))))).
Proof.
  intros (a & -> & Hs & Hget) Hax Hpos. unfold argmax_axis. simpl.
  destruct Hs as [Hs Hl]. rewrite Hs.
  apply Nat.ltb_lt in Hax as Hax'. apply Nat.ltb_lt in Hpos as Hpos'.
  rewrite Hax', Hpos'. simpl.
  eapply denotes_ext; [|apply denotes_tabulate].
  intros idx Hb. simpl. do 2 f_equal.
  apply lane_denotes; try assumption. now split.
Qed.

End Reductions.

Section Gathering.

Lemma denotes_scalar (x : Qc) : denotes (scalar x) [] (fun _ => x).
Proof.
  eexists. split; [reflexivity|]. split; [split; reflexivity|].
  intros idx Hb. inversion Hb; subst. reflexivity.
Qed.

Lemma denotes_arange (n : nat) :
  denotes (ok_array (arange n)) [n] (fun idx => Z.of_nat (nth 0 idx 0)).
Proof.
  eexists. split; [reflexivity|]. split.
  - split; [reflexivity|]. simpl. rewrite length_map, length_seq. lia.
  - intros idx Hb. inversion Hb as [|i d idx' s' Hi Hb']; subst.
    inversion Hb'; subst. unfold get, arange. simpl.
    rewrite nth_indep with (d' := Z.of_nat 0)
      by (rewrite length_map, length_seq; lia).
    rewrite map_nth. rewrite seq_nth by lia. f_equal. lia.
Qed.

Lemma denotes_take {X} `{Default X} (a : ndarray X) d (rix : result (ndarray Z)) s g :
  has_shape a [d] -> denotes rix s g ->
  denotes (take a rix) s (fun idx => get a [jnp_index d (g idx)]).
Proof.
  intros [Ha _] (ix & -> & (Hs & Hl) & Hget). unfold take. simpl.
  rewrite Ha, Hs.
  eapply denotes_ext; [|apply denotes_tabulate].
  intros idx Hb. simpl. now rewrite Hget.
Qed.

Lemma denotes_take2 {X} `{Default X} (a : ndarray X) d1 d2
    (rix1 rix2 : result (ndarray Z)) s1 s2 s g1 g2 :
  has_shape a [d1; d2] -> denotes rix1 s1 g1 -> denotes rix2 s2 g2 ->
  broadcast_shapes s1 s2 = Some s ->
  denotes (take2 a rix1 rix2) s
    (fun idx => get a [jnp_index d1 (g1 (bidx s1 idx));
                       jnp_index d2 (g2 (bidx s2 idx))]).
Proof.
  intros [Ha _] (ix1 & -> & (Hs1 & _) & Hget1) (ix2 & -> & (Hs2 & _) & Hget2) Hbs.
  unfold take2. simpl. rewrite Ha, Hs1, Hs2, Hbs.
  eapply denotes_ext; [|apply denotes_tabulate].
  intros idx Hb. simpl. destruct (bidx_in_bounds _ _ _ _ Hbs Hb) as [H1 H2].
  now rewrite Hget1, Hget2.
Qed.

Lemma denotes_matmul (rm rx : result (ndarray Qc)) r c fm fx :
  denotes rm [r; c] fm -> denotes rx [c] fx ->
  denotes (matmul rm rx) [r]
    (fun idx => total (map (fun t => Qcmult (fm [nth 0 idx 0; t]) (fx [t]))
                           (seq 0 c))).
Proof.
  intros (m & -> & (Hm & _) & Hgm) (x & -> & (Hx & _) & Hgx).
  unfold matmul. simpl. rewrite Hm, Hx, Nat.eqb_refl.
  eapply denotes_ext; [|apply denotes_tabulate].
  intros idx Hb. simpl. f_equal.
  inversion Hb as [|i d idx' s' Hi Hb']; subst. inversion Hb'; subst. simpl.
  apply map_ext_in. intros t Ht. apply in_seq in Ht.
  rewrite Hgm, Hgx; [reflexivity| |].
  - repeat constructor. lia.
  - repeat constructor; lia.
Qed.

End Gathering.

(** ** Order on exact rationals, maximum and position of the maximum *)

Section Order.

Lemma Qcltb_spec x y : reflect (x < y)%Qc (Qcltb x y).
Proof.
  unfold Qcltb. pose proof (Qclt_alt x y) as A.
  destruct (x ?= y)%Qc; constructor.
  - intros H. apply A in H. discriminate.
  - now apply A.
  - intros H. apply A in H. discriminate.
Qed.

End Order.

(** Linear and polynomial arithmetic on [Qc], by translation to [Q]. *)
Ltac qc_hyps :=
  repeat match goal with
         | H : @eq Qc ?x ?y |- _ =>
             let H' := fresh in
             assert (H' : (this x == this y)%Q) by (rewrite H; reflexivity);
             clear H
         | H : ~ @eq Qc ?x ?y |- _ =>
             let H' := fresh in
             assert (H' : ~ (this x == this y)%Q)
               by (intros ?; apply H; now apply Qc_is_canon);
             clear H
         end.

Ltac qc_arith :=
  qc_hyps;
  try apply Qc_is_canon;
  unfold Qcle, Qclt, Qcminus, Qcplus, Qcmult, Qcopp in *;
  cbn [this Q2Qc] in *;
  repeat match goal with
         | H : context [Qred ?q] |- _ => rewrite (Qred_correct q) in H
         | |- context [Qred ?q] => rewrite (Qred_correct q)
         end;
  first [ lra | nra ].

Section Maximum.

Lemma Qcmax_l x y : (x <= Qcmax x y)%Qc.
Proof. unfold Qcmax. destruct (Qcltb_spec x y); qc_arith. Qed.

Lemma Qcmax_r x y : (y <= Qcmax x y)%Qc.
Proof. unfold Qcmax. destruct (Qcltb_spec x y); qc_arith. Qed.

Lemma Qcmax_case x y : Qcmax x y = x \/ Qcmax x y = y.
Proof. unfold Qcmax. destruct (Qcltb x y); auto. Qed.

Lemma fold_Qcmax_ge l : forall x, (x <= fold_left Qcmax l x)%Qc.
Proof.
  induction l as [|y l IH]; intros x; simpl; [apply Qcle_refl|].
  eapply Qcle_trans; [apply Qcmax_l | apply IH].
Qed.

Lemma fold_Qcmax_upper l : forall x y, In y l -> (y <= fold_left Qcmax l x)%Qc.
Proof.
  induction l as [|z l IH]; intros x y []; simpl.
  - subst z. eapply Qcle_trans; [apply Qcmax_r | apply fold_Qcmax_ge].
  - now apply IH.
Qed.

Lemma fold_Qcmax_in l : forall x, fold_left Qcmax l x = x \/ In (fold_left Qcmax l x) l.
Proof.
  induction l as [|z l IH]; intros x; simpl; [now left|].
  destruct (IH (Qcmax x z)) as [E|E]; [|now right; right].
  rewrite E. destruct (Qcmax_case x z) as [->| ->]; [now left | now right; left].
Qed.

Lemma max_list_upper l x : In x l -> (x <= max_list l)%Qc.
Proof.
  destruct l as [|y l]; intros []; simpl.
  - subst. apply fold_Qcmax_ge.
  - now apply fold_Qcmax_upper.
Qed.

Lemma max_list_in l : l <> [] -> In (max_list l) l.
Proof.
  destruct l as [|y l]; [congruence|]. intros _. simpl.
  destruct (fold_Qcmax_in l y) as [->|]; auto.
Qed.

(** The scan for the position of the maximum, after the prefix [p] of the
    list has been read: [bi] is the first position of the maximum of [p]. *)
Lemma argmax_from_spec l : forall p best bi,
  bi < length p -> nth bi p 0%Qc = best ->
  (forall k, k < length p -> (nth k p 0 <= best)%Qc) ->
  (forall k, k < bi -> (nth k p 0 < best)%Qc) ->
  let r := argmax_from best bi (length p) l in
  r < length (p ++ l) /\
  (forall k, k < length (p ++ l) -> (nth k (p ++ l) 0 <= nth r (p ++ l) 0)%Qc) /\
  (forall k, k < r -> (nth k (p ++ l) 0 < nth r (p ++ l) 0)%Qc).
Proof.
  induction l as [|x l IH]; intros p best bi Hbi Hnth Hmax Hfirst; simpl.
  - rewrite app_nil_r. rewrite Hnth. auto.
  - replace (p ++ x :: l) with ((p ++ [x]) ++ l) by (now rewrite <- app_assoc).
    replace (S (length p)) with (length (p ++ [x]))
      by (rewrite length_app; simpl; lia).
    destruct (Qcltb_spec best x) as [Hlt|Hge].
    + apply IH.
      * rewrite length_app. simpl. lia.
      * rewrite app_nth2 by lia. now rewrite Nat.sub_diag.
      * intros k Hk. rewrite length_app in Hk. simpl in Hk.
        destruct (Nat.eq_dec k (length p)) as [->|Hne].
        -- rewrite app_nth2 by lia. rewrite Nat.sub_diag. simpl. apply Qcle_refl.
        -- rewrite app_nth1 by lia. apply Qclt_le_weak.
           eapply Qcle_lt_trans; [apply Hmax; lia | exact Hlt].
      * intros k Hk. rewrite app_nth1 by lia.
        eapply Qcle_lt_trans; [apply Hmax; lia | exact Hlt].
    + apply Qcnot_lt_le in Hge. apply IH.
      * rewrite length_app. simpl. lia.
      * rewrite app_nth1 by lia. exact Hnth.
      * intros k Hk. rewrite length_app in Hk. simpl in Hk.
        destruct (Nat.eq_dec k (length p)) as [->|Hne].
        -- rewrite app_nth2 by lia. rewrite Nat.sub_diag. simpl. exact Hge.
        -- rewrite app_nth1 by lia. apply Hmax. lia.
      * intros k Hk. rewrite app_nth1 by lia. now apply Hfirst.
Qed.

(** [argmax_list] returns a position of the list, the element there is
    the largest, and every element before it is strictly smaller. *)
Lemma argmax_list_spec l :
  l <> [] ->
  argmax_list l < length l /\
  (forall k, k < length l -> (nth k l 0 <= nth (argmax_list l) l 0)%Qc) /\
  (forall k, k < argmax_list l -> (nth k l 0 < nth (argmax_list l) l 0)%Qc).
Proof.
  destruct l as [|x l]; [congruence|]. intros _.
  apply (argmax_from_spec l [x] x 0); simpl; try lia; try reflexivity.
  - intros k Hk. assert (k = 0) by lia. subst. apply Qcle_refl.
Qed.

Lemma nth_argmax_list l : l <> [] -> nth (argmax_list l) l 0%Qc = max_list l.
Proof.
  intros Hl. destruct (argmax_list_spec l Hl) as (Hlt & Hmax & _).
  apply Qcle_antisym.
  - apply max_list_upper. now apply nth_In.
  - destruct (In_nth l (max_list l) 0%Qc (max_list_in l Hl)) as (k & Hk & <-).
    now apply Hmax.
Qed.

End Maximum.

(** ** Sums *)

Section Sums.

Lemma fold_Qcplus l : forall a, fold_left Qcplus l a = (a + total l)%Qc.
Proof.
  unfold total. induction l as [|x l IH]; intros a; simpl.
  - ring.
  - rewrite IH, (IH (0 + x)%Qc). ring.
Qed.

Lemma total_nil : total [] = 0%Qc.
Proof. reflexivity. Qed.

Lemma total_cons x l : total (x :: l) = (x + total l)%Qc.
Proof. unfold total at 1. simpl. rewrite fold_Qcplus. ring. Qed.

Lemma total_app l1 l2 : total (l1 ++ l2) = (total l1 + total l2)%Qc.
Proof.
  induction l1 as [|x l1 IH]; simpl.
  - rewrite total_nil. ring.
  - rewrite !total_cons, IH. ring.
Qed.

Lemma total_scale {I} (c : Qc) (F : I -> Qc) l :
  total (map (fun t => (c * F t)%Qc) l) = (c * total (map F l))%Qc.
Proof.
  induction l as [|x l IH]; simpl.
  - rewrite total_nil. ring.
  - rewrite !total_cons, IH. ring.
Qed.

Lemma total_zero {I} (F : I -> Qc) l :
  (forall x, In x l -> F x = 0%Qc) -> total (map F l) = 0%Qc.
Proof.
  induction l as [|x l IH]; intros HF; simpl; [reflexivity|].
  rewrite total_cons, HF by (now left). rewrite IH.
  - ring.
  - intros y Hy. apply HF. now right.
Qed.

Lemma total_ext {I} (F G : I -> Qc) l :
  (forall x, In x l -> F x = G x) -> total (map F l) = total (map G l).
Proof. intros HFG. f_equal. now apply map_ext_in. Qed.

(** A sum against an indicator picks one term. *)
Lemma total_indicator (G : nat -> Qc) (s n : nat) :
  s < n ->
  total (map (fun k => ((if k =? s then 1 else 0) * G k)%Qc) (seq 0 n)) = G s.
Proof.
  intros Hs.
  replace n with (s + (1 + (n - s - 1))) by lia.
  rewrite !seq_app, !map_app, !total_app. simpl seq. simpl map.
  rewrite total_cons, total_nil, Nat.eqb_refl.
  rewrite !total_zero.
  - ring.
  - intros k Hk. apply in_seq in Hk.
    destruct (Nat.eqb_spec k s); [lia|]. ring.
  - intros k Hk. apply in_seq in Hk.
    destruct (Nat.eqb_spec k s); [lia|]. ring.
Qed.

Lemma map_seq_from {I} (G : nat -> I) n : forall a,
  map G (seq a n) = map (fun j => G (a + j)) (seq 0 n).
Proof.
  induction n as [|n IH]; intros a; simpl; [reflexivity|].
  f_equal; [f_equal; lia|].
  rewrite IH, <- seq_shift, map_map. apply map_ext. intros j. f_equal. lia.
Qed.

(** A sum over the flattened index is a double sum. *)
Lemma total_flatten (G : nat -> Qc) (y z : nat) :
  total (map G (seq 0 (y * z))) =
  total (map (fun k => total (map (fun j => G (k * z + j)) (seq 0 z))) (seq 0 y)).
Proof.
  induction y as [|y IH].
  - reflexivity.
  - replace (S y * z) with (y * z + z) by lia.
    rewrite seq_app, map_app, total_app, IH.
    rewrite seq_S, map_app, total_app. cbn [map].
    rewrite total_cons, total_nil, Qcplus_0_r. f_equal.
    now rewrite map_seq_from.
Qed.

End Sums.

(** * The Bellman backup *)

Section BroadcastExtents.

Lemma bdim_1_l d : bdim 1 d = Some d.
Proof. unfold bdim. destruct (Nat.eqb_spec 1 d); [now subst|reflexivity]. Qed.

Lemma bdim_1_r d : bdim d 1 = Some d.
Proof.
  unfold bdim. destruct (Nat.eqb_spec d 1); [reflexivity|].
  destruct (Nat.eqb_spec d 1); [lia|reflexivity].
Qed.

Lemma bdim_same d : bdim d d = Some d.
Proof. unfold bdim. now rewrite Nat.eqb_refl. Qed.

Lemma clip1_lt d i : i < d -> clip1 d i = i.
Proof. unfold clip1. destruct (Nat.eqb_spec d 1); lia. Qed.

Lemma clip1_unit i : clip1 1 i = 0.
Proof. reflexivity. Qed.

End BroadcastExtents.

Arguments bdim : simpl never.
Arguments clip1 : simpl never.

Ltac bshape :=
  unfold broadcast_shapes, pad;
  repeat first [ rewrite bdim_1_r | rewrite bdim_1_l | rewrite bdim_same
               | progress cbn ];
  reflexivity.

Ltac split_index :=
  repeat match goal with
         | H : in_bounds _ _ |- _ => unfold in_bounds in H
         | H : Forall2 lt _ (_ :: _) |- _ => inversion H; clear H; subst
         | H : Forall2 lt _ [] |- _ => inversion H; clear H; subst
         end;
  repeat match goal with
         | H : ?i < 1 |- _ => assert (i = 0) by lia; subst i; clear H
         end.

(** Side condition of a reshape: the index map keeps offsets. *)
Ltac reshape_side :=
  let idx := fresh "idx" in let Hb := fresh "Hb" in
  intros idx Hb; split_index; split;
  [ unfold in_bounds; repeat constructor; simpl; lia | simpl; lia ].

Ltac reshape_leaf h :=
  eapply denotes_ext; cycle 1;
  [ eapply (denotes_reshape _ _ _ _ h);
    [ first [ apply denotes_arange | apply denotes_array; eassumption ]
    | simpl; lia | reshape_side ]
  | intros ? ?; reflexivity ].

(** The denotation of an array expression, operation by operation;
    denotations already in the context are used as they are. *)
Ltac den :=
  first
    [ eassumption
    | lazymatch goal with
      | |- denotes (scalar _) _ _ => apply denotes_scalar
      | |- denotes (ok_array (arange _)) _ _ => apply denotes_arange
      | |- denotes (ok_array _) _ _ => apply denotes_array; eassumption
      | |- denotes (Ok (tabulate _ _)) _ _ => apply denotes_tabulate
      | |- denotes (tadd _ _) _ _ => eapply denotes_broadcast2; [den | den | bshape]
      | |- denotes (tsub _ _) _ _ => eapply denotes_broadcast2; [den | den | bshape]
      | |- denotes (tmul _ _) _ _ => eapply denotes_broadcast2; [den | den | bshape]
      | |- denotes (teq _ _) _ _ => eapply denotes_broadcast2; [den | den | bshape]
      | |- denotes (tsub_int _ _) _ _ => eapply denotes_broadcast2; [den | den | bshape]
      | |- denotes (tpow _ _) _ _ => eapply denotes_map1; den
      | |- denotes (to_float _) _ _ => eapply denotes_map1; den
      | |- denotes (where_ _ _ _) _ _ => eapply denotes_map1; den
      | |- denotes (absolute _) _ _ => eapply denotes_map1; den
      | |- denotes (absolute_int _) _ _ => eapply denotes_map1; den
      | |- denotes (sum_axis _ _) _ _ => eapply denotes_sum_axis; [den | simpl; lia]
      | |- denotes (max_axis _ _) _ _ =>
          eapply denotes_max_axis; [den | simpl; lia | simpl; lia]
      | |- denotes (argmax_axis _ _) _ _ =>
          eapply denotes_argmax_axis; [den | simpl; lia | simpl; lia]
      | |- denotes (take _ _) _ _ => eapply denotes_take; [eassumption | den]
      | |- denotes (take2 _ _ _) _ _ =>
          eapply denotes_take2; [eassumption | den | den | bshape]
      | |- denotes (matmul _ _) _ _ => eapply denotes_matmul; [den | den]
      | |- denotes (reshape _ _) _ _ =>
          eapply denotes_reshape_unravel;
          [den | first [reflexivity | simpl; lia | simpl; ring]]
      end ].

Ltac idx_simpl :=
  repeat (progress
    (cbn [bidx pad clip skipn length Nat.sub repeat app nth drop_axis
          insert_at firstn Nat.max];
     repeat match goal with
            | |- context [clip1 1 ?i] => change (clip1 1 i) with 0
            end;
     repeat match goal with
            | |- context [clip1 ?d ?i] => rewrite (clip1_lt d i) by lia
            end)).

Section BellmanBackup.

Variables (constants : constants_t) (sizes : sizes_t) (arrays : arrays_t).
Hypothesis Hmodel : model_shapes sizes arrays.

Lemma B_denotes v :
  has_shape v (shape_of sizes) ->
  denotes (B v constants sizes arrays) [fst sizes; snd sizes; fst sizes]
    (fun idx =>
       backup v constants sizes arrays (nth 0 idx 0) (nth 1 idx 0) (nth 2 idx 0)).
Proof.
  destruct constants as [[[[β a_0] a_1] γ] c], sizes as [y_size z_size],
    arrays as [[y_grid z_grid] Q].
  destruct Hmodel as (Hy & Hz & HQ). unfold shape_of, fst, snd.
  intros Hv. unfold B.
  assert (Dy : denotes (reshape y_grid [y_size; 1; 1]) [y_size; 1; 1]
                 (fun idx => get y_grid [nth 0 idx 0]))
    by reshape_leaf (fun idx : list nat => [nth 0 idx 0]).
  assert (Dz : denotes (reshape z_grid [1; z_size; 1]) [1; z_size; 1]
                 (fun idx => get z_grid [nth 1 idx 0]))
    by reshape_leaf (fun idx : list nat => [nth 1 idx 0]).
  assert (Dyp : denotes (reshape y_grid [1; 1; y_size]) [1; 1; y_size]
                 (fun idx => get y_grid [nth 2 idx 0]))
    by reshape_leaf (fun idx : list nat => [nth 2 idx 0]).
  assert (Dv : denotes (reshape v [1; 1; y_size; z_size]) [1; 1; y_size; z_size]
                 (fun idx => get v [nth 2 idx 0; nth 3 idx 0]))
    by reshape_leaf (fun idx : list nat => [nth 2 idx 0; nth 3 idx 0]).
  assert (DQ : denotes (reshape Q [1; z_size; 1; z_size]) [1; z_size; 1; z_size]
                 (fun idx => get Q [nth 1 idx 0; nth 3 idx 0]))
    by reshape_leaf (fun idx : list nat => [nth 1 idx 0; nth 3 idx 0]).
  eapply denotes_ext; cycle 1.
  - cbv zeta. den.
  - intros idx Hb. split_index. unfold backup, reward, continuation. idx_simpl.
    do 3 f_equal. apply map_ext_in. intros t Ht. apply in_seq in Ht.
    idx_simpl. reflexivity.
Qed.

Lemma T_denotes v :
  has_shape v (shape_of sizes) -> 0 < fst sizes ->
  denotes (T v constants sizes arrays) (shape_of sizes)
    (fun idx =>
       max_list (map (backup v constants sizes arrays (nth 0 idx 0) (nth 1 idx 0))
                     (seq 0 (fst sizes)))).
Proof.
  intros Hv Hpos. pose proof (B_denotes v Hv) as DB. unfold T.
  eapply denotes_conv; [den | reflexivity |].
  intros idx Hb. unfold shape_of in Hb. split_index. idx_simpl. reflexivity.
Qed.

Lemma get_greedy_denotes v :
  has_shape v (shape_of sizes) -> 0 < fst sizes ->
  denotes (get_greedy v constants sizes arrays) (shape_of sizes)
    (fun idx =>
       Z.of_nat
         (argmax_list
            (map (backup v constants sizes arrays (nth 0 idx 0) (nth 1 idx 0))
                 (seq 0 (fst sizes))))).
Proof.
  intros Hv Hpos. pose proof (B_denotes v Hv) as DB. unfold get_greedy.
  eapply denotes_conv; [den | reflexivity |].
  intros idx Hb. unfold shape_of in Hb. split_index. idx_simpl. reflexivity.
Qed.

End BellmanBackup.

(** * The policy operators *)

Section PolicyOperators.

Variables (constants : constants_t) (sizes : sizes_t) (arrays : arrays_t).
Hypothesis Hmodel : model_shapes sizes arrays.

Lemma valid_policy_entry σ i j :
  valid_policy sizes σ -> i < fst sizes -> j < snd sizes ->
  (0 <= get σ [i; j] < Z.of_nat (fst sizes))%Z.
Proof.
  intros [[Hs Hl] Hall] Hi Hj. unfold get. rewrite Hs.
  rewrite Forall_forall in Hall. apply Hall. apply nth_In.
  rewrite Hl. apply ravel_lt. unfold shape_of. repeat constructor; assumption.
Qed.

Lemma jnp_index_in_range d z :
  (0 <= z < Z.of_nat d)%Z -> jnp_index d z = Z.to_nat z.
Proof.
  intros Hz. unfold jnp_index. destruct (Z.ltb_spec z 0); [lia|].
  f_equal. lia.
Qed.

Lemma jnp_index_of_nat d t : t < d -> jnp_index d (Z.of_nat t) = t.
Proof. intros Ht. rewrite jnp_index_in_range by lia. apply Nat2Z.id. Qed.

Lemma act_lt σ i j :
  valid_policy sizes σ -> i < fst sizes -> j < snd sizes ->
  act σ i j < fst sizes.
Proof.
  intros Hσ Hi Hj. pose proof (valid_policy_entry σ i j Hσ Hi Hj). unfold act. lia.
Qed.

Lemma T_σ_2_denotes v σ :
  has_shape v (shape_of sizes) -> valid_policy sizes σ ->
  denotes (T_σ_2 v σ constants sizes arrays) (shape_of sizes)
    (fun idx =>
       let i := nth 0 idx 0 in let j := nth 1 idx 0 in
       backup v constants sizes arrays i j (act σ i j)).
Proof.
  intros Hv Hσ. pose proof (valid_policy_entry σ) as Hentry.
  specialize (fun i j => Hentry i j Hσ). destruct Hσ as [Hσ _].
  destruct constants as [[[[β a_0] a_1] γ] c], sizes as [y_size z_size],
    arrays as [[y_grid z_grid] Q].
  destruct Hmodel as (Hy & Hz & HQ). unfold shape_of, fst, snd in *.
  unfold T_σ_2.
  assert (Dy : denotes (reshape y_grid [y_size; 1]) [y_size; 1]
                 (fun idx => get y_grid [nth 0 idx 0]))
    by reshape_leaf (fun idx : list nat => [nth 0 idx 0]).
  assert (Dz : denotes (reshape z_grid [1; z_size]) [1; z_size]
                 (fun idx => get z_grid [nth 1 idx 0]))
    by reshape_leaf (fun idx : list nat => [nth 1 idx 0]).
  assert (Dzp : denotes (reshape (arange z_size) [1; 1; z_size]) [1; 1; z_size]
                 (fun idx => Z.of_nat (nth 2 idx 0)))
    by reshape_leaf (fun idx : list nat => [nth 2 idx 0]).
  assert (Dσ : denotes (reshape σ [y_size; z_size; 1]) [y_size; z_size; 1]
                 (fun idx => get σ [nth 0 idx 0; nth 1 idx 0]))
    by reshape_leaf (fun idx : list nat => [nth 0 idx 0; nth 1 idx 0]).
  assert (DQ : denotes (reshape Q [1; z_size; z_size]) [1; z_size; z_size]
                 (fun idx => get Q [nth 1 idx 0; nth 2 idx 0]))
    by reshape_leaf (fun idx : list nat => [nth 1 idx 0; nth 2 idx 0]).
  eapply denotes_conv; [cbv zeta; den | reflexivity |].
  intros idx Hb. split_index. unfold backup, reward, continuation, act. idx_simpl.
  rewrite !jnp_index_in_range by (apply Hentry; assumption).
  do 3 f_equal. apply map_ext_in. intros t Ht. apply in_seq in Ht.
  idx_simpl. rewrite jnp_index_of_nat by lia. reflexivity.
Qed.

Lemma T_σ_denotes v σ :
  has_shape v (shape_of sizes) -> valid_policy sizes σ ->
  denotes (T_σ v σ constants sizes arrays) (shape_of sizes)
    (fun idx =>
       let i := nth 0 idx 0 in let j := nth 1 idx 0 in
       backup v constants sizes arrays i j (act σ i j)).
Proof.
  intros Hv Hσ. pose proof (valid_policy_entry σ) as Hentry.
  specialize (fun i j => Hentry i j Hσ). destruct Hσ as [Hσ _].
  destruct constants as [[[[β a_0] a_1] γ] c], sizes as [y_size z_size],
    arrays as [[y_grid z_grid] Q].
  destruct Hmodel as (Hy & Hz & HQ). unfold shape_of, fst, snd in *.
  unfold T_σ.
  assert (Dy : denotes (reshape y_grid [y_size; 1]) [y_size; 1]
                 (fun idx => get y_grid [nth 0 idx 0]))
    by reshape_leaf (fun idx : list nat => [nth 0 idx 0]).
  assert (Dz : denotes (reshape z_grid [1; z_size]) [1; z_size]
                 (fun idx => get z_grid [nth 1 idx 0]))
    by reshape_leaf (fun idx : list nat => [nth 1 idx 0]).
  assert (Dyp : denotes (reshape (arange y_size) [1; 1; y_size; 1])
                  [1; 1; y_size; 1] (fun idx => Z.of_nat (nth 2 idx 0)))
    by reshape_leaf (fun idx : list nat => [nth 2 idx 0]).
  assert (Dσ : denotes (reshape σ [y_size; z_size; 1; 1]) [y_size; z_size; 1; 1]
                 (fun idx => get σ [nth 0 idx 0; nth 1 idx 0]))
    by reshape_leaf (fun idx : list nat => [nth 0 idx 0; nth 1 idx 0]).
  assert (DQ : denotes (reshape Q [1; z_size; 1; z_size]) [1; z_size; 1; z_size]
                 (fun idx => get Q [nth 1 idx 0; nth 3 idx 0]))
    by reshape_leaf (fun idx : list nat => [nth 1 idx 0; nth 3 idx 0]).
  eapply denotes_conv; [cbv zeta; den | reflexivity |].
  intros idx Hb. split_index. unfold backup, reward, continuation, act.
  rename x into i, x0 into j.
  assert (Hr : i * z_size + j < y_size * z_size) by nia.
  assert (E1 : unravel [y_size * z_size] (ravel [y_size; z_size] [i; j])
               = [i * z_size + j])
    by (apply unravel_ravel_eq; [repeat constructor; lia | simpl; lia]).
  assert (E2 : unravel [y_size; z_size] (ravel [y_size * z_size] [i * z_size + j])
               = [i; j])
    by (apply unravel_ravel_eq; [repeat constructor; lia | simpl; lia]).
  rewrite !E1. idx_simpl. rewrite !E2. idx_simpl.
  rewrite !jnp_index_in_range by (apply Hentry; assumption).
  f_equal. rewrite total_flatten.
  pose proof (Hentry i j H2 H4) as Hs.
  set (s := Z.to_nat (get σ [i; j])) in *.
  transitivity
    (total (map (fun k =>
       ((if k =? s then 1 else 0) *
        (β * total (map (fun jp => get v [k; jp] * get Q [j; jp])
                        (seq 0 z_size))))%Qc) (seq 0 y_size))).
  - apply total_ext. intros k Hk. apply in_seq in Hk.
    rewrite <- !total_scale. apply total_ext. intros jp Hjp. apply in_seq in Hjp.
    assert (Hc : k * z_size + jp < y_size * z_size) by nia.
    rewrite (clip1_lt _ _ Hc).
    rewrite (unravel_ravel_eq [y_size; z_size; y_size; z_size]
               [y_size * z_size; y_size * z_size] [i; j; k; jp])
      by (try (repeat constructor; lia); simpl; lia).
    rewrite (unravel_ravel_eq [y_size; z_size] [y_size * z_size] [k; jp])
      by (try (repeat constructor; lia); simpl; lia).
    idx_simpl.
    destruct (Z.eqb_spec (get σ [i; j]) (Z.of_nat k)) as [E|E];
      destruct (Nat.eqb_spec k s) as [E'|E']; try (exfalso; subst s; lia).
    + change (Z2Qc 1) with 1%Qc. ring.
    + change (Z2Qc 0) with 0%Qc. ring.
  - rewrite total_indicator by (subst s; lia). reflexivity.
Qed.

End PolicyOperators.

(** * The backup, the greedy policy and the policy operators *)

Section ListFacts.

Lemma denotes_result {X} `{Default X} (r : result (ndarray X)) s f :
  denotes r s f -> r = Ok (tabulate s f).
Proof.
  intros Hd. apply (denotes_inj r (Ok (tabulate s f)) s f Hd).
  apply denotes_tabulate.
Qed.

Lemma nth_map_seq {I} (f : nat -> I) (n k : nat) (d : I) :
  k < n -> nth k (map f (seq 0 n)) d = f k.
Proof.
  intros Hk. rewrite nth_indep with (d' := f 0) by (now rewrite length_map, length_seq).
  rewrite map_nth. now rewrite seq_nth.
Qed.

Lemma map_seq_nonempty {I} (f : nat -> I) (n : nat) : 0 < n -> map f (seq 0 n) <> [].
Proof. destruct n; [lia|]. discriminate. Qed.

End ListFacts.

(** C1.  For a value function [v] of shape y_size × z_size, [B] returns an
    array of shape y_size × z_size × y_size whose element at (i, j, k) is
    (a_0 − a_1 y_i + z_j − c) y_i − γ (y_k − y_i)² + β Σ_jp v[k, jp] Q[j, jp]:
    the continuation value is read at the next state [k] and summed over the
    transitions from [j]. *)
Theorem B_bellman_backup (v : ndarray Qc) (β a_0 a_1 γ c : Qc)
    (y_size z_size : nat) (y_grid z_grid Q : ndarray Qc) :
  has_shape v [y_size; z_size] ->
  has_shape y_grid [y_size] -> has_shape z_grid [z_size] ->
  has_shape Q [z_size; z_size] ->
  exists b,
    B v (β, a_0, a_1, γ, c) (y_size, z_size) (y_grid, z_grid, Q) = Ok b /\
    has_shape b [y_size; z_size; y_size] /\
    forall i j k, i < y_size -> j < z_size -> k < y_size ->
      get b [i; j; k] =
      ((a_0 - a_1 * get y_grid [i] + get z_grid [j] - c) * get y_grid [i]
       - γ * (get y_grid [k] - get y_grid [i]) ^ 2
       + β * total (map (fun jp => get v [k; jp] * get Q [j; jp])
                        (seq 0 z_size)))%Qc.
Proof.
  intros Hv Hy Hz HQ.
  destruct (B_denotes (β, a_0, a_1, γ, c) (y_size, z_size) (y_grid, z_grid, Q))
    with (v := v) as (b & Hb & Hs & Hget).
  - repeat split; first [apply Hy | apply Hz | apply HQ].
  - exact Hv.
  - exists b. split; [exact Hb|]. split; [exact Hs|].
    intros i j k Hi Hj Hk. rewrite Hget by (repeat constructor; assumption).
    reflexivity.
Qed.



(** C4.  For every value function [v] and every state (i, j), the greedy
    policy picks an action [k] whose backup B(v)[i, j, k] is maximal, and
    the backup of every smaller action index is strictly below it: of
    several maximal actions the one with the smallest index is returned. *)
Theorem get_greedy_first_maximiser (v : ndarray Qc) (constants : constants_t)
    (sizes : sizes_t) (arrays : arrays_t) :
  model_shapes sizes arrays ->
  has_shape v (shape_of sizes) ->
  0 < fst sizes ->
  exists b σ,
    B v constants sizes arrays = Ok b /\
    get_greedy v constants sizes arrays = Ok σ /\
    forall i j, i < fst sizes -> j < snd sizes ->
      exists k,
        get σ [i; j] = Z.of_nat k /\ k < fst sizes /\
        (forall k', k' < fst sizes -> (get b [i; j; k'] <= get b [i; j; k])%Qc) /\
        (forall k', k' < k -> (get b [i; j; k'] < get b [i; j; k])%Qc).
Proof.
  intros Hm Hv Hpos.
  destruct (B_denotes constants sizes arrays Hm v Hv) as (b & Hb & Hsb & Hgb).
  destruct (get_greedy_denotes constants sizes arrays Hm v Hv Hpos)
    as (σ & Hσ & Hsσ & Hgσ).
  exists b, σ. split; [exact Hb|]. split; [exact Hσ|].
  intros i j Hi Hj.
  set (l := map (backup v constants sizes arrays i j) (seq 0 (fst sizes))).
  assert (Hl : l <> []) by (now apply map_seq_nonempty).
  assert (Hlen : length l = fst sizes)
    by (unfold l; now rewrite length_map, length_seq).
  destruct (argmax_list_spec l Hl) as (Hlt & Hmax & Hfirst).
  assert (Hnth : forall k, k < fst sizes -> get b [i; j; k] = nth k l 0%Qc).
  { intros k Hk. rewrite Hgb by (repeat constructor; assumption).
    unfold l. now rewrite nth_map_seq. }
  exists (argmax_list l). rewrite Hlen in *. repeat split.
  - rewrite Hgσ by (unfold shape_of; repeat constructor; assumption). reflexivity.
  - exact Hlt.
  - intros k' Hk'. rewrite !Hnth by assumption. now apply Hmax.
  - intros k' Hk'. rewrite !Hnth by lia. now apply Hfirst.
Qed.

(** ** Shapes of results, whatever the operands *)

Section Shapes.

Lemma ok_shape_reshape {X} (r : result (ndarray X)) s : ok_shape (reshape r s) s.
Proof.
  intros a. destruct r as [a0|e]; simpl; [|discriminate].
  destruct (size (shape a0) =? size s); [|discriminate]. now intros [= <-].
Qed.

Lemma ok_shape_scalar x : ok_shape (scalar x) [].
Proof. intros a [= <-]. reflexivity. Qed.

Lemma ok_shape_broadcast2 {X Y W} `{Default X} `{Default Y} (g : X -> Y -> W)
    ra rb s1 s2 s :
  ok_shape ra s1 -> ok_shape rb s2 -> broadcast_shapes s1 s2 = Some s ->
  ok_shape (broadcast2 g ra rb) s.
Proof.
  intros H1 H2 Hbs a. destruct ra as [a1|]; simpl; [|discriminate].
  destruct rb as [a2|]; simpl; [|discriminate].
  rewrite (H1 a1 eq_refl), (H2 a2 eq_refl), Hbs. now intros [= <-].
Qed.

Lemma ok_shape_map1 {X Y} (g : X -> Y) r s : ok_shape r s -> ok_shape (map1 g r) s.
Proof.
  intros Hr a. destruct r as [a0|]; simpl; [|discriminate].
  intros [= <-]. simpl. now apply Hr.
Qed.

Lemma ok_shape_sum_axis r s axis :
  ok_shape r s -> ok_shape (sum_axis r axis) (drop_axis axis s).
Proof.
  intros Hr a. destruct r as [a0|]; simpl; [|discriminate].
  destruct (axis <? length (shape a0)); [|discriminate].
  intros [= <-]. simpl. now rewrite (Hr a0 eq_refl).
Qed.

End Shapes.

Ltac oks :=
  lazymatch goal with
  | |- ok_shape (scalar _) _ => apply ok_shape_scalar
  | |- ok_shape (reshape _ _) _ => apply ok_shape_reshape
  | |- ok_shape (tadd _ _) _ => eapply ok_shape_broadcast2; [oks | oks | bshape]
  | |- ok_shape (tsub _ _) _ => eapply ok_shape_broadcast2; [oks | oks | bshape]
  | |- ok_shape (tmul _ _) _ => eapply ok_shape_broadcast2; [oks | oks | bshape]
  | |- ok_shape (tpow _ _) _ => eapply ok_shape_map1; oks
  | |- ok_shape (sum_axis _ _) _ => eapply ok_shape_sum_axis; oks
  end.

Section GreedyPolicies.

Lemma B_ok_shape v constants sizes arrays :
  ok_shape (B v constants sizes arrays) [fst sizes; snd sizes; fst sizes].
Proof.
  destruct constants as [[[[β a_0] a_1] γ] c], sizes as [y_size z_size],
    arrays as [[y_grid z_grid] Q].
  unfold B, fst, snd. cbv zeta. oks.
Qed.

(** Whatever value function it is given, a policy returned by
    [get_greedy] has the shape y_size × z_size and its entries are indices
    of the grid of y. *)
Lemma get_greedy_valid v constants sizes arrays σ :
  get_greedy v constants sizes arrays = Ok σ -> valid_policy sizes σ.
Proof.
  unfold get_greedy, argmax_axis. pose proof (B_ok_shape v constants sizes arrays) as Hs.
  destruct (B v constants sizes arrays) as [b|]; simpl; [|discriminate].
  rewrite (Hs b eq_refl). simpl.
  destruct (Nat.ltb_spec 0 (fst sizes)) as [Hpos|]; [|discriminate].
  intros [= <-]. split.
  - apply has_shape_tabulate.
  - simpl. apply Forall_forall. intros k Hk. apply in_map_iff in Hk.
    destruct Hk as (idx & <- & _).
    assert (Hl : lane b 2 idx <> []).
    { unfold lane. rewrite (Hs b eq_refl). now apply map_seq_nonempty. }
    pose proof (argmax_list_spec _ Hl) as (Hlt & _).
    unfold lane in Hlt at 2. rewrite length_map, length_seq, (Hs b eq_refl) in Hlt.
    simpl in Hlt. lia.
Qed.

End GreedyPolicies.

Section GreedyBackup.

Variables (constants : constants_t) (sizes : sizes_t) (arrays : arrays_t).
Hypothesis Hmodel : model_shapes sizes arrays.
Hypothesis Hpos : 0 < fst sizes.

(** The backup of the greedy action is the maximal backup. *)
Lemma backup_greedy v σ i j :
  has_shape v (shape_of sizes) ->
  get_greedy v constants sizes arrays = Ok σ ->
  i < fst sizes -> j < snd sizes ->
  backup v constants sizes arrays i j (act σ i j) =
  max_list (map (backup v constants sizes arrays i j) (seq 0 (fst sizes))).
Proof.
  intros Hv Hσ Hi Hj.
  destruct (get_greedy_denotes constants sizes arrays Hmodel v Hv Hpos)
    as (σ' & Hσ' & _ & Hget).
  rewrite Hσ in Hσ'. injection Hσ' as <-.
  unfold act. rewrite Hget by (unfold shape_of; repeat constructor; assumption).
  cbn [nth]. rewrite Nat2Z.id.
  set (l := map (backup v constants sizes arrays i j) (seq 0 (fst sizes))).
  assert (Hl : l <> []) by (now apply map_seq_nonempty).
  rewrite <- (nth_argmax_list l Hl).
  destruct (argmax_list_spec l Hl) as (Hlt & _).
  unfold l in Hlt at 2. rewrite length_map, length_seq in Hlt.
  revert Hlt. generalize (argmax_list l). intros k Hk.
  unfold l. now rewrite nth_map_seq.
Qed.

Lemma T_σ_greedy_denotes v σ :
  has_shape v (shape_of sizes) ->
  get_greedy v constants sizes arrays = Ok σ ->
  T_σ v σ constants sizes arrays = T v constants sizes arrays /\
  T_σ_2 v σ constants sizes arrays = T v constants sizes arrays.
Proof.
  intros Hv Hσ. pose proof (get_greedy_valid _ _ _ _ _ Hσ) as Hvalid.
  pose proof (T_denotes constants sizes arrays Hmodel v Hv Hpos) as DT.
  assert (E : forall idx, in_bounds (shape_of sizes) idx ->
            (let i := nth 0 idx 0 in let j := nth 1 idx 0 in
             backup v constants sizes arrays i j (act σ i j)) =
            max_list (map (backup v constants sizes arrays (nth 0 idx 0) (nth 1 idx 0))
                          (seq 0 (fst sizes)))).
  { intros idx Hb. unfold shape_of in Hb. split_index. cbn [nth].
    now apply backup_greedy. }
  split.
  - apply (denotes_inj _ _ (shape_of sizes) _
             (denotes_ext _ _ _ _ E (T_σ_denotes constants sizes arrays Hmodel v σ Hv Hvalid))
             DT).
  - apply (denotes_inj _ _ (shape_of sizes) _
             (denotes_ext _ _ _ _ E (T_σ_2_denotes constants sizes arrays Hmodel v σ Hv Hvalid))
             DT).
Qed.

End GreedyBackup.

(** C10, as stated, fails in binary64 for the dense operator.  At the
    value function v = [[0, 5]] of the model above the greedy policy is
    [[0, 0]]; the dense operator applied with it returns
    3.5624999999999996 in both states, the Bellman operator 3.5625. *)
Lemma T_sigma_greedy_differs_from_T :
  F64.get_greedy rounding_v rounding_constants rounding_sizes rounding_arrays
  = Ok rounding_σ /\
  F64.T_σ rounding_v rounding_σ rounding_constants rounding_sizes rounding_arrays
  = Ok (mkarray [1; 2] [0x1.c7fffffffffffp+1%float; 0x1.c7fffffffffffp+1%float]) /\
  F64.T rounding_v rounding_constants rounding_sizes rounding_arrays
  = Ok (mkarray [1; 2] [0x1.c8p+1%float; 0x1.c8p+1%float]) /\
  F64.T_σ rounding_v rounding_σ rounding_constants rounding_sizes rounding_arrays
  <> F64.T rounding_v rounding_constants rounding_sizes rounding_arrays.
Proof.
  split; [vm_compute; reflexivity|]. split; [vm_compute; reflexivity|].
  split; [vm_compute; reflexivity|]. vm_compute. discriminate.
Qed.

(** C10, amended.  For every value function [v], the matrix-free policy
    operator applied with the greedy policy of [v] returns what the Bellman
    operator returns: T_σ_2(v, get_greedy(v)) = T(v).  The operator
    performs the operations of [B] at the action of the policy, in the
    same order, and the greedy action attains the maximum of the backup in
    every state. *)
Theorem T_sigma_2_greedy_is_T (v : ndarray Qc) (constants : constants_t)
    (sizes : sizes_t) (arrays : arrays_t) :
  model_shapes sizes arrays ->
  has_shape v (shape_of sizes) ->
  0 < fst sizes ->
  exists σ w,
    get_greedy v constants sizes arrays = Ok σ /\
    T_σ_2 v σ constants sizes arrays = Ok w /\
    T v constants sizes arrays = Ok w.
Proof.
  intros Hm Hv Hpos.
  destruct (get_greedy_denotes constants sizes arrays Hm v Hv Hpos)
    as (σ & Hσ & _).
  destruct (T_denotes constants sizes arrays Hm v Hv Hpos) as (w & Hw & _).
  exists σ, w. split; [exact Hσ|]. split; [|exact Hw].
  rewrite <- Hw. now apply T_σ_greedy_denotes.
Qed.

(** * Policies handled by the solvers *)

Section SolverPolicies.

Lemma valid_policy_zeros sizes : valid_policy sizes (zeros (shape_of sizes)).
Proof.
  split; [apply has_shape_tabulate|].
  unfold zeros, tabulate. cbn [data].
  apply Forall_forall. intros k Hk. apply in_map_iff in Hk.
  destruct Hk as (idx & <- & Hidx). apply in_indices in Hidx.
  unfold shape_of in Hidx. split_index. unfold dflt, Default_Z. lia.
Qed.

Lemma policy_iteration_step_valid {info} (bicgstab : _ -> _ -> result (_ * info))
    constants sizes arrays σ σ_new error :
  policy_iteration_step bicgstab constants sizes arrays σ = Ok (σ_new, error) ->
  valid_policy sizes σ_new.
Proof.
  unfold policy_iteration_step.
  destruct (get_value_2 bicgstab σ constants sizes arrays) as [v_σ|]; simpl;
    [|discriminate].
  destruct (get_greedy v_σ constants sizes arrays) as [σ'|] eqn:E; simpl;
    [|discriminate].
  destruct (amax_int _); simpl; [|discriminate].
  intros [= <- _]. now apply get_greedy_valid in E.
Qed.

Lemma policy_iteration_loop_valid {info} (bicgstab : _ -> _ -> result (_ * info))
    constants sizes arrays fuel :
  forall σ0 σ,
  policy_iteration_loop bicgstab fuel constants sizes arrays σ0 = Some (Ok σ) ->
  valid_policy sizes σ.
Proof.
  induction fuel as [|fuel IH]; intros σ0 σ; simpl; [discriminate|].
  destruct (policy_iteration_step bicgstab constants sizes arrays σ0)
    as [[σ_new error]|] eqn:E; [|discriminate].
  destruct (0 <? error)%Z.
  - apply IH.
  - intros [= <-]. now apply policy_iteration_step_valid in E.
Qed.

End SolverPolicies.

(** C9.  Every policy at the interface is valid: the initial policy of the
    Howard routine, every policy returned by [get_greedy] (whatever the
    value function; and for a value function of the right shape
    [get_greedy] does return one), the policy carried from one round of
    the Howard routine to the next, and the policies returned by
    [value_iteration], [policy_iteration] and [optimistic_policy_iteration]
    are integer arrays of shape y_size × z_size with every entry in
    [0, y_size). *)
Theorem policies_are_valid (constants : constants_t) (sizes : sizes_t)
    (arrays : arrays_t) :
  valid_policy sizes (zeros (shape_of sizes)) /\
  (forall v σ, get_greedy v constants sizes arrays = Ok σ -> valid_policy sizes σ) /\
  (forall v, model_shapes sizes arrays -> has_shape v (shape_of sizes) ->
     0 < fst sizes ->
     exists σ, get_greedy v constants sizes arrays = Ok σ /\ valid_policy sizes σ) /\
  (forall info (bicgstab : _ -> _ -> result (_ * info)) σ σ_new error,
     policy_iteration_step bicgstab constants sizes arrays σ = Ok (σ_new, error) ->
     valid_policy sizes σ_new) /\
  (forall max_iter tol σ,
     value_iteration max_iter (constants, sizes, arrays) tol = Ok σ ->
     valid_policy sizes σ) /\
  (forall info (bicgstab : _ -> _ -> result (_ * info)) fuel σ,
     policy_iteration bicgstab fuel (constants, sizes, arrays) = Some (Ok σ) ->
     valid_policy sizes σ) /\
  (forall fuel tol m σ,
     optimistic_policy_iteration fuel (constants, sizes, arrays) tol m = Some (Ok σ) ->
     valid_policy sizes σ).
Proof.
  split; [apply valid_policy_zeros|].
  split; [intros v σ; apply get_greedy_valid|].
  split.
  { intros v Hm Hv Hy.
    destruct (get_greedy_denotes constants sizes arrays Hm v Hv Hy) as (σ & Hσ & _).
    exists σ. split; [exact Hσ|]. now apply get_greedy_valid in Hσ. }
  split; [intros info bicgstab σ σ_new error; apply policy_iteration_step_valid|].
  split; [|split].
  - intros max_iter tol σ. unfold value_iteration.
    destruct (successive_approx _ _ _ _) as [v_star|]; simpl; [|discriminate].
    intros E. now apply get_greedy_valid in E.
  - intros info bicgstab fuel σ. unfold policy_iteration.
    apply policy_iteration_loop_valid.
  - intros fuel tol m σ. unfold optimistic_policy_iteration.
    destruct (PrimFloat.ltb tol (PrimFloat.add tol 1)).
    + destruct (optimistic_policy_iteration_loop _ _ _ _ _ _ _) as [[v|]|]; simpl;
        try discriminate.
      intros [= E]. now apply get_greedy_valid in E.
    + intros [= E]. now apply get_greedy_valid in E.
Qed.

(** * The Bellman operator is a contraction *)

Section Contraction.

Lemma Qcabs_nonneg x : (0 <= Qcabs x)%Qc.
Proof. unfold Qcabs. destruct (Qcltb_spec x 0); qc_arith. Qed.

Lemma Qcabs_le x c : (Qcabs x <= c)%Qc <-> (- c <= x /\ x <= c)%Qc.
Proof.
  unfold Qcabs. destruct (Qcltb_spec x 0); split.
  - intros H. split; qc_arith.
  - intros [H1 H2]. qc_arith.
  - intros H. split; qc_arith.
  - intros [H1 H2]. qc_arith.
Qed.


Lemma indices_in s idx : in_bounds s idx -> In idx (indices s).
Proof.
  intros Hb. rewrite <- (nth_indices s idx [] Hb). apply nth_In.
  rewrite length_indices. now apply ravel_lt.
Qed.

(** A weighted sum of terms bounded by [d], with non-negative weights. *)
Lemma total_weighted_bound {I} (a q : I -> Qc) (d : Qc) l :
  (forall x, In x l -> (- d <= a x /\ a x <= d /\ 0 <= q x)%Qc) ->
  (- (d * total (map q l)) <= total (map (fun x => a x * q x) l) /\
   total (map (fun x => a x * q x) l) <= d * total (map q l))%Qc.
Proof.
  induction l as [|x l IH]; intros Hall; simpl.
  - rewrite total_nil. split; qc_arith.
  - rewrite !total_cons.
    destruct IH as [IH1 IH2]; [intros y Hy; apply Hall; now right|].
    destruct (Hall x (or_introl eq_refl)) as (H1 & H2 & H3).
    set (A := total (map (fun x => a x * q x) l)%Qc) in *.
    set (S := total (map q l)) in *.
    generalize dependent (a x). generalize dependent (q x). intros qx Hq ax H1 H2.
    clearbody A S. clear Hall.
    assert (P1 : (0 <= (ax + d) * qx)%Qc).
    { replace 0%Qc with (0 * qx)%Qc by ring.
      apply Qcmult_le_compat_r; [qc_arith | exact Hq]. }
    assert (P2 : (0 <= (d - ax) * qx)%Qc).
    { replace 0%Qc with (0 * qx)%Qc by ring.
      apply Qcmult_le_compat_r; [qc_arith | exact Hq]. }
    split; qc_arith.
Qed.

Lemma total_sub {I} (f g : I -> Qc) l :
  (total (map f l) - total (map g l))%Qc = total (map (fun x => f x - g x)%Qc l).
Proof.
  induction l as [|x l IH]; simpl.
  - rewrite total_nil. ring.
  - rewrite !total_cons, <- IH. ring.
Qed.

End Contraction.

Section SupNorm.

Lemma zip_bdim_same s : zip_bdim s s = Some s.
Proof. induction s as [|d s IH]; simpl; [reflexivity|]. now rewrite bdim_same, IH. Qed.

Lemma broadcast_shapes_same s : broadcast_shapes s s = Some s.
Proof.
  unfold broadcast_shapes, pad. rewrite Nat.max_id, Nat.sub_diag. simpl.
  apply zip_bdim_same.
Qed.

Lemma clip_in_bounds s idx : in_bounds s idx -> clip s idx = idx.
Proof.
  unfold in_bounds. induction 1 as [|i d idx s Hi Hb IH]; simpl; [reflexivity|].
  now rewrite clip1_lt, IH.
Qed.

Lemma bidx_same s idx : in_bounds s idx -> bidx s idx = idx.
Proof.
  intros Hb. unfold bidx, pad. rewrite (in_bounds_length _ _ Hb), Nat.sub_diag.
  simpl. now apply clip_in_bounds.
Qed.

Lemma denotes_broadcast2_same {X Y W} `{Default X} `{Default Y} `{Default W}
    (g : X -> Y -> W) ra rb s f1 f2 :
  denotes ra s f1 -> denotes rb s f2 ->
  denotes (broadcast2 g ra rb) s (fun idx => g (f1 idx) (f2 idx)).
Proof.
  intros D1 D2.
  eapply denotes_ext; [|eapply denotes_broadcast2; eauto using broadcast_shapes_same].
  intros idx Hb. simpl. now rewrite bidx_same.
Qed.

Lemma indices_nonempty s : 0 < size s -> indices s <> [].
Proof.
  intros Hs E. apply (f_equal (@length _)) in E.
  rewrite length_indices in E. simpl in E. lia.
Qed.

(** The value of the sup-norm distance of two arrays of the same shape. *)
Lemma sup_dist_value v1 v2 s :
  has_shape v1 s -> has_shape v2 s -> 0 < size s ->
  sup_dist v1 v2 =
  Ok (max_list (map (fun idx => Qcabs (get v1 idx - get v2 idx)) (indices s))).
Proof.
  intros H1 H2 Hs. unfold sup_dist, absolute, tsub.
  assert (D : denotes (map1 Qcabs (broadcast2 Qcminus v1 v2)) s
                (fun idx => Qcabs (get v1 idx - get v2 idx))).
  { apply denotes_map1 with (f := fun idx => (get v1 idx - get v2 idx)%Qc).
    apply denotes_broadcast2_same; now apply denotes_array. }
  apply denotes_result in D. rewrite D. unfold amax, tabulate. simpl.
  destruct (map _ (indices s)) eqn:E; [|reflexivity].
  apply map_eq_nil in E. now apply indices_nonempty in E.
Qed.


End SupNorm.

Section ContractionProof.

Variables (β a_0 a_1 γ c : Qc) (y_size z_size : nat)
          (y_grid z_grid Q : ndarray Qc).

Let constants : constants_t := (β, a_0, a_1, γ, c).
Let sizes : sizes_t := (y_size, z_size).
Let arrays : arrays_t := (y_grid, z_grid, Q).

Hypothesis Hβ : (0 <= β)%Qc.
Hypothesis HQ : row_stochastic z_size Q.

Variables (v1 v2 : ndarray Qc) (d : Qc).
Hypothesis Hv1 : has_shape v1 [y_size; z_size].
Hypothesis Hv2 : has_shape v2 [y_size; z_size].
Hypothesis Hd : sup_dist v1 v2 = Ok d.


End ContractionProof.

Section ContractionTheorem.



Lemma max_list_close (f1 f2 : nat -> Qc) (n : nat) (e : Qc) :
  0 < n ->
  (forall k, k < n -> (f1 k <= f2 k + e)%Qc) ->
  (max_list (map f1 (seq 0 n)) <= max_list (map f2 (seq 0 n)) + e)%Qc.
Proof.
  intros Hn Hclose.
  pose proof (max_list_in _ (map_seq_nonempty f1 n Hn)) as Hin.
  apply in_map_iff in Hin. destruct Hin as (k & Hk & Hkin).
  apply in_seq in Hkin. rewrite <- Hk.
  eapply Qcle_trans; [apply Hclose; lia|].
  apply Qcplus_le_compat; [|apply Qcle_refl].
  apply max_list_upper. apply in_map. apply in_seq. lia.
Qed.

End ContractionTheorem.



(** * Optimistic policy iteration with one evaluation step *)

Section OptimisticOne.

Variables (constants : constants_t) (sizes : sizes_t) (arrays : arrays_t).
Hypothesis Hmodel : model_shapes sizes arrays.
Hypothesis Hy : 0 < fst sizes.
Hypothesis Hz : 0 < snd sizes.
Variable tol : Qc.





End OptimisticOne.


(** A tolerance that absorbs the 1 of [error = tol + 1]: the loop of the
    optimistic routine is not entered and the routine returns the policy
    that is greedy for the zero value function, whatever m; the
    fixed-point driver makes its first step. *)
Example opi_large_tolerance_skips_loop :
  PrimFloat.ltb 1e16%float (PrimFloat.add 1e16%float 1) = false /\
  (forall fuel m,
     optimistic_policy_iteration fuel patient_model 1e16%float m
     = Some (Ok (mkarray [2; 1] [0%Z; 1%Z]))) /\
  value_iteration 2 patient_model 1e16%float = Ok (mkarray [2; 1] [1%Z; 1%Z]).
Proof.
  split; [vm_compute; reflexivity|]. split; [|vm_compute; reflexivity].
  intros fuel m. vm_compute. reflexivity.
Qed.


(** * Policy evaluation by the Krylov solver *)

Section KrylovEvaluation.

Context {info : Type}.
Variable bicgstab :
  (ndarray Qc -> result (ndarray Qc)) -> ndarray Qc -> result (ndarray Qc * info).
Variables (constants : constants_t) (sizes : sizes_t) (arrays : arrays_t).
Hypothesis Hmodel : model_shapes sizes arrays.

(** [get_value_2] hands the operator [A] and the reward matrix of the
    policy to the solver. *)
Lemma get_value_2_unfold σ :
  valid_policy sizes σ ->
  get_value_2 bicgstab σ constants sizes arrays =
  (out <- bicgstab (fun v => A v σ constants sizes arrays)
                   (reward_matrix σ constants sizes arrays) ;;
   Ok (fst out)).
Proof.
  intros Hσ. pose proof (valid_policy_entry sizes σ) as Hentry.
  specialize (fun i j => Hentry i j Hσ). destruct Hσ as [Hσ _].
  unfold get_value_2, reward_matrix.
  destruct constants as [[[[β a_0] a_1] γ] c], sizes as [y_size z_size],
    arrays as [[y_grid z_grid] Q].
  destruct Hmodel as (Hy & Hz & HQ). unfold shape_of, fst, snd in *.
  assert (Dy : denotes (reshape y_grid [y_size; 1]) [y_size; 1]
                 (fun idx => get y_grid [nth 0 idx 0]))
    by reshape_leaf (fun idx : list nat => [nth 0 idx 0]).
  assert (Dz : denotes (reshape z_grid [1; z_size]) [1; z_size]
                 (fun idx => get z_grid [nth 1 idx 0]))
    by reshape_leaf (fun idx : list nat => [nth 1 idx 0]).
  cbv zeta.
  match goal with
  | |- bind ?r _ = _ =>
      assert (D : denotes r [y_size; z_size]
                    (fun idx =>
                       let i := nth 0 idx 0 in let j := nth 1 idx 0 in
                       reward (β, a_0, a_1, γ, c) (y_grid, z_grid, Q) i j (act σ i j)))
  end.
  { eapply denotes_conv; [den | reflexivity |].
    intros idx Hb. split_index. unfold reward, act. idx_simpl.
    rewrite !jnp_index_in_range by (apply Hentry; assumption). reflexivity. }
  apply denotes_result in D. rewrite D. reflexivity.
Qed.

End KrylovEvaluation.

(** X23.  [get_value_2] returns the first component of the pair that the
    Krylov solver returns for the operator [A] and the reward matrix of
    the policy, and discards the second component, the convergence
    information; it raises only what the solver raises.  No outcome of the
    solver makes it surface a flag or raise an error of its own. *)
Theorem get_value_2_first_component (info : Type)
    (bicgstab : (ndarray Qc -> result (ndarray Qc)) -> ndarray Qc ->
                result (ndarray Qc * info))
    (σ : ndarray Z) (constants : constants_t) (sizes : sizes_t)
    (arrays : arrays_t) :
  model_shapes sizes arrays ->
  valid_policy sizes σ ->
  get_value_2 bicgstab σ constants sizes arrays =
  match bicgstab (fun v => A v σ constants sizes arrays)
                 (reward_matrix σ constants sizes arrays) with
  | Ok (x, _) => Ok x
  | Raise e => Raise e
  end.
Proof.
  intros Hm Hσ. rewrite (get_value_2_unfold bicgstab constants sizes arrays Hm σ Hσ).
  destruct (bicgstab _ _) as [[x i]|e]; reflexivity.
Qed.

(** * The loop of the Howard routine *)

Section HowardLoop.

Context {info : Type}.
Variable bicgstab :
  (ndarray Qc -> result (ndarray Qc)) -> ndarray Qc -> result (ndarray Qc * info).
Variables (constants : constants_t) (sizes : sizes_t) (arrays : arrays_t).

Let step := policy_iteration_step bicgstab constants sizes arrays.
Let loop := fun fuel => policy_iteration_loop bicgstab fuel constants sizes arrays.
Let at_round := fun t => policy_at bicgstab t constants sizes arrays.

(** The loop returns a policy exactly when it has the fuel to reach a
    round that does not change the policy. *)
Lemma policy_iteration_loop_returns fuel : forall σ0 σ,
  loop fuel σ0 = Some (Ok σ) <->
  exists t σ_t error,
    t < fuel /\ at_round t σ0 = Some σ_t /\
    step σ_t = Ok (σ, error) /\ (error <= 0)%Z.
Proof.
  unfold loop, at_round, step.
  induction fuel as [|fuel IH]; intros σ0 σ; simpl.
  - split; [discriminate|]. intros (t & _ & _ & Ht & _). lia.
  - split.
    + destruct (policy_iteration_step bicgstab constants sizes arrays σ0) as [[σ_new error]|] eqn:E; [|discriminate].
      destruct (Z.ltb_spec 0 error) as [Hpos|Hle].
      * intros H. apply IH in H. destruct H as (t & σ_t & e & Ht & Hat & Hst & He).
        exists (S t), σ_t, e. simpl. rewrite E.
        destruct (Z.ltb_spec 0 error); [|lia]. repeat split; try assumption. lia.
      * intros [= <-]. exists 0, σ0, error. simpl. repeat split; try assumption. lia.
    + intros (t & σ_t & e & Ht & Hat & Hst & He). destruct t as [|t]; simpl in Hat.
      * injection Hat as <-. rewrite Hst.
        destruct (Z.ltb_spec 0 e); [lia|reflexivity].
      * destruct (policy_iteration_step bicgstab constants sizes arrays σ0) as [[σ_new error]|] eqn:E; [|discriminate].
        destruct (0 <? error)%Z; [|discriminate].
        apply IH. exists t, σ_t, e. repeat split; try assumption. lia.
Qed.

End HowardLoop.

Section HowardStable.

Context {info : Type}.
Variable bicgstab :
  (ndarray Qc -> result (ndarray Qc)) -> ndarray Qc -> result (ndarray Qc * info).
Variables (constants : constants_t) (sizes : sizes_t) (arrays : arrays_t).

Lemma fold_Zmax_ge l : forall x, (x <= fold_left Z.max l x)%Z.
Proof.
  induction l as [|y l IH]; intros x; simpl; [lia|].
  specialize (IH (Z.max x y)). lia.
Qed.

Lemma fold_Zmax_upper l : forall x y, In y l -> (y <= fold_left Z.max l x)%Z.
Proof.
  induction l as [|z l IH]; intros x y []; simpl.
  - subst z. pose proof (fold_Zmax_ge l (Z.max x y)). lia.
  - now apply IH.
Qed.

Lemma max_list_int_upper l x : In x l -> (x <= max_list_int l)%Z.
Proof.
  destruct l as [|y l]; intros []; simpl.
  - subst. apply fold_Zmax_ge.
  - now apply fold_Zmax_upper.
Qed.

Lemma arrays_equal {X} `{Default X} (a b : ndarray X) s :
  has_shape a s -> has_shape b s ->
  (forall idx, in_bounds s idx -> get a idx = get b idx) -> a = b.
Proof.
  intros Ha Hb Hget.
  assert (E : Ok a = Ok b).
  { apply (denotes_inj (Ok a) (Ok b) s (get b)).
    - exists a. repeat split; try apply Ha. exact Hget.
    - exists b. repeat split; try apply Hb. }
  now injection E.
Qed.

(** A round that reports no change returns the policy it was given. *)
Lemma policy_iteration_step_stable σ σ_new error :
  valid_policy sizes σ ->
  policy_iteration_step bicgstab constants sizes arrays σ = Ok (σ_new, error) ->
  (error <= 0)%Z -> σ_new = σ.
Proof.
  intros [Hσ _] Hstep He.
  unfold policy_iteration_step in Hstep.
  destruct (get_value_2 bicgstab σ constants sizes arrays) as [v_σ|];
    cbn [bind] in Hstep; [|discriminate].
  destruct (get_greedy v_σ constants sizes arrays) as [σ'|] eqn:Hg;
    cbn [bind] in Hstep; [|discriminate].
  assert (Hσ' : has_shape σ' (shape_of sizes))
    by (apply get_greedy_valid in Hg; apply Hg).
  assert (D : denotes (absolute_int (tsub_int σ' σ)) (shape_of sizes)
                (fun idx => Z.abs (get σ' idx - get σ idx))).
  { apply denotes_map1 with (f := fun idx => (get σ' idx - get σ idx)%Z).
    apply denotes_broadcast2_same; apply denotes_array; assumption. }
  apply denotes_result in D. rewrite D in Hstep. unfold amax_int in Hstep.
  cbn [bind tabulate data] in Hstep.
  destruct (map _ (indices (shape_of sizes))) as [|x l] eqn:E; [discriminate|].
  injection Hstep as <- <-.
  apply arrays_equal with (s := shape_of sizes); try assumption.
  intros idx Hb.
  assert (Hin : In (Z.abs (get σ' idx - get σ idx)) (x :: l)).
  { rewrite <- E. apply in_map_iff. exists idx. split; [reflexivity|].
    now apply indices_in. }
  apply max_list_int_upper in Hin. unfold max_list_int in *. lia.
Qed.

Lemma policy_at_valid t : forall σ0 σ_t,
  valid_policy sizes σ0 ->
  policy_at bicgstab t constants sizes arrays σ0 = Some σ_t ->
  valid_policy sizes σ_t.
Proof.
  induction t as [|t IH]; intros σ0 σ_t Hσ0; simpl.
  - now intros [= <-].
  - destruct (policy_iteration_step bicgstab constants sizes arrays σ0)
      as [[σ_new error]|] eqn:E; [|discriminate].
    destruct (0 <? error)%Z; [|discriminate].
    apply IH. now apply policy_iteration_step_valid in E.
Qed.

End HowardStable.

(** ** The rounds of the Howard routine in the small model *)

Section SmallHoward.

Lemma small_backup x :
  backup x small_constants small_sizes small_arrays 0 0 0
  = Qcmult (q 1 2) (get x [0; 0]) /\
  backup x small_constants small_sizes small_arrays 0 0 1
  = Qcminus (Qcmult (q 1 2) (get x [1; 0])) (q 1 1) /\
  backup x small_constants small_sizes small_arrays 1 0 0
  = Qcplus (Qcmult (q 1 2) (get x [0; 0])) (q 1 1) /\
  backup x small_constants small_sizes small_arrays 1 0 1
  = Qcplus (Qcmult (q 1 2) (get x [1; 0])) (q 2 1).
Proof.
  unfold backup, reward, continuation, total.
  cbn [small_constants small_sizes small_arrays map seq fold_left].
  change (get small_y_grid [0]) with (q 0 1). change (get small_y_grid [1]) with (q 1 1).
  change (get small_z_grid [0]) with (q 0 1). change (get small_Q [0; 0]) with (q 1 1).
  generalize (get x [0; 0]) (get x [1; 0]). intros x0 x1.
  change (q 0 1) with 0%Qc. change (q 1 1) with 1%Qc.
  change (q 3 1) with (1 + 1 + 1)%Qc. change (q 2 1) with (1 + 1)%Qc.
  change (Q2Qc 0) with 0%Qc.
  generalize (q 1 2). intros h. unfold Qcpower.
  repeat split; ring.
Qed.

Lemma get_greedy_small x :
  has_shape x [2; 1] ->
  get_greedy x small_constants small_sizes small_arrays =
  Ok (mkarray [2; 1]
        [Z.of_nat (argmax_list (map (backup x small_constants small_sizes small_arrays 0 0)
                                    (seq 0 2)));
         Z.of_nat (argmax_list (map (backup x small_constants small_sizes small_arrays 1 0)
                                    (seq 0 2)))]).
Proof.
  intros Hx.
  assert (Hm : model_shapes small_sizes small_arrays) by (repeat split; reflexivity).
  assert (Hy : 0 < fst small_sizes) by (simpl; lia).
  destruct (get_greedy_denotes small_constants small_sizes small_arrays Hm x Hx Hy)
    as (σ & Hσ & Hs & Hget).
  rewrite Hσ. f_equal.
  apply arrays_equal with (s := [2; 1]); [exact Hs | split; reflexivity |].
  intros idx Hb. rewrite (Hget idx Hb). split_index.
  destruct x0 as [|[|x0]]; [reflexivity | reflexivity | lia].
Qed.

(** The greedy policy of a value function within 1/8 of [v], where the
    backups of the two actions are more than 1/8 apart at [v]. *)
Lemma get_greedy_near x v (k0 k1 : bool) :
  within (q 1 8) x v -> shape v = [2; 1] ->
  (let v0 := get v [0; 0] in let v1 := get v [1; 0] in
   if k0 then (v0 + q 5 2 <= v1)%Qc else (v1 <= v0 + q 3 2)%Qc) ->
  (let v0 := get v [0; 0] in let v1 := get v [1; 0] in
   if k1 then (v0 <= v1 + q 3 2)%Qc else (v1 + q 5 2 <= v0)%Qc) ->
  get_greedy x small_constants small_sizes small_arrays =
  Ok (mkarray [2; 1] [if k0 then 1%Z else 0%Z; if k1 then 1%Z else 0%Z]).
Proof.
  intros [Hx Hclose] Hv H0 H1. cbv zeta in H0, H1. rewrite Hv in Hx, Hclose.
  rewrite (get_greedy_small x Hx).
  assert (Hb0 : in_bounds [2; 1] [0; 0]) by (repeat constructor).
  assert (Hb1 : in_bounds [2; 1] [1; 0]) by (repeat constructor).
  pose proof (Hclose _ Hb0) as C0. pose proof (Hclose _ Hb1) as C1.
  apply Qcabs_le in C0, C1. destruct C0 as [C0 C0'], C1 as [C1 C1'].
  destruct (small_backup x) as (E00 & E01 & E10 & E11).
  cbn [map seq]. rewrite E00, E01, E10, E11. unfold argmax_list, argmax_from.
  revert C0 C0' C1 C1' H0 H1.
  generalize (get x [0; 0]) (get x [1; 0]) (get v [0; 0]) (get v [1; 0]).
  intros x0 x1 v0 v1 C0 C0' C1 C1' H0 H1. unfold q in *.
  destruct (Qcltb_spec (Q2Qc (1 # 2) * x0) (Q2Qc (1 # 2) * x1 - Q2Qc 1)), k0;
    destruct (Qcltb_spec (Q2Qc (1 # 2) * x0 + Q2Qc 1)
                         (Q2Qc (1 # 2) * x1 + Q2Qc (2 # 1))), k1;
    try reflexivity; exfalso; qc_arith.
Qed.

Context {info : Type}.
Variable bicgstab :
  (ndarray Qc -> result (ndarray Qc)) -> ndarray Qc -> result (ndarray Qc * info).
Hypothesis Haccurate : accurate_small bicgstab.

Let step := policy_iteration_step bicgstab small_constants small_sizes small_arrays.

(** The three rounds of the Howard routine in the small model: the policy
    changes in the first and in the second, and not in the third. *)
Lemma small_rounds :
  step (zeros [2; 1]) = Ok (small_σ, 1%Z) /\
  step small_σ = Ok (small_σ_opt, 1%Z) /\
  step small_σ_opt = Ok (small_σ_opt, 0%Z).
Proof.
  unfold step, policy_iteration_step. repeat split.
  - destruct (Haccurate (zeros [2; 1]) small_v_0) as (x & -> & Hx); [simpl; auto|].
    cbn [bind].
    rewrite (get_greedy_near x small_v_0 false true Hx eq_refl)
      by (vm_compute; discriminate).
    reflexivity.
  - destruct (Haccurate small_σ small_v_σ) as (x & -> & Hx); [simpl; auto|].
    cbn [bind].
    rewrite (get_greedy_near x small_v_σ true true Hx eq_refl)
      by (vm_compute; discriminate).
    reflexivity.
  - destruct (Haccurate small_σ_opt small_v_opt) as (x & -> & Hx); [simpl; auto|].
    cbn [bind].
    rewrite (get_greedy_near x small_v_opt true true Hx eq_refl)
      by (vm_compute; discriminate).
    reflexivity.
Qed.

Lemma small_needs_three_rounds :
  policy_at bicgstab 2 small_constants small_sizes small_arrays
    (zeros (shape_of small_sizes)) = Some small_σ_opt /\
  policy_iteration bicgstab 2 small_model = None /\
  policy_iteration bicgstab 3 small_model = Some (Ok small_σ_opt).
Proof.
  destruct small_rounds as (E0 & E1 & E2). unfold step in *.
  change (zeros [2; 1]) with (zeros (shape_of small_sizes) : ndarray Z) in E0.
  unfold policy_iteration, small_model.
  cbn [policy_at policy_iteration_loop]. rewrite E0. cbn [Z.ltb Z.compare].
  rewrite E1. cbn [Z.ltb Z.compare]. rewrite E2. cbn [Z.ltb Z.compare].
  repeat split.
Qed.

End SmallHoward.

Lemma exact_krylov_2_accurate : accurate_small exact_krylov_2.
Proof.
  intros σ v [E|[E|[E|[]]]]; injection E as <- <-; eexists;
    (split; [vm_compute; reflexivity|]);
    (split; [split; reflexivity|]);
    intros idx Hb; cbn [shape small_v_0 small_v_σ small_v_opt] in Hb; split_index;
    match goal with H : _ < 2 |- _ => revert H end;
    match goal with |- ?n < 2 -> _ => destruct n as [|[|n]]; intros Hn;
      [vm_compute; discriminate | vm_compute; discriminate | lia] end.
Qed.



(** C6, as stated, fails: the routine takes no cap.  In the small model
    the policy changes in the first round and in the second, so that after
    two rounds the routine is still in its loop; it returns in the third
    round, with a policy and not with a NonConverged outcome.  A cap of two
    rounds is exceeded, with the exact solver and with every solver that
    evaluates the three policies within 1/8 of their values. *)
Lemma policy_iteration_exceeds_cap :
  accurate_small exact_krylov_2 /\
  policy_iteration exact_krylov_2 2 small_model = None /\
  policy_iteration exact_krylov_2 3 small_model = Some (Ok small_σ_opt) /\
  (forall (info : Type)
          (bicgstab : (ndarray Qc -> result (ndarray Qc)) -> ndarray Qc ->
                      result (ndarray Qc * info)),
     accurate_small bicgstab ->
     policy_at bicgstab 2 small_constants small_sizes small_arrays
       (zeros (shape_of small_sizes)) = Some small_σ_opt /\
     policy_iteration bicgstab 2 small_model = None /\
     policy_iteration bicgstab 3 small_model = Some (Ok small_σ_opt)).
Proof.
  split; [exact exact_krylov_2_accurate|].
  split; [vm_compute; reflexivity|]. split; [vm_compute; reflexivity|].
  intros info bicgstab Hacc. now apply small_needs_three_rounds.
Qed.

(** C6, amended.  The loop of the Howard routine has no cap and no outcome
    other than a policy: it returns exactly when, within its fuel, it
    reaches a round that leaves the policy unchanged, and it returns that
    policy. *)
Theorem policy_iteration_returns_stable_policy (info : Type)
    (bicgstab : (ndarray Qc -> result (ndarray Qc)) -> ndarray Qc ->
                result (ndarray Qc * info))
    (constants : constants_t) (sizes : sizes_t) (arrays : arrays_t)
    (fuel : nat) (σ : ndarray Z) :
  policy_iteration bicgstab fuel (constants, sizes, arrays) = Some (Ok σ) <->
  exists t error,
    t < fuel /\
    policy_at bicgstab t constants sizes arrays (zeros (shape_of sizes)) = Some σ /\
    policy_iteration_step bicgstab constants sizes arrays σ = Ok (σ, error) /\
    (error <= 0)%Z.
Proof.
  unfold policy_iteration. rewrite policy_iteration_loop_returns. split.
  - intros (t & σ_t & error & Ht & Hat & Hstep & He).
    assert (σ = σ_t).
    { apply (policy_iteration_step_stable bicgstab constants sizes arrays σ_t σ error);
        try assumption.
      apply (policy_at_valid bicgstab constants sizes arrays t _ _
               (valid_policy_zeros sizes) Hat). }
    subst σ_t. now exists t, error.
  - intros (t & error & Ht & Hat & Hstep & He). now exists t, σ, error.
Qed.

(** * Policy evaluation by the direct solve *)

Section FlatIndex.

Lemma divmod_lt r y z : r < y * z -> r / z < y /\ r mod z < z.
Proof.
  intros Hr. assert (0 < z) by nia. split.
  - apply Nat.Div0.div_lt_upper_bound. lia.
  - apply Nat.mod_upper_bound. lia.
Qed.

Lemma divmod_ravel z i j : j < z ->
  (i * z + j) / z = i /\ (i * z + j) mod z = j.
Proof.
  intros Hj. split.
  - rewrite Nat.div_add_l by lia. rewrite Nat.div_small by lia. lia.
  - rewrite Nat.add_comm, Nat.Div0.mod_add. now rewrite Nat.mod_small by lia.
Qed.

Lemma Ok_inj {X} (a b : X) : Ok a = Ok b -> a = b.
Proof. now intros [= ->]. Qed.

Lemma tabulate_get {X} `{Default X} s (f g : list nat -> X) idx :
  tabulate s f = tabulate s g -> in_bounds s idx -> f idx = g idx.
Proof.
  intros E Hb. rewrite <- (get_tabulate s f idx Hb), <- (get_tabulate s g idx Hb).
  now rewrite E.
Qed.

End FlatIndex.


Section DirectEvaluation.

Variable solve : ndarray Qc -> ndarray Qc -> result (ndarray Qc).
Variables (constants : constants_t) (sizes : sizes_t) (arrays : arrays_t).
Hypothesis Hmodel : model_shapes sizes arrays.

(** [get_value] hands the matrix I − β P_σ and the flattened reward matrix
    to the solver, and reshapes what the solver returns. *)
Lemma get_value_unfold σ :
  valid_policy sizes σ ->
  get_value solve σ constants sizes arrays =
  reshape (b <- reshape (reward_matrix σ constants sizes arrays)
                        [fst sizes * snd sizes] ;;
           solve (system_matrix σ constants sizes arrays) b)
          (shape_of sizes).
Proof.
  intros Hσ. pose proof (valid_policy_entry sizes σ) as Hentry.
  pose proof (act_lt sizes σ) as Hact.
  specialize (fun i j => Hentry i j Hσ). specialize (fun i j => Hact i j Hσ).
  destruct Hσ as [Hσ _].
  unfold get_value, reward_matrix, system_matrix.
  destruct constants as [[[[β a_0] a_1] γ] c], sizes as [y_size z_size],
    arrays as [[y_grid z_grid] Q].
  destruct Hmodel as (Hy & Hz & HQ). unfold shape_of, fst, snd in *.
  assert (Dy : denotes (reshape y_grid [y_size; 1]) [y_size; 1]
                 (fun idx => get y_grid [nth 0 idx 0]))
    by reshape_leaf (fun idx : list nat => [nth 0 idx 0]).
  assert (Dz : denotes (reshape z_grid [1; z_size]) [1; z_size]
                 (fun idx => get z_grid [nth 1 idx 0]))
    by reshape_leaf (fun idx : list nat => [nth 1 idx 0]).
  assert (Dyp : denotes (reshape (arange y_size) [1; 1; y_size; 1])
                  [1; 1; y_size; 1] (fun idx => Z.of_nat (nth 2 idx 0)))
    by reshape_leaf (fun idx : list nat => [nth 2 idx 0]).
  assert (Dσ : denotes (reshape σ [y_size; z_size; 1; 1]) [y_size; z_size; 1; 1]
                 (fun idx => get σ [nth 0 idx 0; nth 1 idx 0]))
    by reshape_leaf (fun idx : list nat => [nth 0 idx 0; nth 1 idx 0]).
  assert (DQ : denotes (reshape Q [1; z_size; 1; z_size]) [1; z_size; 1; z_size]
                 (fun idx => get Q [nth 1 idx 0; nth 3 idx 0]))
    by reshape_leaf (fun idx : list nat => [nth 1 idx 0; nth 3 idx 0]).
  assert (Did : denotes (ok_array (identity (y_size * z_size)))
                  [y_size * z_size; y_size * z_size]
                  (fun idx => if nth 0 idx 0 =? nth 1 idx 0 then 1%Qc else 0%Qc))
    by apply denotes_tabulate.
  cbv zeta.
  match goal with
  | |- reshape (bind ?m _) _ = _ =>
      assert (DM : denotes m [y_size * z_size; y_size * z_size]
                (fun idx =>
                   let r := nth 0 idx 0 in let c := nth 1 idx 0 in
                   ((if r =? c then 1 else 0)
                    - β * get (policy_matrix σ (y_size, z_size) (y_grid, z_grid, Q))
                            [r; c])%Qc))
  end.
  { eapply denotes_conv; [den | reflexivity |].
    intros idx Hb. split_index. rename x into r, x0 into c0. idx_simpl.
    destruct (divmod_lt r y_size z_size H2) as [Hi Hj].
    destruct (divmod_lt c0 y_size z_size H4) as [Hk Hjp].
    unfold policy_matrix.
    rewrite get_tabulate by (repeat constructor; assumption). cbn [nth].
    rewrite (unravel_ravel_eq [y_size; z_size; y_size; z_size]
               [y_size * z_size; y_size * z_size]
               [r / z_size; r mod z_size; c0 / z_size; c0 mod z_size]).
    - idx_simpl. unfold act.
      pose proof (Hentry _ _ Hi Hj).
      destruct (Z.eqb_spec (get σ [r / z_size; r mod z_size]) (Z.of_nat (c0 / z_size)));
        destruct (Nat.eqb_spec (c0 / z_size) (Z.to_nat (get σ [r / z_size; r mod z_size])));
        try (exfalso; lia).
      + change (Z2Qc 1) with 1%Qc. ring.
      + change (Z2Qc 0) with 0%Qc. ring.
    - repeat constructor; assumption.
    - simpl. pose proof (Nat.div_mod_eq r z_size). pose proof (Nat.div_mod_eq c0 z_size).
      nia. }
  apply denotes_result in DM. rewrite DM. cbn [bind].
  match goal with
  | |- reshape (bind (reshape ?r _) _) _ = _ =>
      assert (Dr : denotes r [y_size; z_size]
                    (fun idx =>
                       reward (β, a_0, a_1, γ, c) (y_grid, z_grid, Q)
                         (nth 0 idx 0) (nth 1 idx 0)
                         (act σ (nth 0 idx 0) (nth 1 idx 0))))
  end.
  { eapply denotes_conv; [den | reflexivity |].
    intros idx Hb. split_index. unfold reward, act. idx_simpl.
    rewrite !jnp_index_in_range by (apply Hentry; assumption). reflexivity. }
  apply denotes_result in Dr. rewrite Dr. reflexivity.
Qed.

End DirectEvaluation.

Section PolicyEquation.

(** A function that reproduces itself under a discounted stochastic
    average, with a discount below 1, is zero. *)
Lemma homogeneous_zero (f : nat -> nat -> Qc) (s : nat -> nat -> nat)
    (β : Qc) (Q : ndarray Qc) (y z : nat) :
  (0 <= β)%Qc -> (β < 1)%Qc -> row_stochastic z Q ->
  (forall i j, i < y -> j < z -> s i j < y) ->
  (forall i j, i < y -> j < z ->
     f i j = (β * total (map (fun jp => f (s i j) jp * get Q [j; jp]) (seq 0 z)))%Qc) ->
  forall i j, i < y -> j < z -> f i j = 0%Qc.
Proof.
  intros Hβ0 Hβ1 HQ Hs Hf i0 j0 Hi0 Hj0.
  set (l := map (fun idx => Qcabs (f (nth 0 idx 0) (nth 1 idx 0))) (indices [y; z])).
  set (N := max_list l).
  assert (Habs : forall i j, i < y -> j < z -> (Qcabs (f i j) <= N)%Qc).
  { intros i j Hi Hj. apply max_list_upper. unfold l.
    apply in_map_iff. exists [i; j]. split; [reflexivity|].
    apply indices_in. repeat constructor; assumption. }
  assert (Hstep : forall i j, i < y -> j < z -> (Qcabs (f i j) <= β * N)%Qc).
  { intros i j Hi Hj. rewrite (Hf i j Hi Hj).
    destruct (HQ j Hj) as [Hnn Hsum].
    destruct (total_weighted_bound (fun jp => f (s i j) jp)
                (fun jp => get Q [j; jp]) N (seq 0 z)) as [Hlo Hup].
    { intros jp Hjp. apply in_seq in Hjp.
      pose proof (Habs (s i j) jp (Hs i j Hi Hj) ltac:(lia)) as Ha.
      apply Qcabs_le in Ha. destruct Ha. repeat split; try assumption.
      apply Hnn. lia. }
    rewrite Hsum in Hlo, Hup.
    set (S := total (map (fun jp => f (s i j) jp * get Q [j; jp])%Qc (seq 0 z))) in *.
    clearbody S. apply Qcabs_le.
    assert (P1 : (0 <= β * (N * 1 - S))%Qc).
    { replace 0%Qc with (β * 0)%Qc by ring. rewrite !(Qcmult_comm β).
      apply Qcmult_le_compat_r; [qc_arith | exact Hβ0]. }
    assert (P2 : (0 <= β * (S + N * 1))%Qc).
    { replace 0%Qc with (β * 0)%Qc by ring. rewrite !(Qcmult_comm β).
      apply Qcmult_le_compat_r; [qc_arith | exact Hβ0]. }
    split; qc_arith. }
  assert (Hl : l <> []).
  { unfold l. intros E. apply map_eq_nil in E.
    apply indices_nonempty in E; [exact E|simpl; nia]. }
  assert (HN : (N <= β * N)%Qc).
  { pose proof (max_list_in l Hl) as Hin. unfold l in Hin at 2.
    apply in_map_iff in Hin. destruct Hin as (idx & Hidx & Hin).
    apply in_indices in Hin. split_index. fold N in Hidx. cbn [nth] in Hidx.
    pose proof (Hstep x x0 H2 H4) as H. now rewrite Hidx in H. }
  assert (HN0 : (0 <= N)%Qc).
  { eapply Qcle_trans; [apply Qcabs_nonneg | apply (Habs i0 j0 Hi0 Hj0)]. }
  assert (HNz : N = 0%Qc).
  { assert (P : (0 <= (1 - β) * N)%Qc).
    { replace 0%Qc with (0 * N)%Qc by ring.
      apply Qcmult_le_compat_r; [qc_arith | exact HN0]. }
    qc_arith. }
  pose proof (Habs i0 j0 Hi0 Hj0) as H0. rewrite HNz in H0.
  apply Qcabs_le in H0. destruct H0. qc_arith.
Qed.

End PolicyEquation.

Section LinearSystem.

Variables (constants : constants_t) (sizes : sizes_t) (arrays : arrays_t).
Hypothesis Hmodel : model_shapes sizes arrays.
Variable σ : ndarray Z.
Hypothesis Hσ : valid_policy sizes σ.

Let n := fst sizes * snd sizes.

Lemma flatten_denotes {X} `{Default X} (w : ndarray X) :
  has_shape w (shape_of sizes) ->
  denotes (reshape w [n]) [n]
    (fun idx => get w [nth 0 idx 0 / snd sizes; nth 0 idx 0 mod snd sizes]).
Proof.
  clear Hmodel Hσ. intros Hw. unfold n, shape_of in *.
  destruct sizes as [y_size z_size]. unfold fst, snd in *.
  eapply denotes_ext; cycle 1.
  - eapply (denotes_reshape _ _ _ _
              (fun idx => [nth 0 idx 0 / z_size; nth 0 idx 0 mod z_size])).
    + apply denotes_array. eassumption.
    + simpl. lia.
    + intros idx Hb. split_index. cbn [nth].
      destruct (divmod_lt x y_size z_size H3). split.
      * repeat constructor; assumption.
      * simpl. pose proof (Nat.div_mod_eq x z_size). nia.
  - intros idx Hb. reflexivity.
Qed.

(** Row (i, j) of (I − β P_σ) w is w[i, j] − β Σ_jp w[σ[i, j], jp] Q[j, jp]. *)
Lemma system_product w :
  has_shape w (shape_of sizes) ->
  denotes (matmul (system_matrix σ constants sizes arrays) (reshape w [n])) [n]
    (fun idx =>
       let r := nth 0 idx 0 in
       let i := r / snd sizes in let j := r mod snd sizes in
       (get w [i; j]
        - (let '(β, _, _, _, _) := constants in β)
          * continuation w (let '(_, _, Q) := arrays in Q) (snd sizes) (act σ i j) j)%Qc).
Proof.
  intros Hw. pose proof (flatten_denotes w Hw) as Dw.
  pose proof (act_lt sizes σ) as Hact. specialize (fun i j => Hact i j Hσ).
  assert (DM : denotes (ok_array (system_matrix σ constants sizes arrays)) [n; n]
                 (fun idx =>
                    let r := nth 0 idx 0 in let c := nth 1 idx 0 in
                    ((if r =? c then 1 else 0)
                     - (let '(β, _, _, _, _) := constants in β)
                       * get (policy_matrix σ sizes arrays) [r; c])%Qc)).
  { unfold system_matrix. destruct constants as [[[[β a_0] a_1] γ] c].
    apply denotes_tabulate. }
  eapply denotes_conv; [den | reflexivity |].
  unfold n in *. destruct constants as [[[[β a_0] a_1] γ] c],
    sizes as [y_size z_size], arrays as [[y_grid z_grid] Q].
  unfold fst, snd in *.
  intros idx Hb. split_index. rename x into r. cbn [nth].
  destruct (divmod_lt r y_size z_size H2) as [Hi Hj].
  set (i := r / z_size) in *. set (j := r mod z_size) in *.
  set (s := act σ i j). assert (Hs : s < y_size) by (now apply Hact).
  transitivity
    (Qcminus
       (total (map (fun t => Qcmult (if t =? r then 1%Qc else 0%Qc)
                                    (get w [t / z_size; t mod z_size]))
                   (seq 0 (y_size * z_size))))
       (Qcmult β
          (total (map (fun t => Qcmult
                                  (get (policy_matrix σ (y_size, z_size)
                                          (y_grid, z_grid, Q)) [r; t])
                                  (get w [t / z_size; t mod z_size]))
                      (seq 0 (y_size * z_size)))))).
  { rewrite <- total_scale, total_sub. apply total_ext. intros t Ht.
    rewrite (Nat.eqb_sym r t). ring. }
  rewrite total_indicator by exact H2. fold i j. f_equal. f_equal.
  rewrite total_flatten. unfold continuation.
  transitivity
    (total (map (fun k =>
       ((if k =? s then 1 else 0) *
        total (map (fun jp => get w [k; jp] * get Q [j; jp]) (seq 0 z_size)))%Qc)
       (seq 0 y_size))).
  - apply total_ext. intros k Hk. apply in_seq in Hk.
    rewrite <- total_scale. apply total_ext. intros jp Hjp. apply in_seq in Hjp.
    unfold policy_matrix.
    rewrite get_tabulate by (repeat constructor; nia). cbn [nth].
    fold i j. fold s.
    replace ((k * z_size + jp) / z_size) with k
      by (rewrite Nat.div_add_l by lia; rewrite Nat.div_small by lia; lia).
    replace ((k * z_size + jp) mod z_size) with jp
      by (rewrite Nat.add_comm, Nat.Div0.mod_add; now rewrite Nat.mod_small by lia).
    destruct (k =? s); ring.
  - now rewrite total_indicator.
Qed.

End LinearSystem.

Section PolicyValue.

Variables (β a_0 a_1 γ c : Qc) (y_size z_size : nat)
          (y_grid z_grid Q : ndarray Qc).

Let constants : constants_t := (β, a_0, a_1, γ, c).
Let sizes : sizes_t := (y_size, z_size).
Let arrays : arrays_t := (y_grid, z_grid, Q).
Let n := y_size * z_size.

Hypothesis Hmodel : model_shapes sizes arrays.
Variable σ : ndarray Z.
Hypothesis Hσ : valid_policy sizes σ.

Lemma reward_vector_denotes :
  denotes (reshape (reward_matrix σ constants sizes arrays) [n]) [n]
    (fun idx =>
       let r := nth 0 idx 0 in
       let i := r / z_size in let j := r mod z_size in
       reward constants arrays i j (act σ i j)).
Proof.
  eapply denotes_ext; [|apply (flatten_denotes sizes); apply has_shape_tabulate].
  intros idx Hb. unfold in_bounds in Hb. split_index. cbn [nth snd sizes].
  destruct (divmod_lt x y_size z_size H2).
  unfold reward_matrix. rewrite get_tabulate by (repeat constructor; assumption).
  reflexivity.
Qed.

(** The flattened linear system and the Bellman policy equation say the
    same of a value function. *)
Lemma system_iff_policy_equation w :
  has_shape w [y_size; z_size] ->
  matmul (system_matrix σ constants sizes arrays) (reshape w [n])
    = reshape (reward_matrix σ constants sizes arrays) [n] <->
  policy_equation w σ constants sizes arrays.
Proof.
  intros Hw.
  pose proof (system_product constants sizes arrays Hmodel σ Hσ w Hw) as D1.
  pose proof reward_vector_denotes as D2.
  cbn [fst snd sizes] in D1. fold n in D1. split.
  - intros E i j Hi Hj. cbn [fst snd sizes] in Hi, Hj.
    apply denotes_result in D1, D2. rewrite D1, D2 in E. apply Ok_inj in E.
    assert (Hb : in_bounds [n] [i * z_size + j]) by (repeat constructor; unfold n; nia).
    pose proof (tabulate_get _ _ _ _ E Hb) as Eij. cbn [nth] in Eij.
    destruct (divmod_ravel z_size i j Hj) as [E1 E2]. rewrite !E1, !E2 in Eij.
    unfold backup, constants, sizes, arrays in *.
    revert Eij. generalize (continuation w Q z_size (act σ i j) j).
    generalize (reward (β, a_0, a_1, γ, c) (y_grid, z_grid, Q) i j (act σ i j)).
    generalize (get w [i; j]). intros a b d H. qc_arith.
  - intros Hpe. apply (denotes_inj _ _ [n] _ D1).
    eapply denotes_ext; [|exact D2].
    intros idx Hb. unfold in_bounds in Hb. split_index. cbn [nth].
    destruct (divmod_lt x y_size z_size H2) as [Hi Hj].
    rewrite (Hpe _ _ Hi Hj). unfold backup, constants, sizes, arrays. ring.
Qed.

(** A value function is a fixed point of [T_σ] exactly when it satisfies
    the Bellman policy equation. *)
Lemma fixed_point_iff_policy_equation w :
  has_shape w [y_size; z_size] ->
  T_σ w σ constants sizes arrays = Ok w <->
  policy_equation w σ constants sizes arrays.
Proof.
  intros Hw.
  pose proof (T_σ_denotes constants sizes arrays Hmodel w σ Hw Hσ) as D.
  apply denotes_result in D. rewrite D. split.
  - intros [= E] i j Hi Hj. rewrite <- E at 1.
    now rewrite get_tabulate by (repeat constructor; assumption).
  - intros Hpe. f_equal.
    apply (arrays_equal _ _ (shape_of sizes)); [apply has_shape_tabulate|exact Hw|].
    intros idx Hb. rewrite get_tabulate by exact Hb.
    unfold in_bounds, shape_of in Hb. split_index. cbn [nth].
    symmetry. now apply Hpe.
Qed.

Hypothesis Hβ0 : (0 <= β)%Qc.
Hypothesis Hβ1 : (β < 1)%Qc.
Hypothesis HQ : row_stochastic z_size Q.

(** With a discount below 1 and a row-stochastic kernel the Bellman
    policy equation has at most one solution. *)
Lemma policy_equation_unique w1 w2 :
  has_shape w1 [y_size; z_size] -> has_shape w2 [y_size; z_size] ->
  policy_equation w1 σ constants sizes arrays ->
  policy_equation w2 σ constants sizes arrays ->
  w1 = w2.
Proof.
  intros H1 H2 P1 P2.
  apply (arrays_equal _ _ [y_size; z_size] H1 H2).
  intros idx Hb. unfold in_bounds in Hb. split_index.
  assert (E : (get w1 [x; x0] - get w2 [x; x0])%Qc = 0%Qc); [|qc_arith].
  apply (homogeneous_zero (fun i j => (get w1 [i; j] - get w2 [i; j])%Qc)
           (act σ) β Q y_size z_size Hβ0 Hβ1 HQ); try assumption.
  - intros i j Hi Hj. now apply (act_lt sizes σ).
  - intros i j Hi Hj. cbn beta. rewrite (P1 i j Hi Hj), (P2 i j Hi Hj).
    unfold backup, constants, sizes, arrays, continuation.
    rewrite (total_ext
               (fun jp => ((get w1 [act σ i j; jp] - get w2 [act σ i j; jp])
                           * get Q [j; jp])%Qc)
               (fun jp => (get w1 [act σ i j; jp] * get Q [j; jp]
                           - get w2 [act σ i j; jp] * get Q [j; jp])%Qc))
      by (intros; ring).
    rewrite <- total_sub. ring.
Qed.

End PolicyValue.

Section DirectSolve.

Variables (β a_0 a_1 γ c : Qc) (y_size z_size : nat)
          (y_grid z_grid Q : ndarray Qc).

Let constants : constants_t := (β, a_0, a_1, γ, c).
Let sizes : sizes_t := (y_size, z_size).
Let arrays : arrays_t := (y_grid, z_grid, Q).
Let n := y_size * z_size.

Hypothesis Hmodel : model_shapes sizes arrays.
Variable σ : ndarray Z.
Hypothesis Hσ : valid_policy sizes σ.
Hypothesis Hβ0 : (0 <= β)%Qc.
Hypothesis Hβ1 : (β < 1)%Qc.
Hypothesis HQ : row_stochastic z_size Q.

(** A vector of the flattened state, read as a value function. *)
Lemma unflatten (x : ndarray Qc) :
  has_shape x [n] ->
  has_shape (mkarray [y_size; z_size] (data x)) [y_size; z_size] /\
  reshape (mkarray [y_size; z_size] (data x)) [n] = Ok x /\
  reshape x [y_size; z_size] = Ok (mkarray [y_size; z_size] (data x)).
Proof.
  intros [Hs Hl]. unfold n in *. simpl in Hl.
  assert (Esz : size [y_size; z_size] = size [y_size * z_size]) by (simpl; lia).
  split; [|split].
  - split; [reflexivity|]. simpl. lia.
  - unfold reshape, ok_array. cbn [bind shape data]. rewrite Esz, Nat.eqb_refl.
    destruct x as [sx dx]. simpl in *. now subst sx.
  - unfold reshape, ok_array. cbn [bind]. rewrite Hs, <- Esz, Nat.eqb_refl.
    reflexivity.
Qed.

(** I − β P_σ has a trivial kernel. *)
Lemma system_matrix_nonsingular :
  nonsingular n (system_matrix σ constants sizes arrays).
Proof.
  intros x Hx Hzero.
  destruct (unflatten x Hx) as (Hw & Hflat & _).
  set (w := mkarray [y_size; z_size] (data x)) in *.
  pose proof (system_product constants sizes arrays Hmodel σ Hσ w Hw) as D.
  cbn [fst snd sizes] in D. fold n in D.
  pose proof (flatten_denotes sizes w Hw) as Dw.
  cbn [fst snd sizes] in Dw. fold n in Dw.
  rewrite Hflat in D, Dw. apply denotes_result in D.
  unfold ok_array in D, Hzero. rewrite D in Hzero. apply Ok_inj in Hzero.
  assert (Hw0 : forall i j, i < y_size -> j < z_size -> get w [i; j] = 0%Qc).
  { apply (homogeneous_zero (fun i j => get w [i; j]) (act σ) β Q y_size z_size
             Hβ0 Hβ1 HQ).
    - intros i j Hi Hj. now apply (act_lt sizes σ).
    - intros i j Hi Hj.
      assert (Hb : in_bounds [n] [i * z_size + j])
        by (repeat constructor; unfold n; nia).
      pose proof (tabulate_get _ _ _ _ Hzero Hb) as E. cbn [nth] in E.
      destruct (divmod_ravel z_size i j Hj) as [E1 E2]. rewrite !E1, !E2 in E.
      unfold continuation in E. unfold constants, arrays in E.
      revert E. generalize (get w [i; j]).
      generalize (total (map (fun jp => get w [act σ i j; jp] * get Q [j; jp])%Qc
                             (seq 0 z_size))).
      intros S a E. unfold dflt, Default_Qc in E. qc_arith. }
  apply (arrays_equal _ _ [n] Hx (has_shape_tabulate _ _)).
  intros idx Hb. destruct Dw as (x' & Ex & _ & Hget). apply Ok_inj in Ex. subst x'.
  rewrite (Hget idx Hb). unfold zeros. rewrite get_tabulate by exact Hb.
  unfold in_bounds in Hb. split_index. cbn [nth].
  destruct (divmod_lt x0 y_size z_size H2). now apply Hw0.
Qed.

End DirectSolve.

(** C3.  With an exact dense solver, a discount in [0, 1) and a
    row-stochastic kernel, [get_value] returns a value function v_σ that
    solves the flattened linear system (I − β P_σ) v_σ = r_σ, no other value
    function solves it, and v_σ is a fixed point of the policy operator:
    T_σ(v_σ, σ) = v_σ. *)
Theorem get_value_solves_policy_equation
    (solve : ndarray Qc -> ndarray Qc -> result (ndarray Qc))
    (σ : ndarray Z) (β a_0 a_1 γ c : Qc) (y_size z_size : nat)
    (y_grid z_grid Q : ndarray Qc) :
  let constants := (β, a_0, a_1, γ, c) in
  let sizes := (y_size, z_size) in
  let arrays := (y_grid, z_grid, Q) in
  let n := y_size * z_size in
  model_shapes sizes arrays ->
  valid_policy sizes σ ->
  (0 <= β)%Qc -> (β < 1)%Qc ->
  row_stochastic z_size Q ->
  exact_solver solve n ->
  exists v_σ,
    get_value solve σ constants sizes arrays = Ok v_σ /\
    has_shape v_σ [y_size; z_size] /\
    matmul (system_matrix σ constants sizes arrays) (reshape v_σ [n])
      = reshape (reward_matrix σ constants sizes arrays) [n] /\
    (forall w, has_shape w [y_size; z_size] ->
       matmul (system_matrix σ constants sizes arrays) (reshape w [n])
         = reshape (reward_matrix σ constants sizes arrays) [n] ->
       w = v_σ) /\
    T_σ v_σ σ constants sizes arrays = Ok v_σ.
Proof.
  intros constants sizes arrays n Hm Hσ Hβ0 Hβ1 HQ Hsolve.
  pose proof (reward_vector_denotes β a_0 a_1 γ c y_size z_size y_grid z_grid Q σ)
    as (b & Hb & Hbs & _).
  fold constants sizes arrays n in Hb.
  destruct (Hsolve (system_matrix σ constants sizes arrays) b) as (x & Hx & Hxs & Hsys).
  - unfold system_matrix, constants. apply has_shape_tabulate.
  - exact Hbs.
  - apply (system_matrix_nonsingular β a_0 a_1 γ c y_size z_size y_grid z_grid Q
             Hm σ Hσ Hβ0 Hβ1 HQ).
  - destruct (unflatten y_size z_size x Hxs) as (Hv & Hflat & Hunflat).
    set (v := mkarray [y_size; z_size] (data x)) in *.
    assert (Hsysv : matmul (system_matrix σ constants sizes arrays) (reshape v [n])
                    = reshape (reward_matrix σ constants sizes arrays) [n]).
    { fold n in Hflat. rewrite Hflat, Hb. exact Hsys. }
    pose proof (proj1 (system_iff_policy_equation β a_0 a_1 γ c y_size z_size
                         y_grid z_grid Q Hm σ Hσ v Hv) Hsysv) as Hpe.
    exists v. split; [|split; [exact Hv|split; [exact Hsysv|split]]].
    + rewrite (get_value_unfold solve constants sizes arrays Hm σ Hσ).
      cbn [fst snd sizes]. fold n. rewrite Hb. cbn [bind]. rewrite Hx.
      exact Hunflat.
    + intros w Hw Hsysw.
      apply (policy_equation_unique β a_0 a_1 γ c y_size z_size y_grid z_grid Q
               σ Hσ Hβ0 Hβ1 HQ w v Hw Hv); [|exact Hpe].
      now apply (system_iff_policy_equation β a_0 a_1 γ c y_size z_size
                   y_grid z_grid Q Hm σ Hσ w Hw).
    + now apply (fixed_point_iff_policy_equation β a_0 a_1 γ c y_size z_size
                   y_grid z_grid Q Hm σ Hσ v Hv).
Qed.

(** * The examples *)

Section Examples.

Lemma has_shape_2x2 (M : ndarray Qc) :
  has_shape M [2; 2] -> exists a b c d, M = mkarray [2; 2] [a; b; c; d].
Proof.
  destruct M as [s l]. intros [Hs Hl]. simpl in *. subst s.
  destruct l as [|a [|b [|c [|d [|? ?]]]]]; try discriminate.
  now exists a, b, c, d.
Qed.

Lemma has_shape_2 (x : ndarray Qc) :
  has_shape x [2] -> exists a b, x = mkarray [2] [a; b].
Proof.
  destruct x as [s l]. intros [Hs Hl]. simpl in *. subst s.
  destruct l as [|a [|b [|? ?]]]; try discriminate.
  now exists a, b.
Qed.

Lemma matmul_2x2 a b c d x0 x1 :
  matmul (mkarray [2; 2] [a; b; c; d]) (mkarray [2] [x0; x1]) =
  Ok (mkarray [2] [(a * x0 + b * x1)%Qc; (c * x0 + d * x1)%Qc]).
Proof.
  cbv [matmul bind ok_array shape data Nat.eqb tabulate indices flat_map map seq
       app get ravel size fold_right nth total fold_left Nat.mul Nat.add dflt Default_Qc].
  do 2 f_equal. f_equal; [ring|]. f_equal. ring.
Qed.

Lemma array_2_inj (a b a' b' : Qc) :
  mkarray [2] [a; b] = mkarray [2] [a'; b'] -> a = a' /\ b = b'.
Proof. intros [= -> ->]. auto. Qed.

Lemma zeros_2 : zeros [2] = mkarray [2] [0%Qc; 0%Qc].
Proof. reflexivity. Qed.

(** Cramer's rule is an exact solver for two equations. *)
Lemma solve_2x2_exact : exact_solver solve_2x2 2.
Proof.
  intros M b HM Hb Hns.
  destruct (has_shape_2x2 M HM) as (m00 & m01 & m10 & m11 & ->).
  destruct (has_shape_2 b Hb) as (b0 & b1 & ->).
  assert (Hdet : (m00 * m11 - m01 * m10)%Qc <> 0%Qc).
  { intros Hdet.
    assert (K1 : mkarray [2] [m11; (- m10)%Qc] = zeros [2]).
    { apply Hns; [split; reflexivity|]. rewrite matmul_2x2, zeros_2.
      do 2 f_equal. f_equal; [rewrite <- Hdet; ring|]. f_equal. ring. }
    rewrite zeros_2 in K1. apply array_2_inj in K1. destruct K1 as [E11 E10].
    assert (E10' : m10 = 0%Qc) by (rewrite <- (Qcopp_involutive m10), E10; ring).
    assert (K2 : mkarray [2] [m01; (- m00)%Qc] = zeros [2]).
    { apply Hns; [split; reflexivity|]. rewrite matmul_2x2, zeros_2.
      do 2 f_equal. f_equal; [ring|]. f_equal. rewrite E11, E10'. ring. }
    rewrite zeros_2 in K2. apply array_2_inj in K2. destruct K2 as [E01 E00].
    assert (E00' : m00 = 0%Qc) by (rewrite <- (Qcopp_involutive m00), E00; ring).
    assert (K3 : mkarray [2] [1%Qc; 0%Qc] = zeros [2]).
    { apply Hns; [split; reflexivity|]. rewrite matmul_2x2, zeros_2.
      do 2 f_equal. f_equal; [rewrite E00'; ring|]. f_equal. rewrite E10'. ring. }
    rewrite zeros_2 in K3. apply array_2_inj in K3. destruct K3 as [E _].
    discriminate E. }
  eexists. split; [reflexivity|]. split; [split; reflexivity|].
  cbv [get ravel shape data size fold_right nth Nat.mul Nat.add dflt Default_Qc].
  rewrite matmul_2x2. do 2 f_equal. f_equal; [|f_equal]; field; exact Hdet.
Qed.

End Examples.

Section SmallModel.

Lemma small_kernel_stochastic : row_stochastic 1 small_Q.
Proof.
  intros j Hj. assert (j = 0) by lia. subst j. split.
  - intros jp Hjp. assert (jp = 0) by lia. subst jp. discriminate.
  - apply Qc_is_canon. reflexivity.
Qed.

End SmallModel.

(** ** The theorems at the small model *)

Lemma B_bellman_backup_small :
  has_shape small_v [2; 1] /\
  exists b,
    B small_v small_constants small_sizes small_arrays = Ok b /\
    has_shape b [2; 1; 2] /\
    forall i j k, i < 2 -> j < 1 -> k < 2 ->
      get b [i; j; k] =
      ((q 3 1 - q 0 1 * get small_y_grid [i]
        + get small_z_grid [j] - q 1 1)
       * get small_y_grid [i]
       - q 1 1 * (get small_y_grid [k]
                  - get small_y_grid [i]) ^ 2
       + q 1 2 * total (map (fun jp => get small_v [k; jp]
                                       * get small_Q [j; jp])
                            (seq 0 1)))%Qc.
Proof.
  split; [split; reflexivity|].
  apply (B_bellman_backup small_v (q 1 2) (q 3 1) (q 0 1) (q 1 1) (q 1 1) 2 1
           small_y_grid small_z_grid
           small_Q); split; reflexivity.
Defined.


Lemma get_greedy_first_maximiser_small :
  model_shapes small_sizes small_arrays /\
  has_shape small_v (shape_of small_sizes) /\
  0 < fst small_sizes /\
  exists b σ,
    B small_v small_constants small_sizes small_arrays = Ok b /\
    get_greedy small_v small_constants small_sizes small_arrays = Ok σ /\
    forall i j, i < fst small_sizes -> j < snd small_sizes ->
      exists k,
        get σ [i; j] = Z.of_nat k /\ k < fst small_sizes /\
        (forall k', k' < fst small_sizes -> (get b [i; j; k'] <= get b [i; j; k])%Qc) /\
        (forall k', k' < k -> (get b [i; j; k'] < get b [i; j; k])%Qc).
Proof.
  assert (Hm : model_shapes small_sizes small_arrays) by (repeat split; reflexivity).
  assert (Hv : has_shape small_v (shape_of small_sizes)) by (split; reflexivity).
  assert (Hy : 0 < fst small_sizes) by (simpl; lia).
  split; [exact Hm|]. split; [exact Hv|]. split; [exact Hy|].
  apply (get_greedy_first_maximiser small_v small_constants small_sizes
           small_arrays Hm Hv Hy).
Defined.

Lemma T_sigma_2_greedy_is_T_small :
  model_shapes small_sizes small_arrays /\
  has_shape small_v (shape_of small_sizes) /\
  0 < fst small_sizes /\
  exists σ w,
    get_greedy small_v small_constants small_sizes small_arrays = Ok σ /\
    T_σ_2 small_v σ small_constants small_sizes small_arrays = Ok w /\
    T small_v small_constants small_sizes small_arrays = Ok w.
Proof.
  assert (Hm : model_shapes small_sizes small_arrays) by (repeat split; reflexivity).
  assert (Hv : has_shape small_v (shape_of small_sizes)) by (split; reflexivity).
  assert (Hy : 0 < fst small_sizes) by (simpl; lia).
  split; [exact Hm|]. split; [exact Hv|]. split; [exact Hy|].
  apply (T_sigma_2_greedy_is_T small_v small_constants small_sizes small_arrays
           Hm Hv Hy).
Defined.


Lemma get_value_solves_policy_equation_small :
  model_shapes small_sizes small_arrays /\
  valid_policy small_sizes small_σ /\
  (0 <= q 1 2)%Qc /\ (q 1 2 < 1)%Qc /\
  row_stochastic 1 small_Q /\
  exact_solver solve_2x2 (2 * 1) /\
  exists v_σ,
    get_value solve_2x2 small_σ small_constants small_sizes small_arrays = Ok v_σ /\
    has_shape v_σ [2; 1] /\
    matmul (system_matrix small_σ small_constants small_sizes small_arrays)
           (reshape v_σ [2 * 1])
      = reshape (reward_matrix small_σ small_constants small_sizes small_arrays)
                [2 * 1] /\
    (forall w, has_shape w [2; 1] ->
       matmul (system_matrix small_σ small_constants small_sizes small_arrays)
              (reshape w [2 * 1])
         = reshape (reward_matrix small_σ small_constants small_sizes small_arrays)
                   [2 * 1] ->
       w = v_σ) /\
    T_σ v_σ small_σ small_constants small_sizes small_arrays = Ok v_σ.
Proof.
  assert (Hm : model_shapes small_sizes small_arrays) by (repeat split; reflexivity).
  assert (Hσ : valid_policy small_sizes small_σ).
  { split; [split; reflexivity|]. repeat constructor; simpl; lia. }
  assert (Hβ0 : (0 <= q 1 2)%Qc) by discriminate.
  assert (Hβ1 : (q 1 2 < 1)%Qc) by reflexivity.
  split; [exact Hm|]. split; [exact Hσ|]. split; [exact Hβ0|]. split; [exact Hβ1|].
  split; [exact small_kernel_stochastic|]. split; [exact solve_2x2_exact|].
  apply (get_value_solves_policy_equation solve_2x2 small_σ
           (q 1 2) (q 3 1) (q 0 1) (q 1 1) (q 1 1) 2 1
           small_y_grid small_z_grid small_Q Hm Hσ Hβ0 Hβ1
           small_kernel_stochastic solve_2x2_exact).
Defined.

(** ** The solvers at the small model *)


(** On the small model the three routines return, and they return the
    same policy. *)
Example solvers_return_small :
  value_iteration 6 small_model 0.1875%float
    = Ok (mkarray [2; 1] [1%Z; 1%Z]) /\
  policy_iteration exact_krylov_2 5 small_model
    = Some (Ok (mkarray [2; 1] [1%Z; 1%Z])) /\
  optimistic_policy_iteration 6 small_model 0.1875%float 1
    = Some (Ok (mkarray [2; 1] [1%Z; 1%Z])) /\
  optimistic_policy_iteration 8 small_model 0.1875%float 3
    = Some (Ok (mkarray [2; 1] [1%Z; 1%Z])).
Proof. repeat split; vm_compute; reflexivity. Qed.

Lemma policies_are_valid_small :
  exists σ,
    optimistic_policy_iteration 6 small_model 0.1875%float 1 = Some (Ok σ) /\
    valid_policy small_sizes σ.
Proof.
  exists (mkarray [2; 1] [1%Z; 1%Z]).
  assert (E : optimistic_policy_iteration 6 small_model 0.1875%float 1
              = Some (Ok (mkarray [2; 1] [1%Z; 1%Z]))) by (vm_compute; reflexivity).
  split; [exact E|].
  destruct (policies_are_valid small_constants small_sizes small_arrays)
    as (_ & _ & _ & _ & _ & _ & Hopi).
  exact (Hopi 6 0.1875%float 1 _ E).
Defined.

Lemma policy_iteration_returns_stable_policy_small :
  policy_iteration exact_krylov_2 5 small_model
    = Some (Ok (mkarray [2; 1] [1%Z; 1%Z])) <->
  exists t error,
    t < 5 /\
    policy_at exact_krylov_2 t small_constants small_sizes small_arrays
      (zeros (shape_of small_sizes)) = Some (mkarray [2; 1] [1%Z; 1%Z]) /\
    policy_iteration_step exact_krylov_2 small_constants small_sizes small_arrays
      (mkarray [2; 1] [1%Z; 1%Z]) = Ok (mkarray [2; 1] [1%Z; 1%Z], error) /\
    (error <= 0)%Z.
Proof.
  apply (policy_iteration_returns_stable_policy bool exact_krylov_2 small_constants
           small_sizes small_arrays 5 (mkarray [2; 1] [1%Z; 1%Z])).
Defined.

Lemma get_value_2_first_component_small :
  model_shapes small_sizes small_arrays /\
  valid_policy small_sizes small_σ /\
  get_value_2 exact_krylov_2 small_σ small_constants small_sizes small_arrays =
  match exact_krylov_2 (fun v => A v small_σ small_constants small_sizes small_arrays)
                       (reward_matrix small_σ small_constants small_sizes
                          small_arrays) with
  | Ok (x, _) => Ok x
  | Raise e => Raise e
  end.
Proof.
  assert (Hm : model_shapes small_sizes small_arrays) by (repeat split; reflexivity).
  assert (Hσ : valid_policy small_sizes small_σ).
  { split; [split; reflexivity|]. repeat constructor; simpl; lia. }
  split; [exact Hm|]. split; [exact Hσ|].
  apply (get_value_2_first_component bool exact_krylov_2 small_σ small_constants
           small_sizes small_arrays Hm Hσ).
Defined.

(** An exact tie: in the small model the two actions of state (0, 0) have
    the same backup under [small_v], and the greedy policy takes the
    first. *)
Example get_greedy_tie_small :
  (exists b,
     B small_v small_constants small_sizes small_arrays = Ok b /\
     get b [0; 0; 0] = get b [0; 0; 1]) /\
  get_greedy small_v small_constants small_sizes small_arrays
    = Ok (mkarray [2; 1] [0%Z; 1%Z]).
Proof.
  split; [|vm_compute; reflexivity].
  eexists. split; [vm_compute; reflexivity|].
  apply Qc_is_canon. reflexivity.
Qed.

(** * The linear operator of the Krylov solver *)

Section KrylovOperator.

Variables (constants : constants_t) (sizes : sizes_t) (arrays : arrays_t).
Hypothesis Hmodel : model_shapes sizes arrays.

Lemma A_denotes v σ :
  has_shape v (shape_of sizes) -> valid_policy sizes σ ->
  denotes (A v σ constants sizes arrays) (shape_of sizes)
    (fun idx =>
       let i := nth 0 idx 0 in let j := nth 1 idx 0 in
       (get v [i; j]
        - (let '(β, _, _, _, _) := constants in β)
          * continuation v (let '(_, _, Q) := arrays in Q) (snd sizes) (act σ i j) j)%Qc).
Proof.
  intros Hv Hσ. pose proof (valid_policy_entry sizes σ) as Hentry.
  specialize (fun i j => Hentry i j Hσ). destruct Hσ as [Hσ _].
  destruct constants as [[[[β a_0] a_1] γ] c], sizes as [y_size z_size],
    arrays as [[y_grid z_grid] Q].
  destruct Hmodel as (Hy & Hz & HQ). unfold shape_of, fst, snd in *.
  unfold A.
  assert (Dzp : denotes (reshape (arange z_size) [1; 1; z_size]) [1; 1; z_size]
                 (fun idx => Z.of_nat (nth 2 idx 0)))
    by reshape_leaf (fun idx : list nat => [nth 2 idx 0]).
  assert (Dσ : denotes (reshape σ [y_size; z_size; 1]) [y_size; z_size; 1]
                 (fun idx => get σ [nth 0 idx 0; nth 1 idx 0]))
    by reshape_leaf (fun idx : list nat => [nth 0 idx 0; nth 1 idx 0]).
  assert (DQ : denotes (reshape Q [1; z_size; z_size]) [1; z_size; z_size]
                 (fun idx => get Q [nth 1 idx 0; nth 2 idx 0]))
    by reshape_leaf (fun idx : list nat => [nth 1 idx 0; nth 2 idx 0]).
  eapply denotes_conv; [cbv zeta; den | reflexivity |].
  intros idx Hb. split_index. unfold continuation, act. idx_simpl.
  rewrite !jnp_index_in_range by (apply Hentry; assumption).
  do 3 f_equal. apply map_ext_in. intros t Ht. apply in_seq in Ht.
  idx_simpl. rewrite jnp_index_of_nat by lia. reflexivity.
Qed.

End KrylovOperator.

(** X1.  For a value function [v] of shape y_size × z_size and a policy σ
    with entries in [0, y_size), the operator [A] handed to the Krylov
    solver returns the array of the same shape with
    A(v)[i, j] = v[i, j] − β Σ_jp v[σ[i, j], jp] Q[j, jp]. *)
Theorem A_residual_operator (v : ndarray Qc) (σ : ndarray Z) (β a_0 a_1 γ c : Qc)
    (y_size z_size : nat) (y_grid z_grid Q : ndarray Qc) :
  model_shapes (y_size, z_size) (y_grid, z_grid, Q) ->
  has_shape v [y_size; z_size] ->
  valid_policy (y_size, z_size) σ ->
  exists a,
    A v σ (β, a_0, a_1, γ, c) (y_size, z_size) (y_grid, z_grid, Q) = Ok a /\
    has_shape a [y_size; z_size] /\
    forall i j, i < y_size -> j < z_size ->
      get a [i; j] =
      (get v [i; j]
       - β * total (map (fun jp => get v [act σ i j; jp] * get Q [j; jp])
                        (seq 0 z_size)))%Qc.
Proof.
  intros Hm Hv Hσ.
  destruct (A_denotes (β, a_0, a_1, γ, c) (y_size, z_size) (y_grid, z_grid, Q)
              Hm v σ Hv Hσ) as (a & Ha & Hs & Hget).
  exists a. split; [exact Ha|]. split; [exact Hs|].
  intros i j Hi Hj. rewrite Hget by (repeat constructor; assumption). reflexivity.
Qed.

(** ** The Krylov operator and the evaluators at the small model *)

Lemma A_residual_operator_small :
  model_shapes small_sizes small_arrays /\
  has_shape small_v [2; 1] /\
  valid_policy small_sizes small_σ /\
  exists a,
    A small_v small_σ small_constants small_sizes small_arrays = Ok a /\
    has_shape a [2; 1] /\
    forall i j, i < 2 -> j < 1 ->
      get a [i; j] =
      (get small_v [i; j]
       - q 1 2 * total (map (fun jp => get small_v [act small_σ i j; jp]
                                        * get small_Q [j; jp])
                             (seq 0 1)))%Qc.
Proof.
  assert (Hm : model_shapes small_sizes small_arrays) by (repeat split; reflexivity).
  assert (Hv : has_shape small_v [2; 1]) by (split; reflexivity).
  assert (Hσ : valid_policy small_sizes small_σ).
  { split; [split; reflexivity|]. repeat constructor; simpl; lia. }
  split; [exact Hm|]. split; [exact Hv|]. split; [exact Hσ|].
  apply (A_residual_operator small_v small_σ (q 1 2) (q 3 1) (q 0 1) (q 1 1) (q 1 1)
           2 1 small_y_grid small_z_grid small_Q Hm Hv Hσ).
Defined.

(** * Order properties of the operators *)

Section OrderFacts.

Lemma total_le {I} (f g : I -> Qc) l :
  (forall x, In x l -> (f x <= g x)%Qc) ->
  (total (map f l) <= total (map g l))%Qc.
Proof.
  induction l as [|x l IH]; intros Hall; simpl.
  - apply Qcle_refl.
  - rewrite !total_cons. apply Qcplus_le_compat.
    + apply Hall. now left.
    + apply IH. intros y Hy. apply Hall. now right.
Qed.

Lemma Qcmult_le_compat_l x y z : (x <= y)%Qc -> (0 <= z)%Qc -> (z * x <= z * y)%Qc.
Proof. intros H Hz. rewrite !(Qcmult_comm z). now apply Qcmult_le_compat_r. Qed.

(** The backup of an action is monotone in the value function when the
    discount and the weights of the kernel are not negative. *)
Lemma backup_mono v1 v2 β a_0 a_1 γ c y_size z_size y_grid z_grid Q i j k :
  (0 <= β)%Qc ->
  (forall jp, jp < z_size -> (0 <= get Q [j; jp])%Qc) ->
  (forall jp, jp < z_size -> (get v1 [k; jp] <= get v2 [k; jp])%Qc) ->
  (backup v1 (β, a_0, a_1, γ, c) (y_size, z_size) (y_grid, z_grid, Q) i j k
   <= backup v2 (β, a_0, a_1, γ, c) (y_size, z_size) (y_grid, z_grid, Q) i j k)%Qc.
Proof.
  intros Hβ HQ Hv. unfold backup, continuation.
  apply Qcplus_le_compat; [apply Qcle_refl|].
  apply Qcmult_le_compat_l; [|exact Hβ].
  apply total_le. intros jp Hjp. apply in_seq in Hjp.
  apply Qcmult_le_compat_r; [apply Hv; lia | apply HQ; lia].
Qed.

End OrderFacts.

(** X4.  The Bellman operator is monotone: with a discount and kernel
    entries that are not negative, v1 ≤ v2 elementwise gives
    T(v1) ≤ T(v2) elementwise. *)
Theorem T_monotone (v1 v2 : ndarray Qc) (β a_0 a_1 γ c : Qc)
    (y_size z_size : nat) (y_grid z_grid Q : ndarray Qc) :
  model_shapes (y_size, z_size) (y_grid, z_grid, Q) ->
  has_shape v1 [y_size; z_size] -> has_shape v2 [y_size; z_size] ->
  0 < y_size ->
  (0 <= β)%Qc ->
  (forall j jp, j < z_size -> jp < z_size -> (0 <= get Q [j; jp])%Qc) ->
  (forall i j, i < y_size -> j < z_size -> (get v1 [i; j] <= get v2 [i; j])%Qc) ->
  exists w1 w2,
    T v1 (β, a_0, a_1, γ, c) (y_size, z_size) (y_grid, z_grid, Q) = Ok w1 /\
    T v2 (β, a_0, a_1, γ, c) (y_size, z_size) (y_grid, z_grid, Q) = Ok w2 /\
    forall i j, i < y_size -> j < z_size -> (get w1 [i; j] <= get w2 [i; j])%Qc.
Proof.
  intros Hm Hv1 Hv2 Hy Hβ HQ Hle.
  destruct (T_denotes (β, a_0, a_1, γ, c) _ _ Hm v1 Hv1 Hy) as (w1 & Hw1 & _ & Hg1).
  destruct (T_denotes (β, a_0, a_1, γ, c) _ _ Hm v2 Hv2 Hy) as (w2 & Hw2 & _ & Hg2).
  exists w1, w2. split; [exact Hw1|]. split; [exact Hw2|].
  intros i j Hi Hj.
  rewrite Hg1, Hg2 by (repeat constructor; assumption). cbn [nth fst].
  rewrite <- (Qcplus_0_r (max_list (map (backup v2 _ _ _ i j) _))).
  apply max_list_close; [exact Hy|]. intros k Hk. rewrite Qcplus_0_r.
  apply backup_mono; [exact Hβ | intros; now apply HQ | intros; now apply Hle].
Qed.

(** X5.  No policy does better than the maximisation in one step: for
    every policy σ with entries in [0, y_size), the matrix-free policy
    operator returns an array that is elementwise at most T(v).  It
    performs the operations of [B] at the action of the policy, and the
    maximum of a lane is at least each of its elements. *)
Theorem T_sigma_2_below_T (v : ndarray Qc) (σ : ndarray Z) (β a_0 a_1 γ c : Qc)
    (y_size z_size : nat) (y_grid z_grid Q : ndarray Qc) :
  model_shapes (y_size, z_size) (y_grid, z_grid, Q) ->
  has_shape v [y_size; z_size] ->
  valid_policy (y_size, z_size) σ ->
  0 < y_size ->
  exists w_σ w,
    T_σ_2 v σ (β, a_0, a_1, γ, c) (y_size, z_size) (y_grid, z_grid, Q) = Ok w_σ /\
    T v (β, a_0, a_1, γ, c) (y_size, z_size) (y_grid, z_grid, Q) = Ok w /\
    forall i j, i < y_size -> j < z_size -> (get w_σ [i; j] <= get w [i; j])%Qc.
Proof.
  intros Hm Hv Hσ Hy.
  destruct (T_σ_2_denotes (β, a_0, a_1, γ, c) _ _ Hm v σ Hv Hσ)
    as (w_σ & Hw_σ & _ & Hg1).
  destruct (T_denotes (β, a_0, a_1, γ, c) _ _ Hm v Hv Hy) as (w & Hw & _ & Hg2).
  exists w_σ, w. split; [exact Hw_σ|]. split; [exact Hw|].
  intros i j Hi Hj.
  rewrite Hg1, Hg2 by (repeat constructor; assumption). cbn [nth fst].
  apply max_list_upper. apply in_map. apply in_seq.
  pose proof (act_lt (y_size, z_size) σ i j Hσ Hi Hj) as Hk. simpl in Hk. lia.
Qed.

(** ** The order properties at the small model *)

Section SmallOrder.

Lemma small_kernel_nonneg j jp : j < 1 -> jp < 1 -> (0 <= get small_Q [j; jp])%Qc.
Proof. intros Hj Hjp. now apply (proj1 (small_kernel_stochastic j Hj)). Qed.

Lemma small_v_nonneg i j :
  i < 2 -> j < 1 -> (get small_vz [i; j] <= get small_v [i; j])%Qc.
Proof.
  intros Hi Hj. assert (j = 0) by lia. subst j.
  destruct i as [|[|i]]; [| |lia]; vm_compute; discriminate.
Qed.

Lemma small_σ_valid : valid_policy small_sizes small_σ.
Proof. split; [split; reflexivity|]. repeat constructor; simpl; lia. Qed.

Lemma small_model_shapes : model_shapes small_sizes small_arrays.
Proof. repeat split; reflexivity. Qed.

End SmallOrder.

Lemma T_monotone_small :
  model_shapes small_sizes small_arrays /\
  has_shape small_vz [2; 1] /\ has_shape small_v [2; 1] /\
  0 < 2 /\ (0 <= q 1 2)%Qc /\
  (forall j jp, j < 1 -> jp < 1 -> (0 <= get small_Q [j; jp])%Qc) /\
  (forall i j, i < 2 -> j < 1 ->
     (get small_vz [i; j] <= get small_v [i; j])%Qc) /\
  exists w1 w2,
    T small_vz small_constants small_sizes small_arrays = Ok w1 /\
    T small_v small_constants small_sizes small_arrays = Ok w2 /\
    forall i j, i < 2 -> j < 1 -> (get w1 [i; j] <= get w2 [i; j])%Qc.
Proof.
  assert (Hz : has_shape small_vz [2; 1]) by (split; reflexivity).
  assert (Hv : has_shape small_v [2; 1]) by (split; reflexivity).
  assert (Hy : 0 < 2) by lia.
  assert (Hβ : (0 <= q 1 2)%Qc) by discriminate.
  split; [exact small_model_shapes|]. split; [exact Hz|]. split; [exact Hv|].
  split; [exact Hy|]. split; [exact Hβ|]. split; [exact small_kernel_nonneg|].
  split; [exact small_v_nonneg|].
  apply (T_monotone small_vz small_v (q 1 2) (q 3 1) (q 0 1) (q 1 1) (q 1 1)
           2 1 small_y_grid small_z_grid small_Q small_model_shapes Hz Hv Hy Hβ
           small_kernel_nonneg small_v_nonneg).
Defined.

Lemma T_sigma_2_below_T_small :
  model_shapes small_sizes small_arrays /\
  has_shape small_v [2; 1] /\
  valid_policy small_sizes small_σ /\
  0 < 2 /\
  exists w_σ w,
    T_σ_2 small_v small_σ small_constants small_sizes small_arrays = Ok w_σ /\
    T small_v small_constants small_sizes small_arrays = Ok w /\
    forall i j, i < 2 -> j < 1 -> (get w_σ [i; j] <= get w [i; j])%Qc.
Proof.
  assert (Hv : has_shape small_v [2; 1]) by (split; reflexivity).
  assert (Hy : 0 < 2) by lia.
  split; [exact small_model_shapes|]. split; [exact Hv|].
  split; [exact small_σ_valid|]. split; [exact Hy|].
  apply (T_sigma_2_below_T small_v small_σ (q 1 2) (q 3 1) (q 0 1) (q 1 1) (q 1 1)
           2 1 small_y_grid small_z_grid small_Q small_model_shapes Hv
           small_σ_valid Hy).
Defined.

(** * Rounds of the optimistic routine *)

Section OptimisticRounds.

Variables (constants : constants_t) (sizes : sizes_t) (arrays : arrays_t).
Hypothesis Hmodel : model_shapes sizes arrays.
Hypothesis Hy : 0 < fst sizes.
Hypothesis Hz : 0 < snd sizes.

Lemma size_shape_pos : 0 < size (shape_of sizes).
Proof. unfold shape_of. simpl. nia. Qed.

(** The evaluation steps of a round return a value function. *)
Lemma iterate_T_σ_2_has_shape σ m : forall v,
  has_shape v (shape_of sizes) -> valid_policy sizes σ ->
  exists w, iterate_T_σ_2 m v σ constants sizes arrays = Ok w /\
            has_shape w (shape_of sizes).
Proof.
  induction m as [|m IH]; intros v Hv Hσ; simpl.
  - now exists v.
  - destruct (T_σ_2_denotes constants sizes arrays Hmodel v σ Hv Hσ)
      as (w & Hw & Hs & _).
    rewrite Hw. cbn [bind]. now apply IH.
Qed.

Lemma sup_dist_nonneg v1 v2 e :
  has_shape v1 (shape_of sizes) -> has_shape v2 (shape_of sizes) ->
  sup_dist v1 v2 = Ok e -> (0 <= e)%Qc.
Proof.
  intros H1 H2. rewrite (sup_dist_value v1 v2 _ H1 H2 size_shape_pos).
  intros [= <-].
  set (l := map _ _).
  assert (Hl : l <> []).
  { unfold l. intros E. apply map_eq_nil in E.
    now apply (indices_nonempty _ size_shape_pos). }
  pose proof (max_list_in l Hl) as Hin. unfold l in Hin at 2.
  apply in_map_iff in Hin. destruct Hin as (idx & <- & _). apply Qcabs_nonneg.
Qed.

Lemma sup_dist_self v :
  has_shape v (shape_of sizes) -> sup_dist v v = Ok 0%Qc.
Proof.
  intros Hv. rewrite (sup_dist_value v v _ Hv Hv size_shape_pos). f_equal.
  set (l := map _ _).
  assert (Hl : l <> []).
  { unfold l. intros E. apply map_eq_nil in E.
    now apply (indices_nonempty _ size_shape_pos). }
  pose proof (max_list_in l Hl) as Hin. unfold l in Hin at 2.
  apply in_map_iff in Hin. destruct Hin as (idx & <- & _).
  replace (get v idx - get v idx)%Qc with 0%Qc by ring. reflexivity.
Qed.

(** A round of the loop, entered with a value function, returns the next
    value function and a distance that is not negative. *)
Lemma opi_round m v :
  has_shape v (shape_of sizes) ->
  exists σ v' e,
    get_greedy v constants sizes arrays = Ok σ /\
    valid_policy sizes σ /\
    iterate_T_σ_2 m v σ constants sizes arrays = Ok v' /\
    has_shape v' (shape_of sizes) /\
    amax (absolute (tsub v' v)) = Ok e /\
    (0 <= e)%Qc.
Proof.
  intros Hv.
  destruct (get_greedy_denotes constants sizes arrays Hmodel v Hv Hy)
    as (σ & Hσ & _).
  pose proof (get_greedy_valid _ _ _ _ _ Hσ) as Hvalid.
  destruct (iterate_T_σ_2_has_shape σ m v Hv Hvalid) as (v' & Hv' & Hs').
  pose proof (sup_dist_value v' v _ Hs' Hv size_shape_pos) as He.
  eexists σ, v', _. split; [exact Hσ|]. split; [exact Hvalid|].
  split; [exact Hv'|]. split; [exact Hs'|]. split; [exact He|].
  now apply (sup_dist_nonneg v' v _ Hs' Hv).
Qed.


(** Without evaluation steps the first round leaves the value function
    unchanged, and the loop is left at once when the tolerance is not
    negative. *)
Lemma opi_loop_no_evaluation tol fuel v :
  (0 <= tol)%Qc -> has_shape v (shape_of sizes) ->
  optimistic_policy_iteration_loop (S fuel) constants sizes arrays tol 0 v
  = Some (Ok v).
Proof.
  intros Htol Hv.
  destruct (get_greedy_denotes constants sizes arrays Hmodel v Hv Hy)
    as (σ & Hσ & _).
  cbn [optimistic_policy_iteration_loop iterate_T_σ_2]. rewrite Hσ. cbn [bind].
  pose proof (sup_dist_self v Hv) as He. unfold sup_dist in He. rewrite He.
  cbn [bind].
  destruct (Qcltb_spec tol 0) as [Hlt|_]; [|reflexivity].
  exfalso. qc_arith.
Qed.

End OptimisticRounds.


(** X10.  With m = 0 the optimistic routine performs no evaluation step:
    for every tolerance that is not negative it returns the policy that is
    greedy for the zero value function, after the first round of its loop
    or, where the tolerance absorbs the 1 of [tol + 1], without entering
    it. *)
Theorem opi_no_evaluation_returns_myopic (constants : constants_t)
    (sizes : sizes_t) (arrays : arrays_t) (tol : float) (fuel : nat) :
  model_shapes sizes arrays ->
  0 < fst sizes -> 0 < snd sizes ->
  (0 <= float_to_Qc tol)%Qc ->
  optimistic_policy_iteration (S fuel) (constants, sizes, arrays) tol 0
  = Some (get_greedy (zeros (shape_of sizes)) constants sizes arrays).
Proof.
  intros Hm Hy Hz Htol. unfold optimistic_policy_iteration.
  destruct (PrimFloat.ltb tol (PrimFloat.add tol 1)); [|reflexivity].
  rewrite (opi_loop_no_evaluation constants sizes arrays Hm Hy Hz _ fuel _ Htol)
    by apply has_shape_tabulate.
  reflexivity.
Qed.


Lemma opi_no_evaluation_returns_myopic_small :
  model_shapes small_sizes small_arrays /\
  0 < fst small_sizes /\ 0 < snd small_sizes /\
  (0 <= float_to_Qc 0.125%float)%Qc /\
  optimistic_policy_iteration 1 small_model 0.125%float 0
  = Some (get_greedy (zeros (shape_of small_sizes)) small_constants small_sizes
            small_arrays).
Proof.
  assert (Hy : 0 < fst small_sizes) by (simpl; lia).
  assert (Hz : 0 < snd small_sizes) by (simpl; lia).
  assert (Htol : (0 <= float_to_Qc 0.125%float)%Qc) by (vm_compute; discriminate).
  split; [exact small_model_shapes|]. split; [exact Hy|]. split; [exact Hz|].
  split; [exact Htol|].
  apply (opi_no_evaluation_returns_myopic small_constants small_sizes small_arrays
           0.125%float 0 small_model_shapes Hy Hz Htol).
Defined.

(** * Errors raised by the operators *)

Section OperatorErrors.

Variables (constants : constants_t) (sizes : sizes_t) (arrays : arrays_t).
Hypothesis Hmodel : model_shapes sizes arrays.

(** The reshape of [v] in [B] is the only place where the value function
    is looked at: a value function with another number of elements is
    rejected there. *)
Lemma B_wrong_size v :
  size (shape v) <> fst sizes * snd sizes ->
  B v constants sizes arrays = Raise TypeError.
Proof.
  destruct constants as [[[[β a_0] a_1] γ] c], sizes as [y_size z_size],
    arrays as [[y_grid z_grid] Q].
  destruct Hmodel as (Hy & Hz & HQ). unfold fst, snd.
  intros Hsize. unfold B.
  assert (Dy : denotes (reshape y_grid [y_size; 1; 1]) [y_size; 1; 1]
                 (fun idx => get y_grid [nth 0 idx 0]))
    by reshape_leaf (fun idx : list nat => [nth 0 idx 0]).
  assert (Dz : denotes (reshape z_grid [1; z_size; 1]) [1; z_size; 1]
                 (fun idx => get z_grid [nth 1 idx 0]))
    by reshape_leaf (fun idx : list nat => [nth 1 idx 0]).
  assert (Dyp : denotes (reshape y_grid [1; 1; y_size]) [1; 1; y_size]
                 (fun idx => get y_grid [nth 2 idx 0]))
    by reshape_leaf (fun idx : list nat => [nth 2 idx 0]).
  cbv zeta.
  match goal with
  | |- tadd ?R _ = _ =>
      assert (DR : exists f, denotes R [y_size; z_size; y_size] f)
        by (eexists; den);
      destruct DR as (f & r & -> & _)
  end.
  assert (Ev : reshape v [1; 1; y_size; z_size] = Raise TypeError).
  { unfold reshape, ok_array. cbn [bind].
    destruct (Nat.eqb_spec (size (shape v)) (size [1; 1; y_size; z_size])) as [E|];
      [|reflexivity].
    exfalso. apply Hsize. simpl in E. lia. }
  rewrite Ev. reflexivity.
Qed.

End OperatorErrors.

(** X11.  In a well-formed model a value function whose number of
    elements is not y_size · z_size is rejected with a TypeError by [B], and
    so by [T] and by [get_greedy]. *)
Theorem operators_reject_wrong_size (v : ndarray Qc) (constants : constants_t)
    (sizes : sizes_t) (arrays : arrays_t) :
  model_shapes sizes arrays ->
  size (shape v) <> fst sizes * snd sizes ->
  B v constants sizes arrays = Raise TypeError /\
  T v constants sizes arrays = Raise TypeError /\
  get_greedy v constants sizes arrays = Raise TypeError.
Proof.
  intros Hm Hsize. unfold T, get_greedy.
  rewrite (B_wrong_size constants sizes arrays Hm v Hsize).
  repeat split; reflexivity.
Qed.

Lemma operators_reject_wrong_size_small :
  model_shapes small_sizes small_arrays /\
  size (shape small_z_grid) <> fst small_sizes * snd small_sizes /\
  B small_z_grid small_constants small_sizes small_arrays = Raise TypeError /\
  T small_z_grid small_constants small_sizes small_arrays = Raise TypeError /\
  get_greedy small_z_grid small_constants small_sizes small_arrays = Raise TypeError.
Proof.
  assert (Hsize : size (shape small_z_grid) <> fst small_sizes * snd small_sizes).
  { simpl. lia. }
  split; [exact small_model_shapes|]. split; [exact Hsize|].
  apply (operators_reject_wrong_size small_z_grid small_constants small_sizes
           small_arrays small_model_shapes Hsize).
Defined.

(** * The empty state space *)

Section EmptyStateSpace.

Variables (constants : constants_t) (sizes : sizes_t) (arrays : arrays_t).
Hypothesis Hmodel : model_shapes sizes arrays.

(** With an empty grid of y there is no action to maximise over. *)
Lemma no_action_raises v :
  has_shape v (shape_of sizes) -> fst sizes = 0 ->
  T v constants sizes arrays = Raise ValueError /\
  get_greedy v constants sizes arrays = Raise ValueError.
Proof.
  intros Hv Hy.
  destruct (B_denotes constants sizes arrays Hmodel v Hv) as (b & Hb & [Hs _] & _).
  unfold T, get_greedy, max_axis, argmax_axis. rewrite Hb. cbn [bind].
  rewrite Hs, Hy. split; reflexivity.
Qed.

(** The maximum of the distance of two empty arrays raises. *)
Lemma sup_dist_empty v1 v2 s :
  has_shape v1 s -> has_shape v2 s -> size s = 0 ->
  amax (absolute (tsub v1 v2)) = Raise ValueError.
Proof.
  clear Hmodel. intros H1 H2 Hs.
  assert (D : denotes (tsub v1 v2) s (fun idx => (get v1 idx - get v2 idx)%Qc))
    by (apply denotes_broadcast2_same; now apply denotes_array).
  destruct D as (a & Ha & [_ Hl] & _).
  unfold amax, absolute, map1. rewrite Ha. cbn [bind data].
  rewrite Hs in Hl. destruct (data a); [reflexivity|discriminate].
Qed.

Lemma opi_loop_empty tol m fuel v :
  has_shape v (shape_of sizes) -> fst sizes * snd sizes = 0 ->
  optimistic_policy_iteration_loop (S fuel) constants sizes arrays tol m v
  = Some (Raise ValueError).
Proof.
  intros Hv Hn. cbn [optimistic_policy_iteration_loop].
  destruct (Nat.eq_dec (fst sizes) 0) as [Hy|Hy].
  - destruct (no_action_raises v Hv Hy) as [_ ->]. reflexivity.
  - assert (Hpos : 0 < fst sizes) by lia.
    destruct (get_greedy_denotes constants sizes arrays Hmodel v Hv Hpos)
      as (σ & Hσ & _).
    pose proof (get_greedy_valid _ _ _ _ _ Hσ) as Hvalid.
    destruct (iterate_T_σ_2_has_shape constants sizes arrays Hmodel σ m v Hv Hvalid)
      as (v' & Hv' & Hs').
    rewrite Hσ. cbn [bind]. rewrite Hv'. cbn [bind].
    rewrite (sup_dist_empty v' v (shape_of sizes) Hs' Hv)
      by (unfold shape_of; simpl; lia).
    reflexivity.
Qed.

End EmptyStateSpace.

(** X12.  On an empty state space nothing can be maximised.  With
    y_size = 0 the maximum and the argmax over the actions raise a
    ValueError in [T] and in [get_greedy], and the optimistic routine raises
    it for every tolerance and every m.  With z_size = 0 the optimistic
    routine raises a ValueError in the first round of its loop, from the
    maximum of an empty distance, whenever the loop is entered
    (tol + 1 > tol in binary64). *)
Theorem empty_state_space_raises (v : ndarray Qc) (constants : constants_t)
    (sizes : sizes_t) (arrays : arrays_t) (tol : float) (m fuel : nat) :
  model_shapes sizes arrays ->
  has_shape v (shape_of sizes) ->
  fst sizes * snd sizes = 0 ->
  (fst sizes = 0 ->
   T v constants sizes arrays = Raise ValueError /\
   get_greedy v constants sizes arrays = Raise ValueError) /\
  (fst sizes = 0 \/ PrimFloat.ltb tol (PrimFloat.add tol 1) = true ->
   optimistic_policy_iteration (S fuel) (constants, sizes, arrays) tol m
   = Some (Raise ValueError)).
Proof.
  intros Hm Hv Hn. split.
  - intros Hy. now apply no_action_raises.
  - intros Hcase. unfold optimistic_policy_iteration.
    destruct (PrimFloat.ltb tol (PrimFloat.add tol 1)).
    + rewrite (opi_loop_empty constants sizes arrays Hm (float_to_Qc tol) m fuel
                 (zeros (shape_of sizes)) (has_shape_tabulate _ _) Hn).
      reflexivity.
    + destruct Hcase as [Hy|Hf]; [|discriminate].
      destruct (no_action_raises constants sizes arrays Hm (zeros (shape_of sizes))
                  (has_shape_tabulate _ _) Hy) as [_ ->].
      reflexivity.
Qed.

Lemma empty_state_space_raises_empty :
  model_shapes empty_sizes empty_arrays /\
  has_shape empty_v (shape_of empty_sizes) /\
  fst empty_sizes * snd empty_sizes = 0 /\
  (fst empty_sizes = 0 ->
   T empty_v small_constants empty_sizes empty_arrays = Raise ValueError /\
   get_greedy empty_v small_constants empty_sizes empty_arrays = Raise ValueError) /\
  (fst empty_sizes = 0 \/
   PrimFloat.ltb 0.125%float (PrimFloat.add 0.125%float 1) = true ->
   optimistic_policy_iteration 1 (small_constants, empty_sizes, empty_arrays)
     0.125%float 3 = Some (Raise ValueError)).
Proof.
  assert (Hm : model_shapes empty_sizes empty_arrays) by (repeat split; reflexivity).
  assert (Hv : has_shape empty_v (shape_of empty_sizes)) by (split; reflexivity).
  assert (Hn : fst empty_sizes * snd empty_sizes = 0) by reflexivity.
  split; [exact Hm|]. split; [exact Hv|]. split; [exact Hn|].
  apply (empty_state_space_raises empty_v small_constants empty_sizes empty_arrays
           0.125%float 3 0 Hm Hv Hn).
Defined.

(** * The routines raise no error of their own *)

Section NoErrors.

Variables (constants : constants_t) (sizes : sizes_t) (arrays : arrays_t).
Hypothesis Hmodel : model_shapes sizes arrays.
Hypothesis Hy : 0 < fst sizes.
Hypothesis Hz : 0 < snd sizes.

(** The loop of the optimistic routine is left, if at all, with a value
    function. *)
Lemma opi_loop_no_error tol m fuel : forall v,
  has_shape v (shape_of sizes) ->
  optimistic_policy_iteration_loop fuel constants sizes arrays tol m v = None \/
  exists v', optimistic_policy_iteration_loop fuel constants sizes arrays tol m v
             = Some (Ok v') /\ has_shape v' (shape_of sizes).
Proof.
  induction fuel as [|fuel IH]; intros v Hv; [now left|].
  destruct (opi_round constants sizes arrays Hmodel Hy Hz m v Hv)
    as (σ & v' & e & Hσ & _ & Hv' & Hs' & He & _).
  cbn [optimistic_policy_iteration_loop]. rewrite Hσ. cbn [bind].
  rewrite Hv'. cbn [bind]. rewrite He. cbn [bind].
  destruct (Qcltb tol e); [now apply IH|].
  right. now exists v'.
Qed.

Context {info : Type}.
Variable bicgstab :
  (ndarray Qc -> result (ndarray Qc)) -> ndarray Qc -> result (ndarray Qc * info).

Hypothesis Hsolver : forall σ, valid_policy sizes σ ->
  exists x i, bicgstab (fun v => A v σ constants sizes arrays)
                       (reward_matrix σ constants sizes arrays) = Ok (x, i) /\
              has_shape x (shape_of sizes).

(** Every round of the Howard loop returns a policy and a change. *)
Lemma policy_iteration_step_no_error σ :
  valid_policy sizes σ ->
  exists σ_new error,
    policy_iteration_step bicgstab constants sizes arrays σ = Ok (σ_new, error) /\
    valid_policy sizes σ_new.
Proof.
  intros Hσ. destruct (Hsolver σ Hσ) as (x & i & Hx & Hs).
  unfold policy_iteration_step.
  rewrite (get_value_2_unfold bicgstab constants sizes arrays Hmodel σ Hσ), Hx.
  cbn [bind fst].
  destruct (get_greedy_denotes constants sizes arrays Hmodel x Hs Hy)
    as (σ' & Hσ' & Hs' & _).
  pose proof (get_greedy_valid _ _ _ _ _ Hσ') as Hvalid.
  rewrite Hσ'. cbn [bind].
  assert (D : denotes (absolute_int (tsub_int σ' σ)) (shape_of sizes)
                (fun idx => Z.abs (get σ' idx - get σ idx))).
  { apply denotes_map1 with (f := fun idx => (get σ' idx - get σ idx)%Z).
    apply denotes_broadcast2_same; apply denotes_array; [exact Hs'|apply Hσ]. }
  destruct D as (a & Ha & [_ Hl] & _). unfold amax_int. rewrite Ha. cbn [bind].
  pose proof (size_shape_pos sizes Hy Hz) as Hpos.
  destruct (data a) as [|k l]; [simpl in Hl; lia|].
  eexists _, _. split; [reflexivity|exact Hvalid].
Qed.

Lemma policy_iteration_loop_no_error fuel : forall σ,
  valid_policy sizes σ ->
  policy_iteration_loop bicgstab fuel constants sizes arrays σ = None \/
  exists σ', policy_iteration_loop bicgstab fuel constants sizes arrays σ
             = Some (Ok σ').
Proof.
  induction fuel as [|fuel IH]; intros σ Hσ; [now left|].
  destruct (policy_iteration_step_no_error σ Hσ) as (σ_new & error & Hstep & Hnew).
  cbn [policy_iteration_loop]. rewrite Hstep.
  destruct (0 <? error)%Z; [now apply IH|].
  right. now exists σ_new.
Qed.

End NoErrors.

(** X13.  On a well-formed model with a non-empty state space the
    optimistic routine raises nothing: for every tolerance and every m it
    is either still in its loop or it has returned a policy. *)
Theorem opi_raises_nothing (constants : constants_t) (sizes : sizes_t)
    (arrays : arrays_t) (tol : float) (m fuel : nat) :
  model_shapes sizes arrays ->
  0 < fst sizes -> 0 < snd sizes ->
  optimistic_policy_iteration fuel (constants, sizes, arrays) tol m = None \/
  exists σ,
    optimistic_policy_iteration fuel (constants, sizes, arrays) tol m = Some (Ok σ).
Proof.
  intros Hm Hy Hz. unfold optimistic_policy_iteration.
  destruct (PrimFloat.ltb tol (PrimFloat.add tol 1)).
  - destruct (opi_loop_no_error constants sizes arrays Hm Hy Hz (float_to_Qc tol)
                m fuel (zeros (shape_of sizes)) (has_shape_tabulate _ _))
      as [->|(v & -> & Hv)]; [now left|].
    right. cbn [bind].
    destruct (get_greedy_denotes constants sizes arrays Hm v Hv Hy) as (σ & Hσ & _).
    exists σ. now rewrite Hσ.
  - right.
    destruct (get_greedy_denotes constants sizes arrays Hm (zeros (shape_of sizes))
                (has_shape_tabulate _ _) Hy) as (σ & Hσ & _).
    exists σ. now rewrite Hσ.
Qed.

(** X14.  The Howard routine raises nothing of its own: on a well-formed
    model with a non-empty state space, if the Krylov solver returns an
    array of shape y_size × z_size for every policy, the routine is either
    still in its loop or it has returned a policy. *)
Theorem policy_iteration_raises_nothing (info : Type)
    (bicgstab : (ndarray Qc -> result (ndarray Qc)) -> ndarray Qc ->
                result (ndarray Qc * info))
    (constants : constants_t) (sizes : sizes_t) (arrays : arrays_t) (fuel : nat) :
  model_shapes sizes arrays ->
  0 < fst sizes -> 0 < snd sizes ->
  (forall σ, valid_policy sizes σ ->
     exists x i, bicgstab (fun v => A v σ constants sizes arrays)
                          (reward_matrix σ constants sizes arrays) = Ok (x, i) /\
                 has_shape x (shape_of sizes)) ->
  policy_iteration bicgstab fuel (constants, sizes, arrays) = None \/
  exists σ, policy_iteration bicgstab fuel (constants, sizes, arrays) = Some (Ok σ).
Proof.
  intros Hm Hy Hz Hsolver. unfold policy_iteration.
  apply (policy_iteration_loop_no_error constants sizes arrays Hm Hy Hz bicgstab
           Hsolver fuel).
  apply valid_policy_zeros.
Qed.

(** ** The routines at the small model *)

Section SmallRoutines.

(** The exact solver of the examples returns a value function for every
    policy of the small model, whatever the constants. *)
Lemma exact_krylov_2_returns constants σ :
  valid_policy small_sizes σ ->
  exists x i,
    exact_krylov_2 (fun v => A v σ constants small_sizes small_arrays)
                   (reward_matrix σ constants small_sizes small_arrays)
    = Ok (x, i) /\
    has_shape x (shape_of small_sizes).
Proof.
  intros Hσ. unfold exact_krylov_2.
  assert (Hshape : shape (reward_matrix σ constants small_sizes small_arrays)
                   = [2; 1]) by reflexivity.
  rewrite Hshape.
  destruct (A_denotes constants small_sizes small_arrays small_model_shapes
              (mkarray [2; 1] [1%Qc; 0%Qc]) σ) as (c0 & -> & _);
    [split; reflexivity | exact Hσ |].
  destruct (A_denotes constants small_sizes small_arrays small_model_shapes
              (mkarray [2; 1] [0%Qc; 1%Qc]) σ) as (c1 & -> & _);
    [split; reflexivity | exact Hσ |].
  cbn [bind]. unfold solve_2x2. cbn [bind data].
  eexists _, _. split; [reflexivity|]. split; reflexivity.
Qed.

End SmallRoutines.

Lemma opi_raises_nothing_small :
  model_shapes small_sizes small_arrays /\
  0 < fst small_sizes /\ 0 < snd small_sizes /\
  (optimistic_policy_iteration 8 small_model 0.1875%float 3 = None \/
   exists σ, optimistic_policy_iteration 8 small_model 0.1875%float 3 = Some (Ok σ)).
Proof.
  assert (Hy : 0 < fst small_sizes) by (simpl; lia).
  assert (Hz : 0 < snd small_sizes) by (simpl; lia).
  split; [exact small_model_shapes|]. split; [exact Hy|]. split; [exact Hz|].
  apply (opi_raises_nothing small_constants small_sizes small_arrays 0.1875%float 3 8
           small_model_shapes Hy Hz).
Defined.

Lemma policy_iteration_raises_nothing_small :
  model_shapes small_sizes small_arrays /\
  0 < fst small_sizes /\ 0 < snd small_sizes /\
  (forall σ, valid_policy small_sizes σ ->
     exists x i,
       exact_krylov_2 (fun v => A v σ small_constants small_sizes small_arrays)
                      (reward_matrix σ small_constants small_sizes small_arrays)
       = Ok (x, i) /\
       has_shape x (shape_of small_sizes)) /\
  (policy_iteration exact_krylov_2 5 small_model = None \/
   exists σ, policy_iteration exact_krylov_2 5 small_model = Some (Ok σ)).
Proof.
  assert (Hy : 0 < fst small_sizes) by (simpl; lia).
  assert (Hz : 0 < snd small_sizes) by (simpl; lia).
  split; [exact small_model_shapes|]. split; [exact Hy|]. split; [exact Hz|].
  split; [exact (exact_krylov_2_returns small_constants)|].
  apply (policy_iteration_raises_nothing bool exact_krylov_2 small_constants
           small_sizes small_arrays 5 small_model_shapes Hy Hz
           (exact_krylov_2_returns small_constants)).
Defined.

(** * The discount factor zero *)

Section ZeroDiscount.

Variables (a_0 a_1 γ c : Qc) (y_size z_size : nat) (y_grid z_grid Q : ndarray Qc).

Let constants : constants_t := (0%Qc, a_0, a_1, γ, c).
Let sizes : sizes_t := (y_size, z_size).
Let arrays : arrays_t := (y_grid, z_grid, Q).

Hypothesis Hm : model_shapes sizes arrays.
Hypothesis Hy : 0 < y_size.
Hypothesis Hz : 0 < z_size.

Lemma backup_myopic v i j k :
  backup v constants sizes arrays i j k = reward constants arrays i j k.
Proof. unfold backup, constants, sizes, arrays. ring. Qed.

(** The greedy policy does not depend on the value function. *)
Lemma get_greedy_myopic v1 v2 :
  has_shape v1 [y_size; z_size] -> has_shape v2 [y_size; z_size] ->
  get_greedy v1 constants sizes arrays = get_greedy v2 constants sizes arrays.
Proof.
  intros H1 H2.
  apply (denotes_inj _ _ _ _ (get_greedy_denotes constants sizes arrays Hm v1 H1 Hy)).
  eapply denotes_ext; [|apply (get_greedy_denotes constants sizes arrays Hm v2 H2 Hy)].
  intros idx _. cbv beta.
  rewrite (map_ext (backup v2 constants sizes arrays (nth 0 idx 0) (nth 1 idx 0))
             (backup v1 constants sizes arrays (nth 0 idx 0) (nth 1 idx 0)));
    [reflexivity|].
  intros k. now rewrite !backup_myopic.
Qed.

(** An evaluation step returns the rewards of the policy. *)
Lemma T_σ_2_myopic v σ :
  has_shape v [y_size; z_size] -> valid_policy sizes σ ->
  T_σ_2 v σ constants sizes arrays = Ok (reward_matrix σ constants sizes arrays).
Proof.
  intros Hv Hσ.
  apply (denotes_inj _ _ _ _ (T_σ_2_denotes constants sizes arrays Hm v σ Hv Hσ)).
  eapply denotes_ext; [|apply denotes_tabulate].
  intros idx _. cbv beta zeta. now rewrite backup_myopic.
Qed.

Lemma iterate_T_σ_2_myopic σ m : forall v,
  has_shape v [y_size; z_size] -> valid_policy sizes σ ->
  iterate_T_σ_2 (S m) v σ constants sizes arrays
  = Ok (reward_matrix σ constants sizes arrays).
Proof.
  induction m as [|m IH]; intros v Hv Hσ.
  - cbn [iterate_T_σ_2]. now rewrite T_σ_2_myopic.
  - change (iterate_T_σ_2 (S (S m)) v σ constants sizes arrays)
      with (v' <- T_σ_2 v σ constants sizes arrays ;;
            iterate_T_σ_2 (S m) v' σ constants sizes arrays).
    rewrite T_σ_2_myopic by assumption. cbn [bind].
    apply IH; [apply has_shape_tabulate | exact Hσ].
Qed.

(** The evaluation steps of a second round with the same policy change
    nothing. *)
Lemma iterate_T_σ_2_stationary σ m v w :
  has_shape v [y_size; z_size] -> valid_policy sizes σ ->
  iterate_T_σ_2 m v σ constants sizes arrays = Ok w ->
  iterate_T_σ_2 m w σ constants sizes arrays = Ok w.
Proof.
  intros Hv Hσ. destruct m as [|m]; [reflexivity|].
  rewrite iterate_T_σ_2_myopic by assumption. intros [= <-].
  apply iterate_T_σ_2_myopic; [apply has_shape_tabulate | exact Hσ].
Qed.

(** The loop of the optimistic routine is left in its first or second
    round, with a value function. *)
Lemma opi_loop_myopic tol m fuel v :
  (0 <= tol)%Qc -> has_shape v [y_size; z_size] ->
  exists w,
    optimistic_policy_iteration_loop (S (S fuel)) constants sizes arrays tol m v
    = Some (Ok w) /\ has_shape w [y_size; z_size].
Proof.
  intros Htol Hv.
  destruct (opi_round constants sizes arrays Hm Hy Hz m v Hv)
    as (σ & w & e & Hσ & Hvalid & Hw & Hs & He & _).
  exists w. split; [|exact Hs].
  cbn [optimistic_policy_iteration_loop]. rewrite Hσ. cbn [bind].
  rewrite Hw. cbn [bind]. rewrite He. cbn [bind].
  destruct (Qcltb tol e); [|reflexivity].
  rewrite (get_greedy_myopic w v Hs Hv), Hσ. cbn [bind].
  rewrite (iterate_T_σ_2_stationary σ m v w Hv Hvalid Hw). cbn [bind].
  pose proof (sup_dist_self sizes Hy Hz w Hs) as E. unfold sup_dist in E.
  rewrite E. cbn [bind].
  destruct (Qcltb_spec tol 0) as [Hlt|_]; [|reflexivity].
  exfalso. qc_arith.
Qed.

Lemma amax_int_self σ :
  has_shape σ [y_size; z_size] ->
  amax_int (absolute_int (tsub_int σ σ)) = Ok 0%Z.
Proof.
  intros Hσ.
  assert (D : denotes (absolute_int (tsub_int σ σ)) [y_size; z_size]
                (fun idx => Z.abs (get σ idx - get σ idx))).
  { apply denotes_map1 with (f := fun idx => (get σ idx - get σ idx)%Z).
    apply denotes_broadcast2_same; now apply denotes_array. }
  apply denotes_result in D. rewrite D. unfold amax_int, tabulate.
  cbn [bind data].
  assert (E : map (fun idx => Z.abs (get σ idx - get σ idx)) (indices [y_size; z_size])
              = map (fun _ => 0%Z) (indices [y_size; z_size])).
  { apply map_ext. intros idx. rewrite Z.sub_diag. reflexivity. }
  rewrite E.
  assert (Hne : indices [y_size; z_size] <> []).
  { apply indices_nonempty. simpl. nia. }
  destruct (indices [y_size; z_size]) as [|i l]; [congruence|].
  cbn [map]. f_equal. unfold max_list_int.
  clear. induction l as [|x l IH]; simpl; [reflexivity|exact IH].
Qed.

Context {info : Type}.
Variable bicgstab :
  (ndarray Qc -> result (ndarray Qc)) -> ndarray Qc -> result (ndarray Qc * info).

Hypothesis Hsolver : forall σ, valid_policy sizes σ ->
  exists x i, bicgstab (fun v => A v σ constants sizes arrays)
                       (reward_matrix σ constants sizes arrays) = Ok (x, i) /\
              has_shape x (shape_of sizes).

(** Every round of the Howard loop proposes the same policy. *)
Lemma policy_iteration_step_myopic σ σ_m :
  valid_policy sizes σ ->
  get_greedy (zeros (shape_of sizes)) constants sizes arrays = Ok σ_m ->
  exists error,
    policy_iteration_step bicgstab constants sizes arrays σ = Ok (σ_m, error).
Proof.
  intros Hσ Hg.
  destruct (policy_iteration_step_no_error constants sizes arrays Hm Hy Hz
              bicgstab Hsolver σ Hσ) as (σ_new & error & Hstep & _).
  exists error. rewrite Hstep. do 2 f_equal.
  destruct (Hsolver σ Hσ) as (x & i & Hx & Hs).
  unfold policy_iteration_step in Hstep.
  rewrite (get_value_2_unfold bicgstab constants sizes arrays Hm σ Hσ), Hx in Hstep.
  cbn [bind fst] in Hstep.
  rewrite (get_greedy_myopic x (zeros (shape_of sizes)) Hs (has_shape_tabulate _ _)),
    Hg in Hstep.
  cbn [bind] in Hstep.
  destruct (amax_int _); cbn [bind] in Hstep; [|discriminate].
  now injection Hstep as -> _.
Qed.

Lemma policy_iteration_loop_myopic fuel σ_m :
  get_greedy (zeros (shape_of sizes)) constants sizes arrays = Ok σ_m ->
  policy_iteration_loop bicgstab (S (S fuel)) constants sizes arrays
    (zeros (shape_of sizes)) = Some (Ok σ_m).
Proof.
  intros Hg. pose proof (get_greedy_valid _ _ _ _ _ Hg) as Hvalid.
  destruct (policy_iteration_step_myopic _ σ_m (valid_policy_zeros sizes) Hg)
    as (e1 & H1).
  cbn [policy_iteration_loop]. rewrite H1.
  destruct (0 <? e1)%Z; [|reflexivity].
  assert (H2 : policy_iteration_step bicgstab constants sizes arrays σ_m
               = Ok (σ_m, 0%Z)).
  { destruct (Hsolver σ_m Hvalid) as (x & i & Hx & Hs).
    unfold policy_iteration_step.
    rewrite (get_value_2_unfold bicgstab constants sizes arrays Hm σ_m Hvalid), Hx.
    cbn [bind fst].
    rewrite (get_greedy_myopic x (zeros (shape_of sizes)) Hs (has_shape_tabulate _ _)),
      Hg.
    cbn [bind]. rewrite amax_int_self by apply Hvalid. reflexivity. }
  rewrite H2. reflexivity.
Qed.

End ZeroDiscount.

(** X16.  With the discount factor zero the greedy policy does not depend
    on the value function, and the optimistic routine returns the policy
    that is greedy for the zero value function after at most two rounds,
    for every tolerance that is not negative and every m. *)
Theorem zero_discount_opi_myopic (a_0 a_1 γ c : Qc) (y_size z_size : nat)
    (y_grid z_grid Q : ndarray Qc) (tol : float) (m fuel : nat) :
  let constants := (0%Qc, a_0, a_1, γ, c) in
  let sizes := (y_size, z_size) in
  let arrays := (y_grid, z_grid, Q) in
  model_shapes sizes arrays ->
  0 < y_size -> 0 < z_size ->
  (0 <= float_to_Qc tol)%Qc ->
  (forall v, has_shape v [y_size; z_size] ->
     get_greedy v constants sizes arrays
     = get_greedy (zeros (shape_of sizes)) constants sizes arrays) /\
  optimistic_policy_iteration (S (S fuel)) (constants, sizes, arrays) tol m
  = Some (get_greedy (zeros (shape_of sizes)) constants sizes arrays).
Proof.
  intros constants sizes arrays Hm Hy Hz Htol. subst constants sizes arrays. split.
  - intros v Hv.
    apply (get_greedy_myopic a_0 a_1 γ c y_size z_size y_grid z_grid Q Hm Hy v _ Hv).
    apply has_shape_tabulate.
  - unfold optimistic_policy_iteration.
    destruct (PrimFloat.ltb tol (PrimFloat.add tol 1)); [|reflexivity].
    destruct (opi_loop_myopic a_0 a_1 γ c y_size z_size y_grid z_grid Q Hm Hy Hz
                (float_to_Qc tol) m fuel (zeros (shape_of (y_size, z_size))) Htol
                (has_shape_tabulate _ _)) as (w & -> & Hw).
    cbn [bind]. f_equal.
    apply (get_greedy_myopic a_0 a_1 γ c y_size z_size y_grid z_grid Q Hm Hy w _ Hw).
    apply has_shape_tabulate.
Qed.

(** X17.  With the discount factor zero the Howard routine returns the
    policy that is greedy for the zero value function after at most two
    rounds, whatever value functions (of shape y_size × z_size) the Krylov
    solver returns. *)
Theorem zero_discount_policy_iteration_myopic (info : Type)
    (bicgstab : (ndarray Qc -> result (ndarray Qc)) -> ndarray Qc ->
                result (ndarray Qc * info))
    (a_0 a_1 γ c : Qc) (y_size z_size : nat)
    (y_grid z_grid Q : ndarray Qc) (fuel : nat) :
  let constants := (0%Qc, a_0, a_1, γ, c) in
  let sizes := (y_size, z_size) in
  let arrays := (y_grid, z_grid, Q) in
  model_shapes sizes arrays ->
  0 < y_size -> 0 < z_size ->
  (forall σ, valid_policy sizes σ ->
     exists x i, bicgstab (fun v => A v σ constants sizes arrays)
                          (reward_matrix σ constants sizes arrays) = Ok (x, i) /\
                 has_shape x (shape_of sizes)) ->
  policy_iteration bicgstab (S (S fuel)) (constants, sizes, arrays)
  = Some (get_greedy (zeros (shape_of sizes)) constants sizes arrays).
Proof.
  intros constants sizes arrays Hm Hy Hz Hsolver. subst constants sizes arrays.
  destruct (get_greedy_denotes (0%Qc, a_0, a_1, γ, c) (y_size, z_size)
              (y_grid, z_grid, Q) Hm (zeros (shape_of (y_size, z_size)))
              (has_shape_tabulate _ _) Hy) as (σ_m & Hg & _).
  rewrite Hg. unfold policy_iteration.
  apply (policy_iteration_loop_myopic a_0 a_1 γ c y_size z_size y_grid z_grid Q
           Hm Hy Hz bicgstab Hsolver fuel σ_m Hg).
Qed.

(** ** The discount factor zero at the small model *)

Lemma zero_discount_opi_myopic_small :
  model_shapes small_sizes small_arrays /\
  0 < 2 /\ 0 < 1 /\ (0 <= float_to_Qc 0.125%float)%Qc /\
  (forall v, has_shape v [2; 1] ->
     get_greedy v myopic_constants small_sizes small_arrays
     = get_greedy (zeros (shape_of small_sizes)) myopic_constants small_sizes
         small_arrays) /\
  optimistic_policy_iteration 2 (myopic_constants, small_sizes, small_arrays)
    0.125%float 3
  = Some (get_greedy (zeros (shape_of small_sizes)) myopic_constants small_sizes
            small_arrays).
Proof.
  assert (Hy : 0 < 2) by lia.
  assert (Hz : 0 < 1) by lia.
  assert (Htol : (0 <= float_to_Qc 0.125%float)%Qc) by (vm_compute; discriminate).
  split; [exact small_model_shapes|]. split; [exact Hy|]. split; [exact Hz|].
  split; [exact Htol|].
  apply (zero_discount_opi_myopic (q 3 1) (q 0 1) (q 1 1) (q 1 1) 2 1
           small_y_grid small_z_grid small_Q 0.125%float 3 0
           small_model_shapes Hy Hz Htol).
Defined.

Lemma zero_discount_policy_iteration_myopic_small :
  model_shapes small_sizes small_arrays /\
  0 < 2 /\ 0 < 1 /\
  (forall σ, valid_policy small_sizes σ ->
     exists x i,
       exact_krylov_2 (fun v => A v σ myopic_constants small_sizes small_arrays)
                      (reward_matrix σ myopic_constants small_sizes small_arrays)
       = Ok (x, i) /\
       has_shape x (shape_of small_sizes)) /\
  policy_iteration exact_krylov_2 2 (myopic_constants, small_sizes, small_arrays)
  = Some (get_greedy (zeros (shape_of small_sizes)) myopic_constants small_sizes
            small_arrays).
Proof.
  assert (Hy : 0 < 2) by lia.
  assert (Hz : 0 < 1) by lia.
  split; [exact small_model_shapes|]. split; [exact Hy|]. split; [exact Hz|].
  split; [exact (exact_krylov_2_returns myopic_constants)|].
  apply (zero_discount_policy_iteration_myopic bool exact_krylov_2
           (q 3 1) (q 0 1) (q 1 1) (q 1 1) 2 1
           small_y_grid small_z_grid small_Q 0
           small_model_shapes Hy Hz (exact_krylov_2_returns myopic_constants)).
Defined.

